(** * A shallow embedding of libdict's path-reduction tree (src/src/pr_tree.c)

    The linked [pr_node] graph is modelled as an inductive tree: the
    [llink]/[rlink] ownership edges are the constructor arguments, and the
    [parent] back-references are recovered as a zipper (the list of frames
    from a node up to the root) wherever the code walks them (the cursor).
    Keys are opaque and only compared through the tree's [key_cmp]; data are
    pointers, modelled as [Z] addresses with [NULL = 0].  [weight_t] is an
    [unsigned long]; weights are bounded by the node count plus one, so they
    are modelled as [nat] without wrap-around.  The deleter callback
    [del_func] only has effects outside the tree and is not modelled. *)

From Stdlib Require Import List Arith Lia Bool NArith ZArith Sorting.Sorted Sorting.Permutation.
Import ListNotations.

Definition ptr := Z.
Definition NULL : ptr := 0%Z.

Section PrTree.

Context {K : Type}.

(** struct pr_node { key; datum; parent; llink; rlink; weight; } *)
Inductive pr_node : Type :=
| Nil
| Node (llink : pr_node) (key : K) (datum : ptr) (weight : nat) (rlink : pr_node).

(** #define WEIGHT(n) ((n) ? (n)->weight : 1) *)
Definition WEIGHT (n : pr_node) : nat :=
  match n with Nil => 1 | Node _ _ _ w _ => w end.

Definition llink_of (n : pr_node) : pr_node :=
  match n with Nil => Nil | Node l _ _ _ _ => l end.

Definition rlink_of (n : pr_node) : pr_node :=
  match n with Nil => Nil | Node _ _ _ _ r => r end.

(** Number of nodes reachable from [n]; bounds every loop of the code. *)
Fixpoint node_count (n : pr_node) : nat :=
  match n with Nil => 0 | Node l _ _ _ r => S (node_count l + node_count r) end.

(** node_new: a fresh leaf has weight 2 *)
Definition node_new (key : K) (datum : ptr) : pr_node := Node Nil key datum 2 Nil.

(** rot_left(T, B): B's right child D becomes the subtree root; REWEIGH(B)
    then REWEIGH(D).  [ASSERT(node->rlink != NULL)]: a node without right
    child is left alone. *)
Definition rot_left (n : pr_node) : pr_node :=
  match n with
  | Node a bk bd _ (Node c dk dd _ e) =>
      let b := Node a bk bd (WEIGHT a + WEIGHT c) c in
      Node b dk dd (WEIGHT b + WEIGHT e) e
  | _ => n
  end.

(** rot_right(T, D): mirror image of [rot_left]. *)
Definition rot_right (n : pr_node) : pr_node :=
  match n with
  | Node (Node a bk bd _ c) dk dd _ e =>
      let d := Node c dk dd (WEIGHT c + WEIGHT e) e in
      Node a bk bd (WEIGHT a + WEIGHT d) d
  | _ => n
  end.

(** fixup(tree, node), with the [goto again] loop and the recursive call of
    the double-rotation cases.  Acting on the subtree rooted at [node]:
    after a rotation [node] has moved down one level and [again] re-examines
    it there.  Every recursive call is on a strictly smaller subtree, so
    [fuel = node_count] suffices ([fixup_fuel_enough] below). *)
Fixpoint fixup_fuel (fuel : nat) (n : pr_node) : pr_node :=
  match n with
  | Nil => n
  | Node l _ _ _ r =>
    match fuel with
    | O => n
    | S fuel' =>
      let wl := WEIGHT l in
      let wr := WEIGHT r in
      if wl <? wr then
        if wl <? WEIGHT (rlink_of r) then
          (* LL: rot_left(tree, node); goto again *)
          match rot_left n with
          | Node b dk dd dw e => Node (fixup_fuel fuel' b) dk dd dw e
          | n' => n'
          end
        else if wl <? WEIGHT (llink_of r) then
          (* RL: temp = node->rlink; rot_right(temp); rot_left(node);
             if (temp->rlink) fixup(temp->rlink); goto again *)
          match n with
          | Node l k d w r =>
            match rot_left (Node l k d w (rot_right r)) with
            | Node b ck cd cw (Node c dk dd dw e) =>
                Node (fixup_fuel fuel' b) ck cd cw
                     (Node c dk dd dw
                        (match e with Nil => Nil | _ => fixup_fuel fuel' e end))
            | n' => n'
            end
          | Nil => n
          end
        else n
      else if wr <? wl then
        if wr <? WEIGHT (llink_of l) then
          (* RR: rot_right(tree, node); goto again *)
          match rot_right n with
          | Node a bk bd bw b => Node a bk bd bw (fixup_fuel fuel' b)
          | n' => n'
          end
        else if wr <? WEIGHT (rlink_of l) then
          (* LR: temp = node->llink; rot_left(temp); rot_right(node);
             if (temp->llink) fixup(temp->llink); goto again *)
          match n with
          | Node l k d w r =>
            match rot_right (Node (rot_left l) k d w r) with
            | Node (Node a bk bd bw c) ck cd cw b =>
                Node (Node (match a with Nil => Nil | _ => fixup_fuel fuel' a end)
                           bk bd bw c)
                     ck cd cw (fixup_fuel fuel' b)
            | n' => n'
            end
          | Nil => n
          end
        else n
      else n
    end
  end.

Definition fixup (n : pr_node) : pr_node := fixup_fuel (node_count n) n.

(** The outcome of the descent of [pr_tree_insert]. *)
Inductive ins_outcome : Type :=
| Ins_dup                      (* key exists, overwrite == 0: return 1 *)
| Ins_replaced (n : pr_node)   (* key exists, key/datum overwritten: return 0 *)
| Ins_nomem                    (* node_new failed: return -1 *)
| Ins_new (n : pr_node).       (* node linked in, ancestors reweighed: return 0 *)

Section WithCmp.

Variable key_cmp : K -> K -> comparison.

(** pr_tree_search *)
Fixpoint node_search (key : K) (n : pr_node) : ptr :=
  match n with
  | Nil => NULL
  | Node l k d _ r =>
    match key_cmp key k with
    | Lt => node_search key l
    | Gt => node_search key r
    | Eq => d
    end
  end.

(** The body of pr_tree_insert below the root pointer: descend; on a hit
    overwrite or reject; at the empty slot allocate ([alloc_ok] says whether
    MALLOC succeeds) and link the new node; then, from the new node's parent
    up to the root, [node->weight++; FIXUP(tree, node)]. *)
Fixpoint node_insert (key : K) (datum : ptr) (overwrite : Z) (alloc_ok : bool)
    (n : pr_node) : ins_outcome :=
  match n with
  | Nil => if alloc_ok then Ins_new (node_new key datum) else Ins_nomem
  | Node l k d w r =>
    match key_cmp key k with
    | Lt =>
      match node_insert key datum overwrite alloc_ok l with
      | Ins_new l' => Ins_new (fixup (Node l' k d (S w) r))
      | Ins_replaced l' => Ins_replaced (Node l' k d w r)
      | o => o
      end
    | Gt =>
      match node_insert key datum overwrite alloc_ok r with
      | Ins_new r' => Ins_new (fixup (Node l k d (S w) r'))
      | Ins_replaced r' => Ins_replaced (Node l k d w r')
      | o => o
      end
    | Eq =>
      if (overwrite =? 0)%Z then Ins_dup
      else Ins_replaced (Node l key datum w r)
    end
  end.

(** The outcome of the descent of [pr_tree_probe]. *)
Inductive probe_outcome : Type :=
| Probe_found (d : ptr)        (* *datum = node->datum; return 0 *)
| Probe_nomem                  (* return -1 *)
| Probe_new (n : pr_node).     (* return 1 *)

Fixpoint node_probe (key : K) (datum : ptr) (alloc_ok : bool) (n : pr_node)
    : probe_outcome :=
  match n with
  | Nil => if alloc_ok then Probe_new (node_new key datum) else Probe_nomem
  | Node l k d w r =>
    match key_cmp key k with
    | Lt =>
      match node_probe key datum alloc_ok l with
      | Probe_new l' => Probe_new (fixup (Node l' k d (S w) r))
      | o => o
      end
    | Gt =>
      match node_probe key datum alloc_ok r with
      | Probe_new r' => Probe_new (fixup (Node l k d (S w) r'))
      | o => o
      end
    | Eq => Probe_found d
    end
  end.

(** The loop of pr_tree_remove on the subtree at [node].  [None]: the fuel
    ran out; [Some None]: [node] became NULL (return -1, nothing changed);
    [Some (Some n')]: the key's node was spliced out and [n'] replaces the
    subtree, every ancestor of the splice point inside it having had
    [temp->weight--].  In the two-children case the (optionally corrected)
    heavier child is rotated up and the loop goes on at [node] in its new
    place ([out->rlink] / [out->llink]), comparing the key again; the
    rotated-up node [out] is then an ancestor of the splice point. *)
Fixpoint remove_loop (fuel : nat) (key : K) (n : pr_node)
    : option (option pr_node) :=
  match n with
  | Nil => Some None
  | Node l k d w r =>
    match fuel with
    | O => None
    | S fuel' =>
      match key_cmp key k with
      | Lt =>
        match remove_loop fuel' key l with
        | Some (Some l') => Some (Some (Node l' k d (w - 1) r))
        | o => o
        end
      | Gt =>
        match remove_loop fuel' key r with
        | Some (Some r') => Some (Some (Node l k d (w - 1) r'))
        | o => o
        end
      | Eq =>
        match l, r with
        | Nil, _ => Some (Some r)
        | _, Nil => Some (Some l)
        | _, _ =>
          if WEIGHT r <? WEIGHT l then
            let l1 := if WEIGHT (llink_of l) <? WEIGHT (rlink_of l)
                      then rot_left l else l in
            match rot_right (Node l1 k d w r) with
            | Node a ok od ow x =>
              match remove_loop fuel' key x with
              | Some (Some x') => Some (Some (Node a ok od (ow - 1) x'))
              | o => o
              end
            | Nil => None
            end
          else
            let r1 := if WEIGHT (rlink_of r) <? WEIGHT (llink_of r)
                      then rot_right r else r in
            match rot_left (Node l k d w r1) with
            | Node x ok od ow b =>
              match remove_loop fuel' key x with
              | Some (Some x') => Some (Some (Node x' ok od (ow - 1) b))
              | o => o
              end
            | Nil => None
            end
        end
      end
    end
  end.

End WithCmp.

(** struct pr_tree { root; count; key_cmp; del_func; } *)
Record pr_tree : Type := mk_tree {
  root : pr_node;
  count : nat;
  key_cmp : K -> K -> comparison
}.

(** pr_tree_insert(tree, key, datum, overwrite) *)
Definition pr_tree_insert (t : pr_tree) (key : K) (datum : ptr) (overwrite : Z)
    (alloc_ok : bool) : Z * pr_tree :=
  match node_insert (key_cmp t) key datum overwrite alloc_ok (root t) with
  | Ins_dup => (1%Z, t)
  | Ins_replaced n => (0%Z, mk_tree n (count t) (key_cmp t))
  | Ins_nomem => ((-1)%Z, t)
  | Ins_new n =>
    match root t with
    | Nil => (0%Z, mk_tree n 1 (key_cmp t))
    | _ => (0%Z, mk_tree n (S (count t)) (key_cmp t))
    end
  end.

(** pr_tree_probe(tree, key, &datum): returns the code, the slot, the tree *)
Definition pr_tree_probe (t : pr_tree) (key : K) (slot : ptr) (alloc_ok : bool)
    : Z * ptr * pr_tree :=
  match node_probe (key_cmp t) key slot alloc_ok (root t) with
  | Probe_found d => (0%Z, d, t)
  | Probe_nomem => ((-1)%Z, slot, t)
  | Probe_new n =>
    match root t with
    | Nil => (1%Z, slot, mk_tree n 1 (key_cmp t))
    | _ => (1%Z, slot, mk_tree n (S (count t)) (key_cmp t))
    end
  end.

Definition pr_tree_search (t : pr_tree) (key : K) : ptr :=
  node_search (key_cmp t) key (root t).

(** pr_tree_remove(tree, key); the fuel [node_count] is never exhausted
    (remove_loop_fuel below), the [None] branch is dead. *)
Definition pr_tree_remove (t : pr_tree) (key : K) : Z * pr_tree :=
  match remove_loop (key_cmp t) (node_count (root t)) key (root t) with
  | Some (Some n) => (0%Z, mk_tree n (count t - 1) (key_cmp t))
  | Some None => ((-1)%Z, t)
  | None => ((-1)%Z, t)
  end.

(** pr_tree_empty(tree): frees every node, returns the former count *)
Definition pr_tree_empty (t : pr_tree) : nat * pr_tree :=
  (count t, mk_tree Nil 0 (key_cmp t)).

(** ** Parent chains and the cursor

    A node pointer together with its [parent] chain is a zipper: the node's
    subtree and the frames of its ancestors, innermost first.  [Lframe]: the
    node is its parent's [llink]; [Rframe]: its [rlink]. *)
Inductive frame : Type :=
| Lframe (key : K) (datum : ptr) (weight : nat) (rlink : pr_node)
| Rframe (llink : pr_node) (key : K) (datum : ptr) (weight : nat).

Definition pos : Type := (pr_node * list frame)%type.

(** Follow the parent chain back to the root. *)
Fixpoint plug (ctx : list frame) (n : pr_node) : pr_node :=
  match ctx with
  | [] => n
  | Lframe k d w r :: c => plug c (Node n k d w r)
  | Rframe l k d w :: c => plug c (Node l k d w n)
  end.

(** node_min: [while (node->llink) node = node->llink;] *)
Fixpoint node_min (n : pr_node) (ctx : list frame) : pos :=
  match n with
  | Node (Node _ _ _ _ _ as l) k d w r => node_min l (Lframe k d w r :: ctx)
  | _ => (n, ctx)
  end.

(** node_max: [while (node->rlink) node = node->rlink;] *)
Fixpoint node_max (n : pr_node) (ctx : list frame) : pos :=
  match n with
  | Node l k d w (Node _ _ _ _ _ as r) => node_max r (Rframe l k d w :: ctx)
  | _ => (n, ctx)
  end.

(** The ascent of node_next: [temp = node->parent; while (temp &&
    temp->rlink == node) { node = temp; temp = temp->parent; } return temp;] *)
Fixpoint ascend_next (n : pr_node) (ctx : list frame) : option pos :=
  match ctx with
  | [] => None
  | Lframe k d w r :: c => Some (Node n k d w r, c)
  | Rframe l k d w :: c => ascend_next (Node l k d w n) c
  end.

(** The ascent of node_prev, with [temp->llink == node]. *)
Fixpoint ascend_prev (n : pr_node) (ctx : list frame) : option pos :=
  match ctx with
  | [] => None
  | Rframe l k d w :: c => Some (Node l k d w n, c)
  | Lframe k d w r :: c => ascend_prev (Node n k d w r) c
  end.

(** node_next *)
Definition node_next (p : pos) : option pos :=
  match p with
  | (Node l k d w r as n, ctx) =>
    match r with
    | Nil => ascend_next n ctx
    | _ => Some (node_min r (Rframe l k d w :: ctx))
    end
  | (Nil, _) => None
  end.

(** node_prev *)
Definition node_prev (p : pos) : option pos :=
  match p with
  | (Node l k d w r as n, ctx) =>
    match l with
    | Nil => ascend_prev n ctx
    | _ => Some (node_max l (Lframe k d w r :: ctx))
    end
  | (Nil, _) => None
  end.

(** struct pr_itor { tree; node; } *)
Record pr_itor : Type := mk_itor {
  itree : pr_tree;
  inode : option pos
}.

(** #define RETVALID(itor) return itor->node != NULL *)
Definition RETVALID (it : pr_itor) : Z :=
  match inode it with Some _ => 1%Z | None => 0%Z end.

Definition pr_itor_first (it : pr_itor) : Z * pr_itor :=
  let it' := mk_itor (itree it)
               (match root (itree it) with
                | Nil => None
                | r => Some (node_min r [])
                end) in
  (RETVALID it', it').

Definition pr_itor_last (it : pr_itor) : Z * pr_itor :=
  let it' := mk_itor (itree it)
               (match root (itree it) with
                | Nil => None
                | r => Some (node_max r [])
                end) in
  (RETVALID it', it').

Definition pr_itor_next (it : pr_itor) : Z * pr_itor :=
  match inode it with
  | None => pr_itor_first it
  | Some p => let it' := mk_itor (itree it) (node_next p) in (RETVALID it', it')
  end.

Definition pr_itor_prev (it : pr_itor) : Z * pr_itor :=
  match inode it with
  | None => pr_itor_last it
  | Some p => let it' := mk_itor (itree it) (node_prev p) in (RETVALID it', it')
  end.

(** pr_itor_new: MALLOC, then pr_itor_first *)
Definition pr_itor_new (t : pr_tree) (alloc_ok : bool) : option pr_itor :=
  if alloc_ok then Some (snd (pr_itor_first (mk_itor t None))) else None.

Definition pos_key (p : pos) : option K :=
  match fst p with Node _ k _ _ _ => Some k | Nil => None end.

Definition pos_datum (p : pos) : ptr :=
  match fst p with Node _ _ d _ _ => d | Nil => NULL end.

(** pr_itor_key: [itor->node ? itor->node->key : NULL]; [None] is NULL *)
Definition pr_itor_key (it : pr_itor) : option K :=
  match inode it with Some p => pos_key p | None => None end.

(** pr_itor_data: [itor->node ? itor->node->datum : NULL] *)
Definition pr_itor_data (it : pr_itor) : ptr :=
  match inode it with Some p => pos_datum p | None => NULL end.

(** The loop of pr_tree_walk: [for (node = node_min(tree->root); node;
    node = node_next(node)) { ++count; if (!visit(key, datum)) break; }].
    The visited (key, datum) pairs are returned with the count; one step per
    node, so [fuel = node_count] suffices. *)
Fixpoint walk_loop (fuel : nat) (visit : K -> ptr -> bool) (p : option pos)
    (cnt : nat) : nat * list (K * ptr) :=
  match p, fuel with
  | Some (Node _ k d _ _ as n, ctx), S fuel' =>
    if visit k d then
      let '(c, xs) := walk_loop fuel' visit (node_next (n, ctx)) (S cnt) in
      (c, (k, d) :: xs)
    else (S cnt, [(k, d)])
  | _, _ => (cnt, [])
  end.

Definition pr_tree_walk (t : pr_tree) (visit : K -> ptr -> bool)
    : nat * list (K * ptr) :=
  match root t with
  | Nil => (0, [])
  | r => walk_loop (node_count r) visit (Some (node_min r [])) 0
  end.

(** The keys seen by a cursor stepped with [pr_itor_next] until it is
    unbound, at most [fuel] of them. *)
Fixpoint itor_keys (fuel : nat) (it : pr_itor) : list K :=
  match fuel, pr_itor_key it with
  | S fuel', Some k => k :: itor_keys fuel' (snd (pr_itor_next it))
  | _, _ => []
  end.

(** ** The properties of the trees *)

(** In-order sequence of (key, datum) pairs. *)
Fixpoint inorder (n : pr_node) : list (K * ptr) :=
  match n with
  | Nil => []
  | Node l k d _ r => inorder l ++ (k, d) :: inorder r
  end.

Definition keys (n : pr_node) : list K := map fst (inorder n).

(** The pairs before and after a subtree plugged into a parent chain. *)
Fixpoint ctx_pre (ctx : list frame) : list (K * ptr) :=
  match ctx with
  | [] => []
  | Lframe _ _ _ _ :: c => ctx_pre c
  | Rframe l k d _ :: c => ctx_pre c ++ inorder l ++ [(k, d)]
  end.

Fixpoint ctx_post (ctx : list frame) : list (K * ptr) :=
  match ctx with
  | [] => []
  | Lframe k d _ r :: c => (k, d) :: inorder r ++ ctx_post c
  | Rframe _ _ _ _ :: c => ctx_post c
  end.

Definition pos_entry (p : pos) : option (K * ptr) :=
  match fst p with Node _ k d _ _ => Some (k, d) | Nil => None end.

(** [pos_at root p pre e post]: the cursor node [p] lies in the tree [root],
    holds the pair [e], and the in-order sequence of [root] is
    [pre ++ e :: post]. *)
Definition pos_at (rt : pr_node) (p : pos) (pre : list (K * ptr)) (e : K * ptr)
    (post : list (K * ptr)) : Prop :=
  plug (snd p) (fst p) = rt /\ pos_entry p = Some e /\
  ctx_pre (snd p) ++ inorder (llink_of (fst p)) = pre /\
  inorder (rlink_of (fst p)) ++ ctx_post (snd p) = post.

(** weight(n) = weight(n.left) + weight(n.right), absent child = 1 *)
Fixpoint weights_ok (n : pr_node) : Prop :=
  match n with
  | Nil => True
  | Node l _ _ w r => w = WEIGHT l + WEIGHT r /\ weights_ok l /\ weights_ok r
  end.

(** The path-reduction balance condition at every node (spec section 3). *)
Fixpoint pr_balanced (n : pr_node) : bool :=
  match n with
  | Nil => true
  | Node l _ _ _ r =>
    let wl := WEIGHT l in
    let wr := WEIGHT r in
    (if wl <? wr then (WEIGHT (rlink_of r) <=? wl) && (WEIGHT (llink_of r) <=? wl)
     else if wr <? wl then (WEIGHT (llink_of l) <=? wr) && (WEIGHT (rlink_of l) <=? wr)
     else true)
    && pr_balanced l && pr_balanced r
  end.

(** The trees the public operations can produce from an empty tree. *)
Inductive reachable : pr_tree -> Prop :=
| reach_new (cmp : K -> K -> comparison) : reachable (mk_tree Nil 0 cmp)
| reach_insert t key datum ow al :
    reachable t -> reachable (snd (pr_tree_insert t key datum ow al))
| reach_probe t key slot al :
    reachable t -> reachable (snd (pr_tree_probe t key slot al))
| reach_remove t key :
    reachable t -> reachable (snd (pr_tree_remove t key))
| reach_empty t :
    reachable t -> reachable (snd (pr_tree_empty t)).

End PrTree.

Arguments pr_node : clear implicits.
Arguments pr_tree : clear implicits.
Arguments frame : clear implicits.
Arguments pos : clear implicits.
Arguments pr_itor : clear implicits.

(** Modelled from the spec: [dict_ptr_cmp] is declared by dict.h and defined
    in dict.c, which are not under src/; as its name says (the comparator
    used when no [key_cmp] is given), it compares the two key pointers as
    addresses: [(k1 > k2) - (k1 < k2)]. *)
Definition dict_ptr_cmp (a b : ptr) : comparison := Z.compare a b.

(** pr_tree_new(key_cmp, del_func): [key_cmp ? key_cmp : dict_ptr_cmp] *)
Definition pr_tree_new (key_cmp : option (ptr -> ptr -> comparison)) (alloc_ok : bool)
    : option (pr_tree ptr) :=
  if alloc_ok then
    Some (mk_tree Nil 0 (match key_cmp with Some f => f | None => dict_ptr_cmp end))
  else None.

(** A comparator that is a strict total order on key values. *)
Definition strict_total {K : Type} (c : K -> K -> comparison) : Prop :=
  (forall a b, c a b = Eq <-> a = b) /\
  (forall a b, c b a = CompOpp (c a b)) /\
  (forall a b x, c a b = Lt -> c b x = Lt -> c a x = Lt).

(** Keys in strictly ascending comparator order. *)
Definition ascending {K : Type} (c : K -> K -> comparison) (xs : list K) : Prop :=
  StronglySorted (fun a b => c a b = Lt) xs.

(** The in-order keys of a subtree are strictly ascending. *)
Definition sorted {K : Type} (c : K -> K -> comparison) (n : pr_node K) : Prop :=
  ascending c (keys n).

(** The datum of the first pair whose key compares equal, NULL if none. *)
Definition lookup {K : Type} (c : K -> K -> comparison) (key : K)
    (xs : list (K * ptr)) : ptr :=
  match find (fun e => match c key (fst e) with Eq => true | _ => false end) xs with
  | Some e => snd e
  | None => NULL
  end.

(** The spec's account of remove when the node holding [key] has at most
    one child: that node is replaced by its child (the splice) and every
    ancestor on the search path keeps its place with its weight decreased by
    one; no fixup and no rotation. [None] when the key is absent or its node
    has two children. *)
Fixpoint splice_remove {K : Type} (c : K -> K -> comparison) (key : K)
    (n : pr_node K) : option (pr_node K) :=
  match n with
  | Nil => None
  | Node l k d w r =>
    match c key k with
    | Lt => option_map (fun l' => Node l' k d (w - 1) r) (splice_remove c key l)
    | Gt => option_map (fun r' => Node l k d (w - 1) r') (splice_remove c key r)
    | Eq =>
      match l, r with
      | Nil, _ => Some r
      | _, Nil => Some l
      | _, _ => None
      end
    end
  end.

(** A sequence of [pr_tree_insert] calls, each storing the key as its own
    datum ([datum = key]), with [overwrite = 0] and a succeeding allocation. *)
Definition insert_keys (t : pr_tree ptr) (ks : list ptr) : pr_tree ptr :=
  fold_left (fun t k => snd (pr_tree_insert t k k 0%Z true)) ks t.

(** ** The remaining functions of pr_tree.c *)

Section PrTreeMore.

Context {K : Type}.

(** pr_tree_count(tree): [return tree->count;] *)
Definition pr_tree_count (t : pr_tree K) : nat := count t.

(** pr_tree_destroy(tree): [if (tree->root) count = pr_tree_empty(tree);
    FREE(tree); return count;] *)
Definition pr_tree_destroy (t : pr_tree K) : nat :=
  match root t with
  | Nil => 0
  | _ => fst (pr_tree_empty t)
  end.

(** The loop of pr_tree_empty: [while (node) { if (node->llink ||
    node->rlink) { node = node->llink ? node->llink : node->rlink; continue; }
    del_func(node->key, node->datum); parent = node->parent; FREE(node);
    if (parent) { if (parent->llink == node) parent->llink = NULL; else
    parent->rlink = NULL; } node = parent; }]. The result is the sequence of
    (key, datum) pairs handed to [del_func], one per freed node. Each
    iteration either descends or frees one node, so [2 * node_count] bounds
    the iterations. *)
Fixpoint empty_loop (fuel : nat) (n : pr_node K) (ctx : list (frame K))
    : list (K * ptr) :=
  match fuel with
  | O => []
  | S f =>
    match n with
    | Nil => []
    | Node l k d w r =>
      match l, r with
      | Nil, Nil =>
        (k, d) ::
        match ctx with
        | [] => []
        | Lframe pk pd pw pr :: c => empty_loop f (Node Nil pk pd pw pr) c
        | Rframe pl pk pd pw :: c => empty_loop f (Node pl pk pd pw Nil) c
        end
      | Nil, _ => empty_loop f r (Rframe l k d w :: ctx)
      | _, _ => empty_loop f l (Lframe k d w r :: ctx)
      end
    end
  end.

(** The pairs pr_tree_empty hands to [del_func] (when one is set). *)
Definition pr_tree_empty_dels (t : pr_tree K) : list (K * ptr) :=
  match root t with
  | Nil => []
  | r => empty_loop (2 * node_count r) r []
  end.

(** The descent of pr_tree_min: [for (; node->llink; node = node->llink);
    return node->key;]; [None] is NULL. *)
Fixpoint min_loop (n : pr_node K) : option K :=
  match n with
  | Nil => None
  | Node l k _ _ _ => match l with Nil => Some k | _ => min_loop l end
  end.

Fixpoint max_loop (n : pr_node K) : option K :=
  match n with
  | Nil => None
  | Node _ k _ _ r => match r with Nil => Some k | _ => max_loop r end
  end.

(** pr_tree_min(tree): [if ((node = tree->root) == NULL) return NULL;] *)
Definition pr_tree_min (t : pr_tree K) : option K :=
  match root t with Nil => None | r => min_loop r end.

Definition pr_tree_max (t : pr_tree K) : option K :=
  match root t with Nil => None | r => max_loop r end.

(** node_height(node): [l = node->llink ? node_height(node->llink) + 1 : 0;
    r = ...; return MAX(l, r);]; the code never calls it on NULL. The
    results are bounded by the node count, so [unsigned] does not wrap. *)
Fixpoint node_height (n : pr_node K) : nat :=
  match n with
  | Nil => 0
  | Node l _ _ _ r =>
    Nat.max (match l with Nil => 0 | _ => S (node_height l) end)
            (match r with Nil => 0 | _ => S (node_height r) end)
  end.

(** node_mheight(node): the same with [MIN]. *)
Fixpoint node_mheight (n : pr_node K) : nat :=
  match n with
  | Nil => 0
  | Node l _ _ _ r =>
    Nat.min (match l with Nil => 0 | _ => S (node_mheight l) end)
            (match r with Nil => 0 | _ => S (node_mheight r) end)
  end.

(** [unsigned] arithmetic: a 32-bit [unsigned] sum is taken modulo 2^32. *)
Definition u32 (x : N) : N := (x mod 4294967296)%N.

(** node_pathlen(node, level): [unsigned n = 0; if (node->llink) n += level +
    node_pathlen(node->llink, level + 1); if (node->rlink) n += level +
    node_pathlen(node->rlink, level + 1); return n;], every sum in
    [unsigned], so wrapping around modulo 2^32. *)
Fixpoint node_pathlen (n : pr_node K) (level : N) : N :=
  match n with
  | Nil => 0%N
  | Node l _ _ _ r =>
    let n0 := 0%N in
    let n1 := match l with
              | Nil => n0
              | _ => u32 (n0 + u32 (level + node_pathlen l (u32 (level + 1))))
              end in
    match r with
    | Nil => n1
    | _ => u32 (n1 + u32 (level + node_pathlen r (u32 (level + 1))))
    end
  end.

(** The same sum over [nat], without wrap-around: the total path length of
    the subtree with its root at depth [level] (each node's depth below the
    top-level call counted once, the root's not at all). *)
Fixpoint pathlen_nat (n : pr_node K) (level : nat) : nat :=
  match n with
  | Nil => 0
  | Node l _ _ _ r =>
    (match l with Nil => 0 | _ => level + pathlen_nat l (S level) end) +
    (match r with Nil => 0 | _ => level + pathlen_nat r (S level) end)
  end.

(** pr_tree_height, pr_tree_mheight, pr_tree_pathlen:
    [tree->root ? node_...(tree->root[, 1]) : 0] *)
Definition pr_tree_height (t : pr_tree K) : nat :=
  match root t with Nil => 0 | r => node_height r end.

Definition pr_tree_mheight (t : pr_tree K) : nat :=
  match root t with Nil => 0 | r => node_mheight r end.

Definition pr_tree_pathlen (t : pr_tree K) : N :=
  match root t with Nil => 0%N | r => node_pathlen r 1 end.

(** The loop of pr_itor_nextn: [while (count-- && itor->node) itor->node =
    node_next(itor->node);] *)
Fixpoint next_steps (cnt : nat) (o : option (pos K)) : option (pos K) :=
  match cnt, o with
  | S c, Some p => next_steps c (node_next p)
  | _, _ => o
  end.

Fixpoint prev_steps (cnt : nat) (o : option (pos K)) : option (pos K) :=
  match cnt, o with
  | S c, Some p => prev_steps c (node_prev p)
  | _, _ => o
  end.

(** pr_itor_nextn(itor, count): [if (count) { if (itor->node == NULL) {
    pr_itor_first(itor); count--; } while (...) ...; } RETVALID(itor);] *)
Definition pr_itor_nextn (it : pr_itor K) (cnt : nat) : Z * pr_itor K :=
  match cnt with
  | O => (RETVALID it, it)
  | S c =>
    let '(o, c') := match inode it with
                    | None => (inode (snd (pr_itor_first it)), c)
                    | Some p => (Some p, S c)
                    end in
    let it' := mk_itor (itree it) (next_steps c' o) in
    (RETVALID it', it')
  end.

Definition pr_itor_prevn (it : pr_itor K) (cnt : nat) : Z * pr_itor K :=
  match cnt with
  | O => (RETVALID it, it)
  | S c =>
    let '(o, c') := match inode it with
                    | None => (inode (snd (pr_itor_last it)), c)
                    | Some p => (Some p, S c)
                    end in
    let it' := mk_itor (itree it) (prev_steps c' o) in
    (RETVALID it', it')
  end.

(** The descent of pr_itor_search, keeping the parent chain. *)
Fixpoint search_pos (cmp : K -> K -> comparison) (key : K) (n : pr_node K)
    (ctx : list (frame K)) : option (pos K) :=
  match n with
  | Nil => None
  | Node l k d w r =>
    match cmp key k with
    | Lt => search_pos cmp key l (Lframe k d w r :: ctx)
    | Gt => search_pos cmp key r (Rframe l k d w :: ctx)
    | Eq => Some (n, ctx)
    end
  end.

(** pr_itor_search(itor, key): [itor->node = node; RETVALID(itor);] *)
Definition pr_itor_search (it : pr_itor K) (key : K) : Z * pr_itor K :=
  let it' := mk_itor (itree it)
               (search_pos (key_cmp (itree it)) key (root (itree it)) []) in
  (RETVALID it', it').

(** pr_itor_set_data(itor, datum, &old): [if (itor->node == NULL) return -1;
    if (old_datum) *old_datum = itor->node->datum; itor->node->datum = datum;
    return 0;]. The node is shared by the tree and the cursor: the tree the
    cursor points to is updated in place, and the cursor stays on the node.
    Returns the code, the value of [*old_datum] and the cursor. *)
Definition pr_itor_set_data (it : pr_itor K) (datum old_slot : ptr)
    : Z * ptr * pr_itor K :=
  match inode it with
  | Some (Node l k d w r, ctx) =>
    let n' := Node l k datum w r in
    (0%Z, d, mk_itor (mk_tree (plug ctx n') (count (itree it)) (key_cmp (itree it)))
                     (Some (n', ctx)))
  | _ => ((-1)%Z, old_slot, it)
  end.

End PrTreeMore.

(** Post-order sequence of (key, datum) pairs. *)
Fixpoint postorder {K : Type} (n : pr_node K) : list (K * ptr) :=
  match n with
  | Nil => []
  | Node l k d _ r => postorder l ++ postorder r ++ [(k, d)]
  end.

(** The pairs still to be freed by the loop of pr_tree_empty above a node,
    and the iterations that takes. *)
Fixpoint ctx_dels {K : Type} (ctx : list (frame K)) : list (K * ptr) :=
  match ctx with
  | [] => []
  | Lframe k d _ r :: c => postorder r ++ (k, d) :: ctx_dels c
  | Rframe l k d _ :: c => postorder l ++ (k, d) :: ctx_dels c
  end.

Fixpoint ctx_steps {K : Type} (ctx : list (frame K)) : nat :=
  match ctx with
  | [] => 0
  | Lframe _ _ _ r :: c => 2 * node_count r + 1 + ctx_steps c
  | Rframe l _ _ _ :: c => 2 * node_count l + 1 + ctx_steps c
  end.

(** * Proofs *)

Section Facts.

Context {K : Type}.

Lemma inorder_rot_left (n : pr_node K) : inorder (rot_left n) = inorder n.
Proof.
  destruct n as [|a bk bd bw [|c dk dd dw e]]; simpl; auto.
  rewrite <- app_assoc; reflexivity.
Qed.

Lemma inorder_rot_right (n : pr_node K) : inorder (rot_right n) = inorder n.
Proof.
  destruct n as [|[|a bk bd bw c] dk dd dw e]; simpl; auto.
  rewrite <- app_assoc; reflexivity.
Qed.

(** The shapes [fixup_fuel] can produce in one round. *)
Lemma fixup_fuel_S_cases (f : nat) (l : pr_node K) k d w r :
  let n := Node l k d w r in
  fixup_fuel (S f) n = n \/
  (exists b dk dd dw e, rot_left n = Node b dk dd dw e /\
     fixup_fuel (S f) n = Node (fixup_fuel f b) dk dd dw e) \/
  (exists b ck cd cw c dk dd dw e,
     rot_left (Node l k d w (rot_right r)) = Node b ck cd cw (Node c dk dd dw e) /\
     fixup_fuel (S f) n =
       Node (fixup_fuel f b) ck cd cw
            (Node c dk dd dw (match e with Nil => Nil | _ => fixup_fuel f e end))) \/
  (fixup_fuel (S f) n = rot_left (Node l k d w (rot_right r))) \/
  (exists a bk bd bw b, rot_right n = Node a bk bd bw b /\
     fixup_fuel (S f) n = Node a bk bd bw (fixup_fuel f b)) \/
  (exists a bk bd bw c ck cd cw b,
     rot_right (Node (rot_left l) k d w r) = Node (Node a bk bd bw c) ck cd cw b /\
     fixup_fuel (S f) n =
       Node (Node (match a with Nil => Nil | _ => fixup_fuel f a end) bk bd bw c)
            ck cd cw (fixup_fuel f b)) \/
  (fixup_fuel (S f) n = rot_right (Node (rot_left l) k d w r)).
Proof.
  intros n; subst n; cbn [fixup_fuel].
  destruct (WEIGHT l <? WEIGHT r).
  - destruct (WEIGHT l <? WEIGHT (rlink_of r)).
    + right; left.
      destruct (rot_left (Node l k d w r)) as [|b dk dd dw e] eqn:E.
      * destruct r; discriminate.
      * eauto 10.
    + destruct (WEIGHT l <? WEIGHT (llink_of r)); [|left; reflexivity].
      destruct (rot_left (Node l k d w (rot_right r)))
        as [|b ck cd cw [|c dk dd dw e]] eqn:E.
      * do 3 right; left; reflexivity.
      * do 3 right; left; reflexivity.
      * do 2 right; left; eauto 20.
  - destruct (WEIGHT r <? WEIGHT l); [|left; reflexivity].
    destruct (WEIGHT r <? WEIGHT (llink_of l)).
    + do 4 right; left.
      destruct (rot_right (Node l k d w r)) as [|a bk bd bw b] eqn:E.
      * destruct l; discriminate.
      * eauto 10.
    + destruct (WEIGHT r <? WEIGHT (rlink_of l)); [|left; reflexivity].
      destruct (rot_right (Node (rot_left l) k d w r))
        as [|[|a bk bd bw c] ck cd cw b] eqn:E.
      * do 6 right; reflexivity.
      * do 6 right; reflexivity.
      * do 5 right; left; eauto 20.
Qed.

Lemma inorder_fixup_fuel (fuel : nat) (n : pr_node K) :
  inorder (fixup_fuel fuel n) = inorder n.
Proof.
  revert n; induction fuel as [|fuel IH]; intros n.
  - destruct n; reflexivity.
  - destruct n as [|l k d w r]; [reflexivity|].
    destruct (fixup_fuel_S_cases fuel l k d w r) as
      [H|[(b&dk&dd&dw&e&E&H)|[(b&ck&cd&cw&c&dk&dd&dw&e&E&H)|[H|
       [(a&bk&bd&bw&b&E&H)|[(a&bk&bd&bw&c&ck&cd&cw&b&E&H)|H]]]]]];
      rewrite H; clear H; auto.
    + pose proof (inorder_rot_left (Node l k d w r)) as R; rewrite E in R.
      simpl in *; rewrite IH; exact R.
    + pose proof (inorder_rot_left (Node l k d w (rot_right r))) as R.
      rewrite E in R; simpl in *; rewrite inorder_rot_right in R.
      rewrite IH. destruct e; rewrite ?IH; exact R.
    + rewrite inorder_rot_left; simpl; rewrite inorder_rot_right; reflexivity.
    + pose proof (inorder_rot_right (Node l k d w r)) as R; rewrite E in R.
      simpl in *; rewrite IH; exact R.
    + pose proof (inorder_rot_right (Node (rot_left l) k d w r)) as R.
      rewrite E in R; simpl in *; rewrite inorder_rot_left in R.
      rewrite IH. destruct a; rewrite ?IH; exact R.
    + rewrite inorder_rot_right; simpl; rewrite inorder_rot_left; reflexivity.
Qed.

Lemma weights_rot_left (n : pr_node K) :
  weights_ok n -> weights_ok (rot_left n) /\ WEIGHT (rot_left n) = WEIGHT n.
Proof.
  destruct n as [|a bk bd bw [|c dk dd dw e]]; simpl; intuition lia.
Qed.

Lemma weights_rot_right (n : pr_node K) :
  weights_ok n -> weights_ok (rot_right n) /\ WEIGHT (rot_right n) = WEIGHT n.
Proof.
  destruct n as [|[|a bk bd bw c] dk dd dw e]; simpl; intuition lia.
Qed.

Lemma weights_fixup_fuel (fuel : nat) (n : pr_node K) :
  weights_ok n ->
  weights_ok (fixup_fuel fuel n) /\ WEIGHT (fixup_fuel fuel n) = WEIGHT n.
Proof.
  revert n; induction fuel as [|fuel IH]; intros n Hn.
  - destruct n; auto.
  - destruct n as [|l k d w r]; [auto|].
    assert (Hr : weights_ok (Node l k d w (rot_right r))).
    { simpl in *. destruct Hn as (Hw & Hl0 & Hr0).
      destruct (weights_rot_right r Hr0); intuition lia. }
    assert (Hl : weights_ok (Node (rot_left l) k d w r)).
    { simpl in *. destruct Hn as (Hw & Hl0 & Hr0).
      destruct (weights_rot_left l Hl0); intuition lia. }
    destruct (fixup_fuel_S_cases fuel l k d w r) as
      [H|[(b&dk&dd&dw&e&E&H)|[(b&ck&cd&cw&c&dk&dd&dw&e&E&H)|[H|
       [(a&bk&bd&bw&b&E&H)|[(a&bk&bd&bw&c&ck&cd&cw&b&E&H)|H]]]]]];
      rewrite H; clear H; auto.
    + destruct (weights_rot_left _ Hn) as [R1 R2]; rewrite E in R1, R2.
      simpl in *. destruct R1 as (Hdw & Hb & He).
      destruct (IH b Hb); intuition lia.
    + destruct (weights_rot_left _ Hr) as [R1 R2]; rewrite E in R1, R2.
      destruct (weights_rot_right r) as [_ R3]; [simpl in Hn; tauto|].
      simpl in *. destruct R1 as (Hcw & Hb & Hdw & Hc & He).
      destruct (IH b Hb).
      assert (weights_ok (match e with Nil => Nil | _ => fixup_fuel fuel e end) /\
              WEIGHT (match e with Nil => Nil | _ => fixup_fuel fuel e end) = WEIGHT e)
        as [He1 He2] by (destruct e; auto).
      intuition lia.
    + destruct (weights_rot_left _ Hr) as [R1 R2]; split; [exact R1|rewrite R2; reflexivity].
    + destruct (weights_rot_right _ Hn) as [R1 R2]; rewrite E in R1, R2.
      simpl in *. destruct R1 as (Hbw & Ha & Hb).
      destruct (IH b Hb); intuition lia.
    + destruct (weights_rot_right _ Hl) as [R1 R2]; rewrite E in R1, R2.
      simpl in *. destruct R1 as (Hcw & (Hbw & Ha & Hc) & Hb).
      destruct (IH b Hb).
      assert (weights_ok (match a with Nil => Nil | _ => fixup_fuel fuel a end) /\
              WEIGHT (match a with Nil => Nil | _ => fixup_fuel fuel a end) = WEIGHT a)
        as [Ha1 Ha2] by (destruct a; auto).
      intuition lia.
    + destruct (weights_rot_right _ Hl) as [R1 R2]; split; [exact R1|rewrite R2; reflexivity].
Qed.

Lemma weights_fixup (n : pr_node K) :
  weights_ok n -> weights_ok (fixup n) /\ WEIGHT (fixup n) = WEIGHT n.
Proof. apply weights_fixup_fuel. Qed.

Lemma inorder_fixup (n : pr_node K) : inorder (fixup n) = inorder n.
Proof. apply inorder_fixup_fuel. Qed.

Lemma weight_pos (n : pr_node K) : weights_ok n -> 1 <= WEIGHT n.
Proof. induction n; simpl; intuition lia. Qed.

Lemma weight_node (l r : pr_node K) k d w :
  weights_ok (Node l k d w r) -> 2 <= w.
Proof.
  simpl; intros (-> & Hl & Hr).
  pose proof (weight_pos l Hl); pose proof (weight_pos r Hr); lia.
Qed.

Lemma weights_node_insert (c : K -> K -> comparison) key datum ow al (n : pr_node K) :
  weights_ok n ->
  (forall n', node_insert c key datum ow al n = Ins_new n' ->
     weights_ok n' /\ WEIGHT n' = S (WEIGHT n)) /\
  (forall n', node_insert c key datum ow al n = Ins_replaced n' ->
     weights_ok n' /\ WEIGHT n' = WEIGHT n).
Proof.
  induction n as [|l IHl k d w r IHr]; intros Hn.
  - simpl; destruct al; split; intros n' H; inversion H; subst; simpl; auto.
  - simpl in Hn; destruct Hn as (Hw & Hl & Hr).
    destruct (IHl Hl) as [IHl1 IHl2]; destruct (IHr Hr) as [IHr1 IHr2].
    simpl; destruct (c key k).
    + destruct (ow =? 0)%Z; split; intros n' H; inversion H; subst; simpl; auto.
    + destruct (node_insert c key datum ow al l) as [|l'| |l'];
        split; intros n' H; inversion H; subst n'; clear H.
      * destruct (IHl2 l' eq_refl); simpl; intuition lia.
      * destruct (IHl1 l' eq_refl).
        destruct (weights_fixup (Node l' k d (S w) r)) as [F1 F2];
          [simpl; intuition lia|].
        rewrite F2; simpl; auto.
    + destruct (node_insert c key datum ow al r) as [|r'| |r'];
        split; intros n' H; inversion H; subst n'; clear H.
      * destruct (IHr2 r' eq_refl); simpl; intuition lia.
      * destruct (IHr1 r' eq_refl).
        destruct (weights_fixup (Node l k d (S w) r')) as [F1 F2];
          [simpl; intuition lia|].
        rewrite F2; simpl; auto.
Qed.

Lemma weights_node_probe (c : K -> K -> comparison) key datum al (n : pr_node K) :
  weights_ok n ->
  forall n', node_probe c key datum al n = Probe_new n' ->
     weights_ok n' /\ WEIGHT n' = S (WEIGHT n).
Proof.
  induction n as [|l IHl k d w r IHr]; intros Hn n' H.
  - simpl in H; destruct al; inversion H; subst; simpl; auto.
  - simpl in Hn; destruct Hn as (Hw & Hl & Hr).
    simpl in H; destruct (c key k); [discriminate| |].
    + destruct (node_probe c key datum al l) as [| |l'] eqn:E; inversion H; subst n'.
      destruct (IHl Hl l' eq_refl).
      destruct (weights_fixup (Node l' k d (S w) r)) as [F1 F2];
        [simpl; intuition lia|].
      rewrite F2; simpl; auto.
    + destruct (node_probe c key datum al r) as [| |r'] eqn:E; inversion H; subst n'.
      destruct (IHr Hr r' eq_refl).
      destruct (weights_fixup (Node l k d (S w) r')) as [F1 F2];
        [simpl; intuition lia|].
      rewrite F2; simpl; auto.
Qed.

Lemma weights_llink (n : pr_node K) : weights_ok n -> weights_ok (llink_of n).
Proof. destruct n; simpl; tauto. Qed.

Lemma weights_rlink (n : pr_node K) : weights_ok n -> weights_ok (rlink_of n).
Proof. destruct n; simpl; tauto. Qed.

Lemma weights_remove_loop (c : K -> K -> comparison) fuel key (n : pr_node K) :
  weights_ok n -> forall n', remove_loop c fuel key n = Some (Some n') ->
  weights_ok n' /\ S (WEIGHT n') = WEIGHT n.
Proof.
  revert n; induction fuel as [|fuel IH]; intros n Hn n' H.
  - destruct n; discriminate.
  - destruct n as [|l k d w r]; [discriminate|].
    pose proof Hn as Hn0.
    simpl in Hn; destruct Hn as (Hw & Hl & Hr).
    cbn [remove_loop] in H; destruct (c key k).
    + destruct l as [|ll lk ld lw lr].
      * inversion H; subst; simpl; auto.
      * destruct r as [|rl rk rd rw rr].
        { inversion H; subst n'; split; [exact Hl|simpl in *; lia]. }
        cbv beta iota in H.
        set (l := Node ll lk ld lw lr) in *; set (r := Node rl rk rd rw rr) in *.
        destruct (WEIGHT r <? WEIGHT l).
        -- set (l1 := if WEIGHT (llink_of l) <? WEIGHT (rlink_of l)
                      then rot_left l else l) in H.
           assert (Hl1 : weights_ok l1 /\ WEIGHT l1 = WEIGHT l)
             by (unfold l1; destruct (_ <? _); auto; apply weights_rot_left; auto).
           destruct Hl1 as [Hl1 Wl1].
           destruct (weights_rot_right (Node l1 k d w r)) as [R1 R2];
             [split; [rewrite Wl1; exact Hw|split; assumption]|].
           destruct (rot_right (Node l1 k d w r)) as [|a ok od ow x];
             [discriminate|].
           simpl in R1, R2; destruct R1 as (How & Ha & Hx).
           destruct (remove_loop c fuel key x) as [[x'|]|] eqn:E;
             inversion H; subst; clear H.
           pose proof (weight_pos _ Ha); pose proof (weight_pos _ Hx).
           destruct (IH x Hx x' E); unfold l, r in *; simpl in *; intuition lia.
        -- set (r1 := if WEIGHT (rlink_of r) <? WEIGHT (llink_of r)
                      then rot_right r else r) in H.
           assert (Hr1 : weights_ok r1 /\ WEIGHT r1 = WEIGHT r)
             by (unfold r1; destruct (_ <? _); auto; apply weights_rot_right; auto).
           destruct Hr1 as [Hr1 Wr1].
           destruct (weights_rot_left (Node l k d w r1)) as [R1 R2];
             [split; [rewrite Wr1; exact Hw|split; assumption]|].
           destruct (rot_left (Node l k d w r1)) as [|x ok od ow b];
             [cbn in H; discriminate|].
           simpl in R1, R2; destruct R1 as (How & Hx & Hb).
           destruct (remove_loop c fuel key x) as [[x'|]|] eqn:E;
             inversion H; subst; clear H.
           pose proof (weight_pos _ Hb); pose proof (weight_pos _ Hx).
           destruct (IH x Hx x' E); unfold l, r in *; simpl in *; intuition lia.
    + destruct (remove_loop c fuel key l) as [[l'|]|] eqn:E;
        inversion H; subst; clear H.
      destruct (IH l Hl l' E); simpl; intuition lia.
    + destruct (remove_loop c fuel key r) as [[r'|]|] eqn:E;
        inversion H; subst; clear H.
      destruct (IH r Hr r' E); simpl; intuition lia.
Qed.

Lemma node_count_rot_left (n : pr_node K) : node_count (rot_left n) = node_count n.
Proof. destruct n as [|a bk bd bw [|c0 dk dd dw e]]; simpl; lia. Qed.

Lemma node_count_rot_right (n : pr_node K) : node_count (rot_right n) = node_count n.
Proof. destruct n as [|[|a bk bd bw c0] dk dd dw e]; simpl; lia. Qed.

(** One round of the two-children rotation loop of pr_tree_remove, left side
    heavier: the target node [k] moves down to the right and its subtree
    shrinks. *)
Lemma remove_step_left (l r : pr_node K) k d w :
  l <> Nil ->
  exists a ok od ow x1 xw x2,
    rot_right (Node (if WEIGHT (llink_of l) <? WEIGHT (rlink_of l)
                     then rot_left l else l) k d w r)
      = Node a ok od ow (Node x1 k d xw x2) /\
    inorder (Node a ok od ow (Node x1 k d xw x2)) = inorder (Node l k d w r) /\
    node_count (Node x1 k d xw x2) < node_count (Node l k d w r).
Proof.
  intros Hl.
  set (l1 := if WEIGHT (llink_of l) <? WEIGHT (rlink_of l) then rot_left l else l).
  assert (I1 : inorder l1 = inorder l /\ node_count l1 = node_count l /\ l1 <> Nil).
  { unfold l1; destruct (_ <? _); [|auto].
    rewrite inorder_rot_left, node_count_rot_left; split; auto; split; auto.
    destruct l as [|? ? ? ? [|]]; simpl; congruence. }
  destruct I1 as (I1 & N1 & H1).
  destruct l1 as [|a ok od ow c0]; [congruence|].
  exists a, ok, od, (WEIGHT a + (WEIGHT c0 + WEIGHT r)), c0,
    (WEIGHT c0 + WEIGHT r), r.
  simpl in *; rewrite <- I1, <- N1; split; [reflexivity|split].
  - rewrite <- app_assoc; reflexivity.
  - lia.
Qed.

(** The same round, right side at least as heavy. *)
Lemma remove_step_right (l r : pr_node K) k d w :
  r <> Nil ->
  exists x1 xw x2 ok od ow b,
    rot_left (Node l k d w (if WEIGHT (rlink_of r) <? WEIGHT (llink_of r)
                            then rot_right r else r))
      = Node (Node x1 k d xw x2) ok od ow b /\
    inorder (Node (Node x1 k d xw x2) ok od ow b) = inorder (Node l k d w r) /\
    node_count (Node x1 k d xw x2) < node_count (Node l k d w r).
Proof.
  intros Hr.
  set (r1 := if WEIGHT (rlink_of r) <? WEIGHT (llink_of r) then rot_right r else r).
  assert (I1 : inorder r1 = inorder r /\ node_count r1 = node_count r /\ r1 <> Nil).
  { unfold r1; destruct (_ <? _); [|auto].
    rewrite inorder_rot_right, node_count_rot_right; split; auto; split; auto.
    destruct r as [|[|] ? ? ? ?]; simpl; congruence. }
  destruct I1 as (I1 & N1 & H1).
  destruct r1 as [|c0 ok od ow b]; [congruence|].
  exists l, (WEIGHT l + WEIGHT c0), c0, ok, od,
    (WEIGHT l + WEIGHT c0 + WEIGHT b), b.
  simpl in *; rewrite <- I1, <- N1; split; [reflexivity|split].
  - rewrite <- app_assoc; reflexivity.
  - lia.
Qed.

(** The fuel [node_count] of [pr_tree_remove] is never exhausted. *)
Lemma remove_loop_fuel (c : K -> K -> comparison) fuel key (n : pr_node K) :
  node_count n <= fuel -> remove_loop c fuel key n <> None.
Proof.
  revert n; induction fuel as [|fuel IH]; intros n Hf.
  - destruct n; simpl in *; [discriminate|lia].
  - destruct n as [|l k d w r]; [discriminate|].
    cbn [remove_loop]; simpl in Hf.
    destruct (c key k).
    + destruct l as [|ll lk ld lw lr]; [discriminate|].
      destruct r as [|rl rk rd rw rr]; [discriminate|].
      cbv beta iota zeta.
      destruct (WEIGHT (Node rl rk rd rw rr) <? WEIGHT (Node ll lk ld lw lr)).
      * destruct (remove_step_left (Node ll lk ld lw lr) (Node rl rk rd rw rr) k d w)
          as (a & ok & od & ow & x1 & xw & x2 & E & _ & Hc); [discriminate|].
        rewrite E.
        pose proof (IH (Node x1 k d xw x2)) as IH'.
        destruct (remove_loop c fuel key (Node x1 k d xw x2)) as [[]|];
          [discriminate|discriminate|].
        exfalso; apply IH'; [simpl in *; lia|reflexivity].
      * destruct (remove_step_right (Node ll lk ld lw lr) (Node rl rk rd rw rr) k d w)
          as (x1 & xw & x2 & ok & od & ow & b & E & _ & Hc); [discriminate|].
        rewrite E.
        pose proof (IH (Node x1 k d xw x2)) as IH'.
        destruct (remove_loop c fuel key (Node x1 k d xw x2)) as [[]|];
          [discriminate|discriminate|].
        exfalso; apply IH'; [simpl in *; lia|reflexivity].
    + pose proof (IH l) as IH'.
      destruct (remove_loop c fuel key l) as [[]|]; try discriminate.
      exfalso; apply IH'; [lia|reflexivity].
    + pose proof (IH r) as IH'.
      destruct (remove_loop c fuel key r) as [[]|]; try discriminate.
      exfalso; apply IH'; [lia|reflexivity].
Qed.

Lemma reachable_weights (t : pr_tree K) : reachable t -> weights_ok (root t).
Proof.
  induction 1 as [c|t key datum ow al _ IH|t key slot al _ IH|t key _ IH|t _ IH].
  - simpl; auto.
  - unfold pr_tree_insert.
    destruct (weights_node_insert (key_cmp t) key datum ow al (root t) IH) as [H1 H2].
    destruct (node_insert _ _ _ _ _ _) eqn:E; simpl; auto.
    + apply (H2 n eq_refl).
    + destruct (root t); simpl; apply (H1 n eq_refl).
  - unfold pr_tree_probe.
    pose proof (weights_node_probe (key_cmp t) key slot al (root t) IH) as H1.
    destruct (node_probe _ _ _ _ _) eqn:E; simpl; auto.
    destruct (root t); simpl; apply (H1 n eq_refl).
  - unfold pr_tree_remove.
    destruct (remove_loop _ _ _ _) as [[n|]|] eqn:E; simpl; auto.
    apply (weights_remove_loop _ _ _ _ IH n E).
  - simpl; auto.
Qed.

End Facts.

Section Ordered.

Context {K : Type}.
Variable c : K -> K -> comparison.
Hypothesis Hc : strict_total c.

Local Abbreviation lt := (fun a b => c a b = Lt).
Local Abbreviation sorted := (sorted c).

Lemma c_eq a b : c a b = Eq <-> a = b.
Proof. apply Hc. Qed.

Lemma c_sym a b : c b a = CompOpp (c a b).
Proof. apply Hc. Qed.

Lemma c_trans a b x : c a b = Lt -> c b x = Lt -> c a x = Lt.
Proof. apply Hc. Qed.

Lemma c_refl a : c a a = Eq.
Proof. apply c_eq; reflexivity. Qed.

Lemma c_gt a b : c a b = Gt -> c b a = Lt.
Proof. intros H; rewrite c_sym, H; reflexivity. Qed.

Lemma c_lt a b : c a b = Lt -> c b a = Gt.
Proof. intros H; rewrite c_sym, H; reflexivity. Qed.

Lemma SSorted_app (xs ys : list K) :
  StronglySorted lt (xs ++ ys) <->
  StronglySorted lt xs /\ StronglySorted lt ys /\
  (forall x y, In x xs -> In y ys -> lt x y).
Proof.
  induction xs as [|a xs IH]; simpl.
  - split; [intros H; split; [constructor|split; [exact H|intros x y []]]|tauto].
  - split.
    + intros H; inversion H as [|? ? H1 H2]; subst.
      apply IH in H1; destruct H1 as (S1 & S2 & S3).
      rewrite Forall_forall in H2.
      repeat split; auto.
      * constructor; auto; rewrite Forall_forall; intros; apply H2, in_or_app; auto.
      * intros x y [<-|Hx] Hy; auto. apply H2, in_or_app; auto.
    + intros (S1 & S2 & S3). inversion S1 as [|? ? H1 H2]; subst.
      constructor.
      * apply IH; repeat split; auto.
      * rewrite Forall_forall in *; intros y Hy; apply in_app_or in Hy as [Hy|Hy]; auto.
Qed.

Lemma keys_node (l r : pr_node K) k d w :
  keys (Node l k d w r) = keys l ++ k :: keys r.
Proof. unfold keys; simpl; rewrite map_app; reflexivity. Qed.

Lemma sorted_node (l r : pr_node K) k d w :
  sorted (Node l k d w r) <->
  sorted l /\ sorted r /\ Forall (fun x => lt x k) (keys l) /\
  Forall (fun y => lt k y) (keys r).
Proof.
  unfold sorted, ascending; rewrite keys_node, SSorted_app.
  split.
  - intros (S1 & S2 & S3); inversion S2 as [|? ? H1 H2]; subst.
    split; [exact S1|split; [exact H1|split; [|exact H2]]].
    rewrite Forall_forall; intros x Hx; apply S3; simpl; auto.
  - intros (S1 & S2 & S3 & S4); rewrite Forall_forall in S3, S4.
    split; [exact S1|split].
    + constructor; auto; rewrite Forall_forall; auto.
    + intros x y Hx [<-|Hy]; [apply S3; exact Hx|].
      eapply c_trans; [apply S3; exact Hx|apply S4; exact Hy].
Qed.

Lemma lookup_app key (xs ys : list (K * ptr)) :
  (forall e, In e xs -> c key (fst e) <> Eq) ->
  lookup c key (xs ++ ys) = lookup c key ys.
Proof.
  intros H; unfold lookup; induction xs as [|e xs IH]; simpl; auto.
  destruct (c key (fst e)) eqn:E.
  - exfalso; apply (H e); simpl; auto.
  - apply IH; intros; apply H; simpl; auto.
  - apply IH; intros; apply H; simpl; auto.
Qed.

Lemma lookup_app_r key (xs ys : list (K * ptr)) :
  (forall e, In e ys -> c key (fst e) <> Eq) ->
  lookup c key (xs ++ ys) = lookup c key xs.
Proof.
  intros H; unfold lookup; induction xs as [|e xs IH]; simpl.
  - destruct (find _ ys) as [e|] eqn:F; auto.
    apply find_some in F as [F1 F2].
    destruct (c key (fst e)) eqn:G; try discriminate.
    exfalso; apply (H e F1 G).
  - destruct (c key (fst e)); auto.
Qed.

Lemma lookup_absent key (xs : list (K * ptr)) :
  (forall e, In e xs -> c key (fst e) <> Eq) -> lookup c key xs = NULL.
Proof.
  intros H; rewrite <- (app_nil_r xs), lookup_app; auto.
Qed.

Lemma lookup_hit key k d (ys : list (K * ptr)) :
  c key k = Eq -> lookup c key ((k, d) :: ys) = d.
Proof. intros H; unfold lookup; simpl; rewrite H; reflexivity. Qed.

Lemma in_keys (n : pr_node K) e : In e (inorder n) -> In (fst e) (keys n).
Proof. intros H; unfold keys; apply in_map; auto. Qed.

Lemma search_lookup key (n : pr_node K) :
  sorted n -> node_search c key n = lookup c key (inorder n).
Proof.
  induction n as [|l IHl k d w r IHr]; intros Hs.
  - reflexivity.
  - apply sorted_node in Hs as (Sl & Sr & Fl & Fr).
    rewrite Forall_forall in Fl, Fr.
    simpl; destruct (c key k) eqn:E.
    + apply c_eq in E; subst key.
      rewrite lookup_app, lookup_hit; auto using c_refl.
      intros e He; apply in_keys, Fl in He; cbv beta in He.
      rewrite c_sym, He; discriminate.
    + rewrite IHl by auto. rewrite lookup_app_r; auto.
      intros e [<-|He]; simpl; [rewrite E; discriminate|].
      apply in_keys, Fr in He.
      rewrite (c_trans _ _ _ E He); discriminate.
    + rewrite lookup_app; [unfold lookup; simpl; rewrite E; apply IHr; auto|].
      intros e He; apply in_keys, Fl in He.
      pose proof (c_trans _ _ _ He (c_gt _ _ E)) as G.
      apply c_lt in G; rewrite G; discriminate.
Qed.

Lemma sorted_mid (xs ys : list (K * ptr)) key d :
  StronglySorted lt (map fst (xs ++ ys)) ->
  Forall (fun e => lt (fst e) key) xs -> Forall (fun e => lt key (fst e)) ys ->
  StronglySorted lt (map fst (xs ++ (key, d) :: ys)).
Proof.
  rewrite !map_app; simpl; rewrite SSorted_app; intros (S1 & S2 & S3) Fx Fy.
  rewrite Forall_forall in Fx, Fy.
  apply SSorted_app; repeat split; auto.
  - constructor; auto. rewrite Forall_forall; intros y Hy.
    apply in_map_iff in Hy as (e & <- & He); auto.
  - intros x y Hx [<-|Hy]; apply in_map_iff in Hx as (e & <- & He); auto.
    apply in_map_iff in Hy as (e' & <- & He').
    eapply c_trans; [apply Fx; exact He|apply Fy; exact He'].
Qed.

Lemma sorted_del (xs ys : list (K * ptr)) e :
  StronglySorted lt (map fst (xs ++ e :: ys)) -> StronglySorted lt (map fst (xs ++ ys)).
Proof.
  rewrite !map_app; simpl; rewrite !SSorted_app; intros (S1 & S2 & S3).
  inversion S2; subst; repeat split; auto.
  intros x y Hx Hy; apply S3; simpl; auto.
Qed.

Lemma mid_absent (xs ys : list (K * ptr)) e key :
  StronglySorted lt (map fst (xs ++ e :: ys)) -> c key (fst e) = Eq ->
  forall e', In e' (xs ++ ys) -> c key (fst e') <> Eq.
Proof.
  intros Hs Heq; apply c_eq in Heq; subst key.
  rewrite map_app in Hs; simpl in Hs; apply SSorted_app in Hs as (S1 & S2 & S3).
  inversion S2 as [|? ? _ F]; subst; rewrite Forall_forall in F.
  intros e' He' G; apply c_eq in G.
  apply in_app_or in He' as [He'|He'].
  - assert (L : lt (fst e') (fst e)) by (apply S3; [apply in_map; auto|simpl; auto]).
    cbv beta in L; rewrite <- G, c_refl in L; discriminate.
  - assert (L : lt (fst e) (fst e')) by (apply F, in_map; auto).
    cbv beta in L; rewrite <- G, c_refl in L; discriminate.
Qed.

Lemma insert_new_inorder key datum ow al (n n' : pr_node K) :
  sorted n -> node_insert c key datum ow al n = Ins_new n' ->
  exists xs ys, inorder n = xs ++ ys /\ inorder n' = xs ++ (key, datum) :: ys /\
    Forall (fun e => lt (fst e) key) xs /\ Forall (fun e => lt key (fst e)) ys.
Proof.
  revert n'; induction n as [|l IHl k d w r IHr]; intros n' Hs H.
  - simpl in H; destruct al; inversion H; subst.
    exists [], []; simpl; auto.
  - pose proof Hs as Hs0.
    apply sorted_node in Hs as (Sl & Sr & Fl & Fr); rewrite Forall_forall in Fl, Fr.
    simpl in H; destruct (c key k) eqn:E.
    + destruct (ow =? 0)%Z; discriminate.
    + destruct (node_insert c key datum ow al l) as [|l'| |l'] eqn:El; try discriminate.
      inversion H; subst n'; clear H.
      destruct (IHl l' Sl eq_refl) as (xs & ys & H1 & H2 & H3 & H4).
      exists xs, (ys ++ (k, d) :: inorder r).
      rewrite inorder_fixup; simpl; rewrite H1, H2, <- !app_assoc; simpl.
      repeat split; auto.
      rewrite Forall_app; split; auto.
      constructor; [exact E|].
      rewrite Forall_forall; intros e He; apply in_keys, Fr in He.
      eapply c_trans; eauto.
    + destruct (node_insert c key datum ow al r) as [|r'| |r'] eqn:Er; try discriminate.
      inversion H; subst n'; clear H.
      destruct (IHr r' Sr eq_refl) as (xs & ys & H1 & H2 & H3 & H4).
      exists (inorder l ++ (k, d) :: xs), ys.
      rewrite inorder_fixup; simpl; rewrite H1, H2, <- !app_assoc; simpl.
      repeat split; auto.
      rewrite Forall_app; split; [|constructor; [apply c_gt; exact E|exact H3]].
      rewrite Forall_forall; intros e He; apply in_keys, Fl in He.
      eapply c_trans; [exact He|apply c_gt; exact E].
Qed.

Lemma insert_replaced_inorder key datum ow al (n n' : pr_node K) :
  node_insert c key datum ow al n = Ins_replaced n' ->
  exists xs e ys, inorder n = xs ++ e :: ys /\ inorder n' = xs ++ (key, datum) :: ys /\
    c key (fst e) = Eq.
Proof.
  revert n'; induction n as [|l IHl k d w r IHr]; intros n' H.
  - simpl in H; destruct al; discriminate.
  - simpl in H; destruct (c key k) eqn:E.
    + destruct (ow =? 0)%Z; inversion H; subst n'.
      exists (inorder l), (k, d), (inorder r); simpl; auto.
    + destruct (node_insert c key datum ow al l) as [|l'| |l'] eqn:El; try discriminate.
      inversion H; subst n'; clear H.
      destruct (IHl l' eq_refl) as (xs & e & ys & H1 & H2 & H3).
      exists xs, e, (ys ++ (k, d) :: inorder r); simpl; rewrite H1, H2, <- !app_assoc; auto.
    + destruct (node_insert c key datum ow al r) as [|r'| |r'] eqn:Er; try discriminate.
      inversion H; subst n'; clear H.
      destruct (IHr r' eq_refl) as (xs & e & ys & H1 & H2 & H3).
      exists (inorder l ++ (k, d) :: xs), e, ys; simpl; rewrite H1, H2, <- !app_assoc; auto.
Qed.

Lemma insert_absent key datum ow al (n : pr_node K) :
  (forall e, In e (inorder n) -> c key (fst e) <> Eq) ->
  (al = true -> exists n', node_insert c key datum ow al n = Ins_new n') /\
  (al = false -> node_insert c key datum ow al n = Ins_nomem).
Proof.
  induction n as [|l IHl k d w r IHr]; intros Ha.
  - simpl; split; intros ->; eauto.
  - assert (Hl : forall e, In e (inorder l) -> c key (fst e) <> Eq)
      by (intros; apply Ha; simpl; apply in_or_app; auto).
    assert (Hr : forall e, In e (inorder r) -> c key (fst e) <> Eq)
      by (intros; apply Ha; simpl; apply in_or_app; simpl; auto).
    assert (Hk : c key k <> Eq)
      by (apply (Ha (k, d)); simpl; apply in_or_app; simpl; auto).
    destruct (IHl Hl) as [L1 L2]; destruct (IHr Hr) as [R1 R2].
    simpl; destruct (c key k); [congruence| |]; split; intros Hal.
    + destruct (L1 Hal) as [l' ->]; eauto.
    + rewrite (L2 Hal); reflexivity.
    + destruct (R1 Hal) as [r' ->]; eauto.
    + rewrite (R2 Hal); reflexivity.
Qed.

Lemma insert_present key datum ow al (n : pr_node K) :
  sorted n -> In key (keys n) ->
  ((ow = 0)%Z -> node_insert c key datum ow al n = Ins_dup) /\
  ((ow <> 0)%Z -> exists n', node_insert c key datum ow al n = Ins_replaced n').
Proof.
  induction n as [|l IHl k d w r IHr]; intros Hs Hin.
  - destruct Hin.
  - apply sorted_node in Hs as (Sl & Sr & Fl & Fr); rewrite Forall_forall in Fl, Fr.
    rewrite keys_node in Hin; apply in_app_or in Hin.
    simpl; destruct (c key k) eqn:E.
    + split; intros Ho.
      * rewrite Ho; reflexivity.
      * apply Z.eqb_neq in Ho; rewrite Ho; eauto.
    + destruct Hin as [Hin|[<-|Hin]].
      * destruct (IHl Sl Hin) as [H1 H2]; split; intros Ho.
        -- rewrite (H1 Ho); reflexivity.
        -- destruct (H2 Ho) as [l' ->]; eauto.
      * rewrite c_refl in E; discriminate.
      * apply Fr in Hin. pose proof (c_trans _ _ _ E Hin) as G.
        rewrite c_refl in G; discriminate.
    + destruct Hin as [Hin|[<-|Hin]].
      * apply Fl in Hin. pose proof (c_trans _ _ _ Hin (c_gt _ _ E)) as G.
        rewrite c_refl in G; discriminate.
      * rewrite c_refl in E; discriminate.
      * destruct (IHr Sr Hin) as [H1 H2]; split; intros Ho.
        -- rewrite (H1 Ho); reflexivity.
        -- destruct (H2 Ho) as [r' ->]; eauto.
Qed.

Lemma remove_some_inorder fuel key (n n' : pr_node K) :
  remove_loop c fuel key n = Some (Some n') ->
  exists xs e ys, inorder n = xs ++ e :: ys /\ inorder n' = xs ++ ys /\
    c key (fst e) = Eq.
Proof.
  revert n n'; induction fuel as [|fuel IH]; intros n n' H.
  - destruct n; discriminate.
  - destruct n as [|l k d w r]; [discriminate|].
    cbn [remove_loop] in H; destruct (c key k) eqn:Ek.
    + destruct l as [|ll lk ld lw lr].
      { inversion H; subst n'. exists [], (k, d), (inorder r); auto. }
      destruct r as [|rl rk rd rw rr].
      { inversion H; subst n'. exists (inorder (Node ll lk ld lw lr)), (k, d), [].
        simpl; rewrite app_nil_r; auto. }
      cbv beta iota zeta in H.
      destruct (WEIGHT (Node rl rk rd rw rr) <? WEIGHT (Node ll lk ld lw lr)).
      * destruct (remove_step_left (Node ll lk ld lw lr) (Node rl rk rd rw rr) k d w)
          as (a & ok & od & ow & x1 & xw & x2 & E & I & _); [discriminate|].
        rewrite E in H.
        destruct (remove_loop c fuel key (Node x1 k d xw x2)) as [[x'|]|] eqn:R;
          inversion H; subst n'; clear H.
        destruct (IH _ _ R) as (xs & e & ys & H1 & H2 & H3).
        exists (inorder a ++ (ok, od) :: xs), e, ys.
        rewrite <- I; simpl in *; rewrite H1, H2, <- !app_assoc; auto.
      * destruct (remove_step_right (Node ll lk ld lw lr) (Node rl rk rd rw rr) k d w)
          as (x1 & xw & x2 & ok & od & ow & b & E & I & _); [discriminate|].
        rewrite E in H.
        destruct (remove_loop c fuel key (Node x1 k d xw x2)) as [[x'|]|] eqn:R;
          inversion H; subst n'; clear H.
        destruct (IH _ _ R) as (xs & e & ys & H1 & H2 & H3).
        exists xs, e, (ys ++ (ok, od) :: inorder b).
        rewrite <- I; simpl in *; rewrite H1, H2, <- !app_assoc; auto.
    + destruct (remove_loop c fuel key l) as [[l'|]|] eqn:R;
        inversion H; subst n'; clear H.
      destruct (IH _ _ R) as (xs & e & ys & H1 & H2 & H3).
      exists xs, e, (ys ++ (k, d) :: inorder r); simpl; rewrite H1, H2, <- !app_assoc; auto.
    + destruct (remove_loop c fuel key r) as [[r'|]|] eqn:R;
        inversion H; subst n'; clear H.
      destruct (IH _ _ R) as (xs & e & ys & H1 & H2 & H3).
      exists (inorder l ++ (k, d) :: xs), e, ys; simpl; rewrite H1, H2, <- !app_assoc; auto.
Qed.

Lemma remove_absent fuel key (n : pr_node K) :
  (forall e, In e (inorder n) -> c key (fst e) <> Eq) ->
  remove_loop c fuel key n = Some None \/ remove_loop c fuel key n = None.
Proof.
  revert n; induction fuel as [|fuel IH]; intros n Ha.
  - destruct n; auto.
  - destruct n as [|l k d w r]; [auto|].
    assert (Hl : forall e, In e (inorder l) -> c key (fst e) <> Eq)
      by (intros; apply Ha; simpl; apply in_or_app; auto).
    assert (Hr : forall e, In e (inorder r) -> c key (fst e) <> Eq)
      by (intros; apply Ha; simpl; apply in_or_app; simpl; auto).
    assert (Hk : c key k <> Eq)
      by (apply (Ha (k, d)); simpl; apply in_or_app; simpl; auto).
    cbn [remove_loop]; destruct (c key k); [congruence| |].
    + destruct (IH l Hl) as [-> | ->]; auto.
    + destruct (IH r Hr) as [-> | ->]; auto.
Qed.

Lemma sorted_inorder_eq (n m : pr_node K) :
  inorder n = inorder m -> sorted n -> sorted m.
Proof. unfold sorted, ascending, keys; intros ->; auto. Qed.

Lemma remove_present fuel key (n : pr_node K) :
  sorted n -> In key (keys n) -> remove_loop c fuel key n <> Some None.
Proof.
  revert n; induction fuel as [|fuel IH]; intros n Hs Hin.
  - destruct n; [destruct Hin|discriminate].
  - destruct n as [|l k d w r]; [destruct Hin|].
    pose proof Hs as Hs0.
    apply sorted_node in Hs as (Sl & Sr & Fl & Fr); rewrite Forall_forall in Fl, Fr.
    rewrite keys_node in Hin; apply in_app_or in Hin.
    cbn [remove_loop]; destruct (c key k) eqn:E.
    + apply c_eq in E.
      destruct l as [|ll lk ld lw lr]; [discriminate|].
      destruct r as [|rl rk rd rw rr]; [discriminate|].
      cbv beta iota zeta.
      destruct (WEIGHT (Node rl rk rd rw rr) <? WEIGHT (Node ll lk ld lw lr)).
      * destruct (remove_step_left (Node ll lk ld lw lr) (Node rl rk rd rw rr) k d w)
          as (a & ok & od & ow & x1 & xw & x2 & E' & I & _); [discriminate|].
        rewrite E'.
        assert (Sx : sorted (Node x1 k d xw x2)).
        { apply (sorted_inorder_eq _ _ (eq_sym I)) in Hs0.
          apply sorted_node in Hs0; tauto. }
        pose proof (IH _ Sx) as IH'.
        destruct (remove_loop c fuel key (Node x1 k d xw x2)) as [[]|]; try discriminate.
        apply IH'; rewrite keys_node; apply in_or_app; right; left; exact (eq_sym E).
      * destruct (remove_step_right (Node ll lk ld lw lr) (Node rl rk rd rw rr) k d w)
          as (x1 & xw & x2 & ok & od & ow & b & E' & I & _); [discriminate|].
        rewrite E'.
        assert (Sx : sorted (Node x1 k d xw x2)).
        { apply (sorted_inorder_eq _ _ (eq_sym I)) in Hs0.
          apply sorted_node in Hs0; tauto. }
        pose proof (IH _ Sx) as IH'.
        destruct (remove_loop c fuel key (Node x1 k d xw x2)) as [[]|]; try discriminate.
        apply IH'; rewrite keys_node; apply in_or_app; right; left; exact (eq_sym E).
    + destruct Hin as [Hin|[<-|Hin]].
      * pose proof (IH l Sl Hin) as IH'.
        destruct (remove_loop c fuel key l) as [[]|]; congruence.
      * rewrite c_refl in E; discriminate.
      * apply Fr in Hin. pose proof (c_trans _ _ _ E Hin) as G.
        rewrite c_refl in G; discriminate.
    + destruct Hin as [Hin|[<-|Hin]].
      * apply Fl in Hin. pose proof (c_trans _ _ _ Hin (c_gt _ _ E)) as G.
        rewrite c_refl in G; discriminate.
      * rewrite c_refl in E; discriminate.
      * pose proof (IH r Sr Hin) as IH'.
        destruct (remove_loop c fuel key r) as [[]|]; congruence.
Qed.

Lemma probe_new_inorder key datum al (n n' : pr_node K) :
  sorted n -> node_probe c key datum al n = Probe_new n' ->
  exists xs ys, inorder n = xs ++ ys /\ inorder n' = xs ++ (key, datum) :: ys /\
    Forall (fun e => lt (fst e) key) xs /\ Forall (fun e => lt key (fst e)) ys.
Proof.
  revert n'; induction n as [|l IHl k d w r IHr]; intros n' Hs H.
  - simpl in H; destruct al; inversion H; subst.
    exists [], []; simpl; auto.
  - apply sorted_node in Hs as (Sl & Sr & Fl & Fr); rewrite Forall_forall in Fl, Fr.
    simpl in H; destruct (c key k) eqn:E; [discriminate| |].
    + destruct (node_probe c key datum al l) as [| |l'] eqn:El; try discriminate.
      inversion H; subst n'; clear H.
      destruct (IHl l' Sl eq_refl) as (xs & ys & H1 & H2 & H3 & H4).
      exists xs, (ys ++ (k, d) :: inorder r).
      rewrite inorder_fixup; simpl; rewrite H1, H2, <- !app_assoc; simpl.
      repeat split; auto.
      rewrite Forall_app; split; auto.
      constructor; [exact E|].
      rewrite Forall_forall; intros e He; apply in_keys, Fr in He.
      eapply c_trans; eauto.
    + destruct (node_probe c key datum al r) as [| |r'] eqn:Er; try discriminate.
      inversion H; subst n'; clear H.
      destruct (IHr r' Sr eq_refl) as (xs & ys & H1 & H2 & H3 & H4).
      exists (inorder l ++ (k, d) :: xs), ys.
      rewrite inorder_fixup; simpl; rewrite H1, H2, <- !app_assoc; simpl.
      repeat split; auto.
      rewrite Forall_app; split; [|constructor; [apply c_gt; exact E|exact H3]].
      rewrite Forall_forall; intros e He; apply in_keys, Fl in He.
      eapply c_trans; [exact He|apply c_gt; exact E].
Qed.

Lemma probe_absent key datum al (n : pr_node K) :
  (forall e, In e (inorder n) -> c key (fst e) <> Eq) ->
  (al = true -> exists n', node_probe c key datum al n = Probe_new n') /\
  (al = false -> node_probe c key datum al n = Probe_nomem).
Proof.
  induction n as [|l IHl k d w r IHr]; intros Ha.
  - simpl; split; intros ->; eauto.
  - assert (Hl : forall e, In e (inorder l) -> c key (fst e) <> Eq)
      by (intros; apply Ha; simpl; apply in_or_app; auto).
    assert (Hr : forall e, In e (inorder r) -> c key (fst e) <> Eq)
      by (intros; apply Ha; simpl; apply in_or_app; simpl; auto).
    assert (Hk : c key k <> Eq)
      by (apply (Ha (k, d)); simpl; apply in_or_app; simpl; auto).
    destruct (IHl Hl) as [L1 L2]; destruct (IHr Hr) as [R1 R2].
    simpl; destruct (c key k); [congruence| |]; split; intros Hal.
    + destruct (L1 Hal) as [l' ->]; eauto.
    + rewrite (L2 Hal); reflexivity.
    + destruct (R1 Hal) as [r' ->]; eauto.
    + rewrite (R2 Hal); reflexivity.
Qed.

Lemma probe_present key datum al (n : pr_node K) :
  sorted n -> In key (keys n) ->
  node_probe c key datum al n = Probe_found (node_search c key n).
Proof.
  induction n as [|l IHl k d w r IHr]; intros Hs Hin.
  - destruct Hin.
  - apply sorted_node in Hs as (Sl & Sr & Fl & Fr); rewrite Forall_forall in Fl, Fr.
    rewrite keys_node in Hin; apply in_app_or in Hin.
    simpl; destruct (c key k) eqn:E; [reflexivity| |].
    + destruct Hin as [Hin|[<-|Hin]].
      * rewrite (IHl Sl Hin); reflexivity.
      * rewrite c_refl in E; discriminate.
      * apply Fr in Hin. pose proof (c_trans _ _ _ E Hin) as G.
        rewrite c_refl in G; discriminate.
    + destruct Hin as [Hin|[<-|Hin]].
      * apply Fl in Hin. pose proof (c_trans _ _ _ Hin (c_gt _ _ E)) as G.
        rewrite c_refl in G; discriminate.
      * rewrite c_refl in E; discriminate.
      * rewrite (IHr Sr Hin); reflexivity.
Qed.

End Ordered.

Section Reach.

Context {K : Type}.

Lemma key_cmp_insert (t : pr_tree K) key datum ow al :
  key_cmp (snd (pr_tree_insert t key datum ow al)) = key_cmp t.
Proof.
  unfold pr_tree_insert; destruct (node_insert _ _ _ _ _ _); auto.
  destruct (root t); auto.
Qed.

Lemma key_cmp_probe (t : pr_tree K) key slot al :
  key_cmp (snd (pr_tree_probe t key slot al)) = key_cmp t.
Proof.
  unfold pr_tree_probe; destruct (node_probe _ _ _ _ _); auto.
  destruct (root t); auto.
Qed.

Lemma key_cmp_remove (t : pr_tree K) key :
  key_cmp (snd (pr_tree_remove t key)) = key_cmp t.
Proof. unfold pr_tree_remove; destruct (remove_loop _ _ _ _) as [[]|]; auto. Qed.

Lemma keys_inorder_app (xs ys : list (K * ptr)) :
  map fst (xs ++ ys) = map fst xs ++ map fst ys.
Proof. apply map_app. Qed.

Lemma reachable_sorted (t : pr_tree K) :
  reachable t -> strict_total (key_cmp t) -> sorted (key_cmp t) (root t).
Proof.
  induction 1 as [c|t key datum ow al _ IH|t key slot al _ IH|t key _ IH|t _ IH];
    intros Hc.
  - unfold sorted, ascending; simpl; constructor.
  - rewrite key_cmp_insert in *; specialize (IH Hc).
    unfold pr_tree_insert in *.
    destruct (node_insert (key_cmp t) key datum ow al (root t)) as [|n| |n] eqn:E;
      simpl; auto.
    + destruct (insert_replaced_inorder _ _ _ _ _ _ _ E) as (xs & e & ys & H1 & H2 & H3).
      apply (c_eq _ Hc) in H3.
      unfold sorted, ascending, keys in *; rewrite H2; rewrite H1 in IH.
      rewrite !map_app in *; simpl in *; rewrite H3; exact IH.
    + destruct (insert_new_inorder _ Hc _ _ _ _ _ _ IH E) as (xs & ys & H1 & H2 & H3 & H4).
      assert (S : sorted (key_cmp t) n).
      { unfold sorted, ascending, keys in *; rewrite H2; rewrite H1 in IH.
        apply sorted_mid; auto. }
      destruct (root t); exact S.
  - rewrite key_cmp_probe in *; specialize (IH Hc).
    unfold pr_tree_probe in *.
    destruct (node_probe (key_cmp t) key slot al (root t)) as [| |n] eqn:E;
      simpl; auto.
    destruct (probe_new_inorder _ Hc _ _ _ _ _ IH E) as (xs & ys & H1 & H2 & H3 & H4).
    assert (S : sorted (key_cmp t) n).
    { unfold sorted, ascending, keys in *; rewrite H2; rewrite H1 in IH.
      apply sorted_mid; auto. }
    destruct (root t); exact S.
  - rewrite key_cmp_remove in *; specialize (IH Hc).
    unfold pr_tree_remove in *.
    destruct (remove_loop (key_cmp t) _ key (root t)) as [[n|]|] eqn:E; simpl; auto.
    destruct (remove_some_inorder _ _ _ _ _ E) as (xs & e & ys & H1 & H2 & H3).
    unfold sorted, ascending, keys in *; rewrite H2; rewrite H1 in IH.
    eapply sorted_del; eauto.
  - unfold sorted, ascending; simpl; constructor.
Qed.

End Reach.

Section Cursor.

Context {K : Type}.

Lemma inorder_plug (ctx : list (frame K)) (n : pr_node K) :
  inorder (plug ctx n) = ctx_pre ctx ++ inorder n ++ ctx_post ctx.
Proof.
  revert n; induction ctx as [|[k d w r|l k d w] ctx IH]; intros n; simpl.
  - rewrite app_nil_r; reflexivity.
  - rewrite IH; simpl; rewrite <- !app_assoc; reflexivity.
  - rewrite IH; simpl; rewrite <- !app_assoc; reflexivity.
Qed.

Lemma pos_at_inorder (rt : pr_node K) p pre e post :
  pos_at rt p pre e post -> inorder rt = pre ++ e :: post.
Proof.
  intros (H1 & H2 & H3 & H4); subst.
  destruct p as [[|l k d w r] ctx]; [discriminate|].
  simpl in *; inversion H2; subst.
  rewrite inorder_plug; simpl; rewrite <- !app_assoc; reflexivity.
Qed.

Lemma length_inorder (n : pr_node K) : length (inorder n) = node_count n.
Proof. induction n; simpl; rewrite ?length_app; simpl; lia. Qed.

Lemma node_min_spec (n : pr_node K) ctx :
  n <> Nil ->
  exists e post, pos_at (plug ctx n) (node_min n ctx) (ctx_pre ctx) e post /\
    e :: post = inorder n ++ ctx_post ctx.
Proof.
  revert ctx; induction n as [|l IHl k d w r _]; intros ctx Hn; [congruence|].
  destruct l as [|ll lk ld lw lr].
  - exists (k, d), (inorder r ++ ctx_post ctx).
    unfold pos_at; simpl; rewrite app_nil_r; auto.
  - destruct (IHl (Lframe k d w r :: ctx)) as (e & post & H1 & H2); [discriminate|].
    exists e, post; split; [exact H1|].
    rewrite H2; simpl; rewrite <- !app_assoc; reflexivity.
Qed.

Lemma node_max_spec (n : pr_node K) ctx :
  n <> Nil ->
  exists pre e, pos_at (plug ctx n) (node_max n ctx) pre e (ctx_post ctx) /\
    pre ++ [e] = ctx_pre ctx ++ inorder n.
Proof.
  revert ctx; induction n as [|l _ k d w r IHr]; intros ctx Hn; [congruence|].
  destruct r as [|rl rk rd rw rr].
  - exists (ctx_pre ctx ++ inorder l), (k, d).
    unfold pos_at; simpl; repeat split; auto.
    rewrite <- app_assoc; reflexivity.
  - destruct (IHr (Rframe l k d w :: ctx)) as (pre & e & H1 & H2); [discriminate|].
    exists pre, e; split; [exact H1|].
    rewrite H2; simpl; rewrite <- !app_assoc; reflexivity.
Qed.

Lemma ascend_next_spec (n : pr_node K) ctx :
  (ascend_next n ctx = None -> ctx_post ctx = []) /\
  (forall p', ascend_next n ctx = Some p' ->
     exists e post, pos_at (plug ctx n) p' (ctx_pre ctx ++ inorder n) e post /\
       e :: post = ctx_post ctx).
Proof.
  revert n; induction ctx as [|[k d w r|l k d w] ctx IH]; intros n; simpl.
  - split; [auto|discriminate].
  - split; [discriminate|].
    intros p' H; inversion H; subst p'.
    exists (k, d), (inorder r ++ ctx_post ctx); unfold pos_at; simpl; auto.
  - destruct (IH (Node l k d w n)) as [H1 H2]; split; [exact H1|].
    intros p' H; destruct (H2 p' H) as (e & post & P & Q).
    exists e, post; split; [|exact Q].
    simpl in P; rewrite <- !app_assoc in *; exact P.
Qed.

Lemma ascend_prev_spec (n : pr_node K) ctx :
  (ascend_prev n ctx = None -> ctx_pre ctx = []) /\
  (forall p', ascend_prev n ctx = Some p' ->
     exists pre e, pos_at (plug ctx n) p' pre e (inorder n ++ ctx_post ctx) /\
       pre ++ [e] = ctx_pre ctx).
Proof.
  revert n; induction ctx as [|[k d w r|l k d w] ctx IH]; intros n; simpl.
  - split; [auto|discriminate].
  - destruct (IH (Node n k d w r)) as [H1 H2]; split; [exact H1|].
    intros p' H; destruct (H2 p' H) as (pre & e & P & Q).
    exists pre, e; split; [|exact Q].
    simpl in P; rewrite <- !app_assoc in *; exact P.
  - split; [discriminate|].
    intros p' H; inversion H; subst p'.
    exists (ctx_pre ctx ++ inorder l), (k, d); unfold pos_at; simpl.
    repeat split; auto. rewrite <- app_assoc; reflexivity.
Qed.

Lemma node_next_spec (rt : pr_node K) p pre e post :
  pos_at rt p pre e post ->
  (node_next p = None -> post = []) /\
  (forall p', node_next p = Some p' ->
     exists e' post', pos_at rt p' (pre ++ [e]) e' post' /\ e' :: post' = post).
Proof.
  intros (H1 & H2 & H3 & H4).
  destruct p as [[|l k d w r] ctx]; [discriminate|].
  simpl in *; inversion H2; subst e; clear H2; subst rt pre post.
  unfold node_next.
  destruct r as [|rl rk rd rw rr].
  - destruct (ascend_next_spec (Node l k d w Nil) ctx) as [A1 A2].
    split; [intros H; simpl; apply A1; exact H|].
    intros p' H; destruct (A2 p' H) as (e' & post' & P & Q).
    exists e', post'; split; [|exact Q].
    simpl in P; rewrite <- app_assoc; exact P.
  - split; [discriminate|].
    intros p' H; inversion H; subst p'; clear H.
    destruct (node_min_spec (Node rl rk rd rw rr) (Rframe l k d w :: ctx))
      as (e' & post' & P & Q); [discriminate|].
    exists e', post'; split.
    + simpl in P; rewrite <- app_assoc; exact P.
    + rewrite Q; reflexivity.
Qed.

Lemma node_prev_spec (rt : pr_node K) p pre e post :
  pos_at rt p pre e post ->
  (node_prev p = None -> pre = []) /\
  (forall p', node_prev p = Some p' ->
     exists pre' e', pos_at rt p' pre' e' (e :: post) /\ pre' ++ [e'] = pre).
Proof.
  intros (H1 & H2 & H3 & H4).
  destruct p as [[|l k d w r] ctx]; [discriminate|].
  simpl in *; inversion H2; subst e; clear H2; subst rt pre post.
  unfold node_prev.
  destruct l as [|ll lk ld lw lr].
  - destruct (ascend_prev_spec (Node Nil k d w r) ctx) as [A1 A2].
    split; [intros H; simpl; rewrite app_nil_r; apply A1; exact H|].
    intros p' H; destruct (A2 p' H) as (pre' & e' & P & Q).
    exists pre', e'; split; [exact P|].
    simpl; rewrite app_nil_r; exact Q.
  - split; [discriminate|].
    intros p' H; inversion H; subst p'; clear H.
    destruct (node_max_spec (Node ll lk ld lw lr) (Lframe k d w r :: ctx))
      as (pre' & e' & P & Q); [discriminate|].
    exists pre', e'; split; [exact P|].
    rewrite Q; reflexivity.
Qed.

Lemma walk_loop_pos (rt : pr_node K) fuel p pre e post cnt :
  pos_at rt p pre e post -> length post < fuel ->
  walk_loop fuel (fun _ _ => true) (Some p) cnt = (cnt + S (length post), e :: post).
Proof.
  revert rt p pre e post cnt; induction fuel as [|fuel IH];
    intros rt p pre e post cnt Hp Hf; [lia|].
  pose proof (node_next_spec rt p pre e post Hp) as [N1 N2].
  destruct Hp as (H1 & H2 & H3 & H4).
  destruct p as [[|l k d w r] ctx]; [discriminate|].
  simpl in H2; inversion H2; subst e; clear H2.
  cbn [walk_loop].
  destruct (node_next (Node l k d w r, ctx)) as [p'|] eqn:E.
  - destruct (N2 p' eq_refl) as (e' & post' & P & Q).
    simpl in Q, Hf, H4 |- *; subst post; rewrite <- Q in Hf |- *.
    rewrite (IH rt p' (pre ++ [(k, d)]) e' post' (S cnt) P).
    + simpl; f_equal; lia.
    + simpl in Hf; lia.
  - rewrite (N1 eq_refl); destruct fuel; simpl; f_equal; lia.
Qed.

Lemma itor_keys_pos (t : pr_tree K) fuel p pre e post :
  pos_at (root t) p pre e post -> length post < fuel ->
  itor_keys fuel (mk_itor t (Some p)) = map fst (e :: post).
Proof.
  revert p pre e post; induction fuel as [|fuel IH]; intros p pre e post Hp Hf; [lia|].
  assert (Step : itor_keys (S fuel) (mk_itor t (Some p)) =
    match pos_key p with
    | Some k => k :: itor_keys fuel (mk_itor t (node_next p))
    | None => []
    end) by reflexivity.
  rewrite Step; clear Step.
  pose proof (node_next_spec _ p pre e post Hp) as [N1 N2].
  destruct (node_next p) as [p'|] eqn:E.
  - destruct (N2 p' eq_refl) as (e' & post' & P & Q); subst post.
    destruct Hp as (H1 & H2 & H3 & H4).
    destruct p as [[|l k d w r] ctx]; [discriminate|].
    simpl in H2; inversion H2; subst e; simpl.
    rewrite (IH p' (pre ++ [(k, d)]) e' post' P); [reflexivity|].
    simpl in Hf; lia.
  - rewrite (N1 eq_refl).
    destruct Hp as (H1 & H2 & H3 & H4).
    destruct p as [[|l k d w r] ctx]; [discriminate|].
    simpl in H2; inversion H2; subst e; simpl.
    destruct fuel; reflexivity.
Qed.

Lemma walk_inorder (t : pr_tree K) :
  pr_tree_walk t (fun _ _ => true) = (node_count (root t), inorder (root t)).
Proof.
  unfold pr_tree_walk; destruct (root t) as [|l k d w r] eqn:R; [reflexivity|].
  destruct (node_min_spec (Node l k d w r) []) as (e & post & P & Q); [discriminate|].
  cbn [ctx_post] in Q; rewrite app_nil_r in Q.
  pose proof (f_equal (@length _) Q) as L; rewrite length_inorder in L; simpl in L.
  rewrite (walk_loop_pos _ _ _ _ e post 0 P); [|simpl; lia].
  rewrite <- Q; f_equal; simpl; lia.
Qed.

Lemma itor_keys_first (t : pr_tree K) fuel :
  node_count (root t) <= fuel ->
  itor_keys fuel (snd (pr_itor_first (mk_itor t None))) = keys (root t).
Proof.
  intros Hf; unfold pr_itor_first; cbn [itree snd].
  unfold keys; destruct (root t) as [|l k d w r] eqn:R.
  - destruct fuel; reflexivity.
  - destruct (node_min_spec (Node l k d w r) []) as (e & post & P & Q); [discriminate|].
    cbn [ctx_post] in Q; rewrite app_nil_r in Q.
    pose proof (f_equal (@length _) Q) as L; rewrite length_inorder in L; simpl in L.
    assert (P' : pos_at (root t) (node_min (Node l k d w r) []) [] e post)
      by (rewrite R; exact P).
    rewrite (itor_keys_pos t fuel _ _ e post P'); [|simpl in *; lia].
    rewrite Q; reflexivity.
Qed.

End Cursor.

Section Support.

Context {K : Type}.

Lemma absent_not_eq (c : K -> K -> comparison) (Hc : strict_total c) key (n : pr_node K) :
  ~ In key (keys n) -> forall e, In e (inorder n) -> c key (fst e) <> Eq.
Proof.
  intros H e He E; apply (c_eq c Hc) in E; subst key.
  apply H, in_keys; exact He.
Qed.

Lemma lookup_in (c : K -> K -> comparison) (Hc : strict_total c) key d
    (xs : list (K * ptr)) :
  StronglySorted (fun a b => c a b = Lt) (map fst xs) -> In (key, d) xs ->
  lookup c key xs = d.
Proof.
  induction xs as [|[k0 d0] xs IH]; [intros _ []|].
  intros S Hin; simpl in S; inversion S as [|? ? S' F]; subst.
  rewrite Forall_forall in F.
  assert (Hk : In (key, d) xs -> c k0 key = Lt)
    by (intros Hx; apply F; apply (in_map fst) in Hx; exact Hx).
  unfold lookup in *; simpl.
  destruct (c key k0) eqn:E.
  - apply (c_eq c Hc) in E; subst k0.
    destruct Hin as [Heq|Hin]; [inversion Heq; reflexivity|].
    rewrite (c_refl c Hc) in Hk; discriminate (Hk Hin).
  - destruct Hin as [Heq|Hin]; [inversion Heq; subst; rewrite (c_refl c Hc) in E; discriminate|].
    apply IH; assumption.
  - destruct Hin as [Heq|Hin]; [inversion Heq; subst; rewrite (c_refl c Hc) in E; discriminate|].
    apply IH; assumption.
Qed.

Lemma search_in (c : K -> K -> comparison) (Hc : strict_total c) key d (n : pr_node K) :
  sorted c n -> In (key, d) (inorder n) -> node_search c key n = d.
Proof.
  intros Hs Hin; rewrite (search_lookup c Hc key n Hs).
  apply (lookup_in c Hc); [exact Hs|exact Hin].
Qed.

Lemma search_absent (c : K -> K -> comparison) (Hc : strict_total c) key (n : pr_node K) :
  sorted c n -> ~ In key (keys n) -> node_search c key n = NULL.
Proof.
  intros Hs Ha; rewrite (search_lookup c Hc key n Hs).
  apply lookup_absent, (absent_not_eq c Hc); exact Ha.
Qed.

Lemma in_keys_inorder key (n : pr_node K) :
  In key (keys n) -> exists d, In (key, d) (inorder n).
Proof.
  unfold keys; intros H; apply in_map_iff in H as ([k d] & E & H).
  simpl in E; subst k; eauto.
Qed.

Lemma splice_remove_loop (c : K -> K -> comparison) fuel key (n n' : pr_node K) :
  node_count n <= fuel -> splice_remove c key n = Some n' ->
  remove_loop c fuel key n = Some (Some n').
Proof.
  revert fuel n'; induction n as [|l IHl k d w r IHr]; intros fuel n' Hf H;
    [discriminate|].
  destruct fuel as [|fuel]; [simpl in Hf; lia|].
  simpl in Hf, H |- *.
  destruct (c key k).
  - destruct l as [|ll lk ld lw lr]; [inversion H; reflexivity|].
    destruct r as [|rl rk rd rw rr]; [inversion H; reflexivity|discriminate].
  - destruct (splice_remove c key l) as [l'|] eqn:E; simpl in H; [|discriminate].
    inversion H; subst n'.
    rewrite (IHl fuel l'); [reflexivity|lia|reflexivity].
  - destruct (splice_remove c key r) as [r'|] eqn:E; simpl in H; [|discriminate].
    inversion H; subst n'.
    rewrite (IHr fuel r'); [reflexivity|lia|reflexivity].
Qed.

Lemma reachable_new_insert (t : pr_tree K) key datum ow al t' :
  reachable t -> snd (pr_tree_insert t key datum ow al) = t' -> reachable t'.
Proof. intros H <-; apply reach_insert; exact H. Qed.

Lemma cmp_eq_dec (c : K -> K -> comparison) (Hc : strict_total c) (a b : K) :
  {a = b} + {a <> b}.
Proof.
  destruct (c a b) eqn:E.
  - left; apply (c_eq c Hc); exact E.
  - right; intros ->; rewrite (c_refl c Hc) in E; discriminate.
  - right; intros ->; rewrite (c_refl c Hc) in E; discriminate.
Defined.

Lemma insert_code (t : pr_tree K) key datum ow al :
  fst (pr_tree_insert t key datum ow al) = 0%Z \/
  fst (pr_tree_insert t key datum ow al) = 1%Z \/
  fst (pr_tree_insert t key datum ow al) = (-1)%Z.
Proof.
  unfold pr_tree_insert; destruct (node_insert _ _ _ _ _ _); simpl; auto.
  destruct (root t); simpl; auto.
Qed.

Lemma insert_new_code (t : pr_tree K) key datum ow al n' :
  node_insert (key_cmp t) key datum ow al (root t) = Ins_new n' ->
  pr_tree_insert t key datum ow al =
    (0%Z, mk_tree n' (match root t with Nil => 1 | _ => S (count t) end) (key_cmp t)).
Proof. intros E; unfold pr_tree_insert; rewrite E; destruct (root t); reflexivity. Qed.

Lemma probe_new_code (t : pr_tree K) key slot al n' :
  node_probe (key_cmp t) key slot al (root t) = Probe_new n' ->
  pr_tree_probe t key slot al =
    (1%Z, slot, mk_tree n' (match root t with Nil => 1 | _ => S (count t) end) (key_cmp t)).
Proof. intros E; unfold pr_tree_probe; rewrite E; destruct (root t); reflexivity. Qed.

End Support.

Lemma strict_total_Zcompare : strict_total Z.compare.
Proof.
  split; [|split].
  - intros a b; apply Z.compare_eq_iff.
  - intros a b; apply Z.compare_antisym.
  - intros a b x; rewrite !Z.compare_lt_iff; lia.
Qed.

Lemma strict_total_dict_ptr_cmp : strict_total dict_ptr_cmp.
Proof. exact strict_total_Zcompare. Qed.

Lemma ascending_dict_ptr_cmp (xs : list ptr) :
  ascending dict_ptr_cmp xs -> StronglySorted Z.lt xs.
Proof.
  unfold ascending; induction 1 as [|a xs _ IH F]; constructor; [exact IH|].
  eapply Forall_impl; [|exact F]; intros b H; apply Z.compare_lt_iff; exact H.
Qed.

Lemma reachable_insert_keys (t : pr_tree ptr) ks :
  reachable t -> reachable (insert_keys t ks).
Proof.
  unfold insert_keys; revert t; induction ks as [|k ks IH]; simpl; auto.
  intros t H; apply IH, reach_insert, H.
Qed.

(** * The specification's properties *)

(** Claim C1 (as it is stated, refuted): after the inserts 2, 1, 4, 3, 5
    (comparator [dict_ptr_cmp]) the tree satisfies the path-reduction balance
    condition; removing 1, a leaf, splices it out and only decrements the
    root's weight, which leaves the root with left weight 1, right weight 4 and
    right-right weight 2 > 1, so the condition fails. Independently of remove,
    the 34 inserts below alone already produce a tree violating the condition
    (at key 123: left weight 6, right weight 3, left-right weight 4 > 3). *)
Lemma C1_counterexample :
  let t0 := insert_keys (mk_tree Nil 0 dict_ptr_cmp) [2; 1; 4; 3; 5]%Z in
  let t1 := insert_keys (mk_tree Nil 0 dict_ptr_cmp)
    [351; 7; 37; 487; 928; 164; 354; 358; 225; 140; 123; 671; 427; 495; 423;
     100; 479; 449; 695; 128; 697; 61; 301; 760; 773; 41; 196; 576; 664; 994;
     802; 696; 829; 269]%Z in
  reachable t0 /\ pr_balanced (root t0) = true /\
  reachable (snd (pr_tree_remove t0 1%Z)) /\
  fst (pr_tree_remove t0 1%Z) = 0%Z /\
  pr_balanced (root (snd (pr_tree_remove t0 1%Z))) = false /\
  reachable t1 /\ pr_balanced (root t1) = false.
Proof.
  intros t0 t1.
  assert (R0 : reachable t0) by apply reachable_insert_keys, reach_new.
  assert (R1 : reachable t1) by apply reachable_insert_keys, reach_new.
  split; [exact R0|]; split; [vm_compute; reflexivity|].
  split; [apply reach_remove; exact R0|].
  split; [vm_compute; reflexivity|]; split; [vm_compute; reflexivity|].
  split; [exact R1|vm_compute; reflexivity].
Qed.

(** Claim C1 (amended): when the node holding the key has at most one
    child, pr_tree_remove returns 0 and its result is exactly the spec's
    splice: the node is replaced by its child and each ancestor keeps its
    place with its weight decreased by one, with no fixup and no rotation;
    the count drops by one. (The balance condition is therefore not an
    invariant of the reachable trees, see the counterexample.) *)
Theorem C1_remove_splice_no_fixup {K : Type} (t : pr_tree K) key n' :
  splice_remove (key_cmp t) key (root t) = Some n' ->
  pr_tree_remove t key = (0%Z, mk_tree n' (count t - 1) (key_cmp t)).
Proof.
  intros H; unfold pr_tree_remove.
  rewrite (splice_remove_loop (key_cmp t) (node_count (root t)) key (root t) n');
    [reflexivity|lia|exact H].
Qed.

Lemma C1_remove_splice_no_fixup_witness :
  let t0 := insert_keys (mk_tree Nil 0 dict_ptr_cmp) [2; 1; 4; 3; 5]%Z in
  let n' := Node Nil 2%Z 2%Z 5
              (Node (Node Nil 3%Z 3%Z 2 Nil) 4%Z 4%Z 4 (Node Nil 5%Z 5%Z 2 Nil)) in
  splice_remove (key_cmp t0) 1%Z (root t0) = Some n' /\
  pr_tree_remove t0 1%Z = (0%Z, mk_tree n' (count t0 - 1) (key_cmp t0)).
Proof.
  intros t0 n'.
  assert (H : splice_remove (key_cmp t0) 1%Z (root t0) = Some n')
    by (vm_compute; reflexivity).
  split; [exact H|].
  exact (C1_remove_splice_no_fixup t0 1%Z n' H).
Defined.

(** Claim C2: the weight invariant [weight = WEIGHT llink + WEIGHT rlink]
    (absent child = 1) holds in every reachable tree; a new leaf has weight 2;
    on every subtree satisfying the invariant, an insert that adds a node
    yields a subtree of weight one more, a successful remove one of weight one
    less (so each ancestor on the path gains, resp. loses, exactly one); and a
    rotation keeps the invariant and the weight of the rotated subtree, so the
    ancestors' weights are unchanged. *)
Theorem C2_weight_invariant {K : Type} (t : pr_tree K) :
  reachable t ->
  weights_ok (root t) /\
  (forall (k : K) d, weights_ok (node_new k d) /\ WEIGHT (node_new k d) = 2) /\
  (forall c key datum ow al (n n' : pr_node K), weights_ok n ->
     node_insert c key datum ow al n = Ins_new n' ->
     weights_ok n' /\ WEIGHT n' = S (WEIGHT n)) /\
  (forall c fuel key (n n' : pr_node K), weights_ok n ->
     remove_loop c fuel key n = Some (Some n') ->
     weights_ok n' /\ S (WEIGHT n') = WEIGHT n) /\
  (forall n : pr_node K, weights_ok n ->
     weights_ok (rot_left n) /\ WEIGHT (rot_left n) = WEIGHT n /\
     weights_ok (rot_right n) /\ WEIGHT (rot_right n) = WEIGHT n).
Proof.
  intros Ht; split; [apply reachable_weights; exact Ht|].
  split; [intros k d; simpl; auto|].
  split; [intros c key datum ow al n n' Hn H;
          apply (proj1 (weights_node_insert c key datum ow al n Hn) n' H)|].
  split; [intros c fuel key n n' Hn H; apply (weights_remove_loop c fuel key n Hn n' H)|].
  intros n Hn.
  destruct (weights_rot_left n Hn) as [A B]; destruct (weights_rot_right n Hn) as [C D].
  auto.
Qed.

Lemma C2_weight_invariant_witness :
  let t := insert_keys (mk_tree Nil 0 dict_ptr_cmp) [1; 2; 3; 4; 5]%Z in
  let r := root t in
  let ins := match node_insert dict_ptr_cmp 6%Z 6%Z 0%Z true r with
             | Ins_new n => n | _ => Nil end in
  let rem := match remove_loop dict_ptr_cmp (node_count r) 3%Z r with
             | Some (Some n) => n | _ => Nil end in
  weights_ok r /\
  (weights_ok (node_new 6%Z 6%Z) /\ WEIGHT (node_new 6%Z 6%Z) = 2) /\
  node_insert dict_ptr_cmp 6%Z 6%Z 0%Z true r = Ins_new ins /\
  weights_ok ins /\ WEIGHT ins = S (WEIGHT r) /\
  remove_loop dict_ptr_cmp (node_count r) 3%Z r = Some (Some rem) /\
  weights_ok rem /\ S (WEIGHT rem) = WEIGHT r /\
  rot_left r <> r /\ rot_right r <> r /\
  weights_ok (rot_left r) /\ WEIGHT (rot_left r) = WEIGHT r /\
  weights_ok (rot_right r) /\ WEIGHT (rot_right r) = WEIGHT r.
Proof.
  intros t r ins rem.
  assert (R : reachable t) by (apply reachable_insert_keys, reach_new).
  destruct (C2_weight_invariant t R) as (W & Nw & I & D & Rt).
  assert (Ei : node_insert dict_ptr_cmp 6%Z 6%Z 0%Z true r = Ins_new ins)
    by (vm_compute; reflexivity).
  assert (Er : remove_loop dict_ptr_cmp (node_count r) 3%Z r = Some (Some rem))
    by (vm_compute; reflexivity).
  assert (Nl : rot_left r <> r) by (vm_compute; discriminate).
  assert (Nr : rot_right r <> r) by (vm_compute; discriminate).
  destruct (I dict_ptr_cmp 6%Z 6%Z 0%Z true r ins W Ei) as [I1 I2].
  destruct (D dict_ptr_cmp (node_count r) 3%Z r rem W Er) as [D1 D2].
  destruct (Rt r W) as (R1 & R2 & R3 & R4).
  exact (conj W (conj (Nw 6%Z 6%Z) (conj Ei (conj I1 (conj I2 (conj Er (conj D1 (conj D2
          (conj Nl (conj Nr (conj R1 (conj R2 (conj R3 R4))))))))))))).
Defined.

(** Claim C3: in a reachable tree whose comparator is a strict total order,
    inserting an absent key (allocation succeeding) returns 0 and a search
    for it then returns exactly the inserted datum; removing a present key
    returns 0; after any remove that returns 0, a search for the removed key
    returns NULL; removing an absent key returns -1 and leaves the tree
    unchanged. *)
Theorem C3_insert_search_remove {K : Type} (t : pr_tree K) :
  reachable t -> strict_total (key_cmp t) ->
  (forall key datum ow, ~ In key (keys (root t)) ->
     fst (pr_tree_insert t key datum ow true) = 0%Z /\
     pr_tree_search (snd (pr_tree_insert t key datum ow true)) key = datum) /\
  (forall key, In key (keys (root t)) -> fst (pr_tree_remove t key) = 0%Z) /\
  (forall key, fst (pr_tree_remove t key) = 0%Z ->
     pr_tree_search (snd (pr_tree_remove t key)) key = NULL) /\
  (forall key, ~ In key (keys (root t)) -> pr_tree_remove t key = ((-1)%Z, t)).
Proof.
  intros Ht Hc.
  pose proof (reachable_sorted t Ht Hc) as Hs.
  split; [|split; [|split]].
  - intros key datum ow Ha.
    pose proof (absent_not_eq _ Hc key (root t) Ha) as Ha'.
    destruct (proj1 (insert_absent (key_cmp t) key datum ow true (root t) Ha') eq_refl)
      as [n' E].
    destruct (insert_new_inorder _ Hc _ _ _ _ _ _ Hs E) as (xs & ys & H1 & H2 & _ & _).
    pose proof (reach_insert t key datum ow true Ht) as Ht'.
    pose proof (reachable_sorted _ Ht') as Hs'.
    rewrite key_cmp_insert in Hs'; specialize (Hs' Hc).
    unfold pr_tree_search; rewrite key_cmp_insert.
    unfold pr_tree_insert in *; rewrite E in *.
    assert (Hn : node_search (key_cmp t) key n' = datum).
    { apply (search_in _ Hc); [destruct (root t); exact Hs'|].
      rewrite H2; apply in_or_app; right; left; reflexivity. }
    destruct (root t); split; auto.
  - intros key Hin.
    unfold pr_tree_remove.
    pose proof (remove_loop_fuel (key_cmp t) (node_count (root t)) key (root t) (le_n _)) as F.
    pose proof (remove_present _ Hc (node_count (root t)) key (root t) Hs Hin) as P.
    destruct (remove_loop _ _ key (root t)) as [[n|]|]; [reflexivity|congruence|congruence].
  - intros key H0.
    pose proof (reachable_sorted _ (reach_remove t key Ht)) as Hs'.
    rewrite key_cmp_remove in Hs'; specialize (Hs' Hc).
    unfold pr_tree_search; rewrite key_cmp_remove.
    unfold pr_tree_remove in *.
    destruct (remove_loop _ _ key (root t)) as [[n|]|] eqn:E; try discriminate.
    simpl in *.
    destruct (remove_some_inorder _ _ _ _ _ E) as (xs & e & ys & H1 & H2 & H3).
    rewrite (search_lookup _ Hc key n Hs'), H2.
    apply lookup_absent.
    apply (mid_absent _ Hc xs ys e key); [|exact H3].
    unfold sorted, ascending, keys in Hs; rewrite H1 in Hs; exact Hs.
  - intros key Ha.
    unfold pr_tree_remove.
    destruct (remove_absent (key_cmp t) (node_count (root t)) key (root t)
                (absent_not_eq _ Hc key (root t) Ha)) as [E|E]; rewrite E; reflexivity.
Qed.

Lemma C3_insert_search_remove_witness :
  let t := insert_keys (mk_tree Nil 0 dict_ptr_cmp) [2; 1; 3]%Z in
  (fst (pr_tree_insert t 4%Z 8%Z 0%Z true) = 0%Z /\
   pr_tree_search (snd (pr_tree_insert t 4%Z 8%Z 0%Z true)) 4%Z = 8%Z) /\
  fst (pr_tree_remove t 1%Z) = 0%Z /\
  (fst (pr_tree_remove t 2%Z) = 0%Z /\
   pr_tree_search (snd (pr_tree_remove t 2%Z)) 2%Z = NULL) /\
  (fst (pr_tree_remove t 3%Z) = 0%Z /\
   pr_tree_search (snd (pr_tree_remove t 3%Z)) 3%Z = NULL) /\
  pr_tree_remove t 7%Z = ((-1)%Z, t).
Proof.
  intros t.
  destruct (C3_insert_search_remove t (reachable_insert_keys _ _ (reach_new _))
              strict_total_dict_ptr_cmp) as (I & P & Z & A).
  assert (R2 : fst (pr_tree_remove t 2%Z) = 0%Z) by (vm_compute; reflexivity).
  assert (R3 : fst (pr_tree_remove t 3%Z) = 0%Z) by (vm_compute; reflexivity).
  refine (conj (I 4%Z 8%Z 0%Z _) (conj (P 1%Z _) (conj (conj R2 (Z 2%Z R2))
            (conj (conj R3 (Z 3%Z R3)) (A 7%Z _))))).
  - vm_compute; intuition discriminate.
  - vm_compute; left; reflexivity.
  - vm_compute; intuition discriminate.
Defined.

(** Claim C4: in a reachable tree with a strict total order, pr_tree_insert
    returns only 0, 1 or -1; 0 when the key is absent and the allocation
    succeeds (the key is then stored), and 0 when the key is present and
    overwrite is nonzero (the datum is replaced, the key set and the count are
    unchanged); 1, with the tree unchanged, when the key is present and
    overwrite is 0; -1 exactly when the key is absent and the allocation
    fails, and then the tree is unchanged. After a first insert with
    overwrite 0 that did not fail, a second one of the same key returns 1 and
    leaves the tree as it is. *)
Theorem C4_insert_return_codes {K : Type} (t : pr_tree K) :
  reachable t -> strict_total (key_cmp t) ->
  (forall key datum ow al,
     fst (pr_tree_insert t key datum ow al) = 0%Z \/
     fst (pr_tree_insert t key datum ow al) = 1%Z \/
     fst (pr_tree_insert t key datum ow al) = (-1)%Z) /\
  (forall key datum ow, ~ In key (keys (root t)) ->
     fst (pr_tree_insert t key datum ow true) = 0%Z /\
     In key (keys (root (snd (pr_tree_insert t key datum ow true))))) /\
  (forall key datum ow al, In key (keys (root t)) -> ow <> 0%Z ->
     fst (pr_tree_insert t key datum ow al) = 0%Z /\
     keys (root (snd (pr_tree_insert t key datum ow al))) = keys (root t) /\
     count (snd (pr_tree_insert t key datum ow al)) = count t /\
     pr_tree_search (snd (pr_tree_insert t key datum ow al)) key = datum) /\
  (forall key datum al, In key (keys (root t)) ->
     pr_tree_insert t key datum 0%Z al = (1%Z, t)) /\
  (forall key datum ow al,
     fst (pr_tree_insert t key datum ow al) = (-1)%Z <->
     (~ In key (keys (root t)) /\ al = false)) /\
  (forall key datum ow al, fst (pr_tree_insert t key datum ow al) = (-1)%Z ->
     snd (pr_tree_insert t key datum ow al) = t) /\
  (forall key datum datum' al al',
     fst (pr_tree_insert t key datum 0%Z al) <> (-1)%Z ->
     pr_tree_insert (snd (pr_tree_insert t key datum 0%Z al)) key datum' 0%Z al' =
       (1%Z, snd (pr_tree_insert t key datum 0%Z al))).
Proof.
  intros Ht Hc.
  pose proof (reachable_sorted t Ht Hc) as Hs.
  set (c := key_cmp t) in *.
  assert (Absent : forall key datum ow, ~ In key (keys (root t)) ->
     exists n', node_insert c key datum ow true (root t) = Ins_new n' /\
       In key (keys n')).
  { intros key datum ow Ha.
    destruct (proj1 (insert_absent c key datum ow true (root t)
                       (absent_not_eq _ Hc key (root t) Ha)) eq_refl) as [n' E].
    exists n'; split; [exact E|].
    destruct (insert_new_inorder _ Hc _ _ _ _ _ _ Hs E) as (xs & ys & H1 & H2 & _ & _).
    unfold keys; rewrite H2, map_app; apply in_or_app; right; left; reflexivity. }
  assert (Dup : forall key datum al, In key (keys (root t)) ->
     pr_tree_insert t key datum 0%Z al = (1%Z, t)).
  { intros key datum al Hin; unfold pr_tree_insert; fold c.
    rewrite (proj1 (insert_present _ Hc key datum 0%Z al (root t) Hs Hin) eq_refl).
    reflexivity. }
  assert (Fail : forall key datum ow al,
     fst (pr_tree_insert t key datum ow al) = (-1)%Z <->
     (~ In key (keys (root t)) /\ al = false)).
  { intros key datum ow al; split.
    - intros H.
      destruct (in_dec (cmp_eq_dec _ Hc) key (keys (root t))) as [Hin|Ha].
      + exfalso; destruct (Z.eq_dec ow 0) as [->|Hne].
        * rewrite (Dup key datum al Hin) in H; discriminate.
        * destruct (proj2 (insert_present _ Hc key datum ow al (root t) Hs Hin) Hne)
            as [n' E].
          unfold pr_tree_insert in H; fold c in H; rewrite E in H; discriminate.
      + split; [exact Ha|].
        destruct al; [|reflexivity].
        destruct (Absent key datum ow Ha) as (n' & E & _).
        unfold pr_tree_insert in H; fold c in H; rewrite E in H.
        destruct (root t); discriminate.
    - intros [Ha ->]; unfold pr_tree_insert; fold c.
      rewrite (proj2 (insert_absent c key datum ow false (root t)
                        (absent_not_eq _ Hc key (root t) Ha)) eq_refl).
      reflexivity. }
  split; [intros; apply insert_code|].
  split.
  { intros key datum ow Ha.
    destruct (Absent key datum ow Ha) as (n' & E & Hin).
    rewrite (insert_new_code t key datum ow true n' E); simpl; auto. }
  split.
  { intros key datum ow al Hin Hne.
    destruct (proj2 (insert_present _ Hc key datum ow al (root t) Hs Hin) Hne) as [n' E].
    destruct (insert_replaced_inorder _ _ _ _ _ _ _ E) as (xs & e & ys & H1 & H2 & H3).
    apply (c_eq _ Hc) in H3.
    pose proof (reachable_sorted _ (reach_insert t key datum ow al Ht)) as Hs'.
    rewrite key_cmp_insert in Hs'; specialize (Hs' Hc).
    unfold pr_tree_search; rewrite key_cmp_insert.
    unfold pr_tree_insert in Hs' |- *; fold c in Hs' |- *; rewrite E in Hs' |- *; simpl in *.
    split; [reflexivity|]; split.
    { unfold keys; rewrite H1, H2, !map_app; simpl; rewrite H3; reflexivity. }
    split; [reflexivity|].
    apply (search_in _ Hc); [exact Hs'|].
    rewrite H2; apply in_or_app; right; left; reflexivity. }
  split; [exact Dup|].
  split; [exact Fail|].
  split.
  { intros key datum ow al H.
    apply Fail in H as [Ha ->]; unfold pr_tree_insert; fold c.
    rewrite (proj2 (insert_absent c key datum ow false (root t)
                      (absent_not_eq _ Hc key (root t) Ha)) eq_refl).
    reflexivity. }
  intros key datum datum' al al' Hnf.
  pose proof (reach_insert t key datum 0%Z al Ht) as Ht1.
  set (t1 := snd (pr_tree_insert t key datum 0%Z al)) in *.
  assert (Hc1 : strict_total (key_cmp t1)) by (unfold t1; rewrite key_cmp_insert; exact Hc).
  pose proof (reachable_sorted t1 Ht1 Hc1) as Hs1.
  assert (Hin1 : In key (keys (root t1))).
  { destruct (in_dec (cmp_eq_dec _ Hc) key (keys (root t))) as [Hin|Ha].
    - unfold t1; rewrite (Dup key datum al Hin); exact Hin.
    - destruct al.
      + destruct (Absent key datum 0%Z Ha) as (n' & E & Hin).
        unfold t1; rewrite (insert_new_code t key datum 0%Z true n' E); exact Hin.
      + exfalso; apply Hnf, Fail; auto. }
  unfold pr_tree_insert at 1.
  rewrite (proj1 (insert_present _ Hc1 key datum' 0%Z al' (root t1) Hs1 Hin1) eq_refl).
  reflexivity.
Qed.

Lemma C4_insert_return_codes_witness :
  let t := insert_keys (mk_tree Nil 0 dict_ptr_cmp) [2; 1; 3]%Z in
  let t4 := snd (pr_tree_insert t 4%Z 8%Z 0%Z true) in
  (fst (pr_tree_insert t 3%Z 9%Z 0%Z false) = 0%Z \/
   fst (pr_tree_insert t 3%Z 9%Z 0%Z false) = 1%Z \/
   fst (pr_tree_insert t 3%Z 9%Z 0%Z false) = (-1)%Z) /\
  (fst (pr_tree_insert t 4%Z 8%Z 0%Z true) = 0%Z /\ In 4%Z (keys (root t4))) /\
  (fst (pr_tree_insert t 3%Z 9%Z 1%Z true) = 0%Z /\
   keys (root (snd (pr_tree_insert t 3%Z 9%Z 1%Z true))) = keys (root t) /\
   count (snd (pr_tree_insert t 3%Z 9%Z 1%Z true)) = count t /\
   pr_tree_search (snd (pr_tree_insert t 3%Z 9%Z 1%Z true)) 3%Z = 9%Z) /\
  pr_tree_insert t 1%Z 9%Z 0%Z true = (1%Z, t) /\
  (fst (pr_tree_insert t 4%Z 8%Z 0%Z false) = (-1)%Z <->
   (~ In 4%Z (keys (root t)) /\ false = false)) /\
  (fst (pr_tree_insert t 4%Z 8%Z 0%Z false) = (-1)%Z /\
   snd (pr_tree_insert t 4%Z 8%Z 0%Z false) = t) /\
  pr_tree_insert t4 4%Z 9%Z 0%Z true = (1%Z, t4).
Proof.
  intros t t4.
  destruct (C4_insert_return_codes t (reachable_insert_keys _ _ (reach_new _))
              strict_total_dict_ptr_cmp) as (Co & Ab & Pr & Du & Fi & Un & Tw).
  assert (Ha : ~ In 4%Z (keys (root t))) by (vm_compute; intuition discriminate).
  assert (H3 : In 3%Z (keys (root t))) by (vm_compute; right; right; left; reflexivity).
  assert (H1 : In 1%Z (keys (root t))) by (vm_compute; left; reflexivity).
  assert (Hf : fst (pr_tree_insert t 4%Z 8%Z 0%Z false) = (-1)%Z)
    by (vm_compute; reflexivity).
  assert (Hnf : fst (pr_tree_insert t 4%Z 8%Z 0%Z true) <> (-1)%Z)
    by (vm_compute; discriminate).
  exact (conj (Co 3%Z 9%Z 0%Z false) (conj (Ab 4%Z 8%Z 0%Z Ha)
          (conj (Pr 3%Z 9%Z 1%Z true H3 ltac:(discriminate)) (conj (Du 1%Z 9%Z true H1)
          (conj (Fi 4%Z 8%Z 0%Z false) (conj (conj Hf (Un 4%Z 8%Z 0%Z false Hf))
          (Tw 4%Z 8%Z 9%Z true true Hnf))))))).
Defined.

(** Claim C5: in a reachable tree with a strict total order, probing a key
    stored with datum [d] returns 0, fills the slot with [d], and leaves the
    tree unchanged; probing an absent key (allocation succeeding) inserts a
    node carrying the slot's value, returns 1, and a search for the key then
    returns that value; if the allocation fails, it returns -1 and leaves the
    tree unchanged. *)
Theorem C5_probe {K : Type} (t : pr_tree K) :
  reachable t -> strict_total (key_cmp t) ->
  (forall key d slot al, In (key, d) (inorder (root t)) ->
     pr_tree_probe t key slot al = (0%Z, d, t)) /\
  (forall key slot, ~ In key (keys (root t)) ->
     fst (fst (pr_tree_probe t key slot true)) = 1%Z /\
     snd (fst (pr_tree_probe t key slot true)) = slot /\
     pr_tree_search (snd (pr_tree_probe t key slot true)) key = slot) /\
  (forall key slot, ~ In key (keys (root t)) ->
     pr_tree_probe t key slot false = ((-1)%Z, slot, t)).
Proof.
  intros Ht Hc.
  pose proof (reachable_sorted t Ht Hc) as Hs.
  split; [|split].
  - intros key d slot al Hin.
    unfold pr_tree_probe.
    rewrite (probe_present _ Hc key slot al (root t) Hs).
    + rewrite (search_in _ Hc key d (root t) Hs Hin); reflexivity.
    + apply (in_keys _ (key, d)); exact Hin.
  - intros key slot Ha.
    destruct (proj1 (probe_absent (key_cmp t) key slot true (root t)
                       (absent_not_eq _ Hc key (root t) Ha)) eq_refl) as [n' E].
    destruct (probe_new_inorder _ Hc _ _ _ _ _ Hs E) as (xs & ys & H1 & H2 & _ & _).
    pose proof (reachable_sorted _ (reach_probe t key slot true Ht)) as Hs'.
    rewrite key_cmp_probe in Hs'; specialize (Hs' Hc).
    rewrite (probe_new_code t key slot true n' E) in Hs' |- *; simpl in *.
    split; [reflexivity|]; split; [reflexivity|].
    unfold pr_tree_search; simpl.
    apply (search_in _ Hc); [exact Hs'|].
    rewrite H2; apply in_or_app; right; left; reflexivity.
  - intros key slot Ha; unfold pr_tree_probe.
    rewrite (proj2 (probe_absent (key_cmp t) key slot false (root t)
                      (absent_not_eq _ Hc key (root t) Ha)) eq_refl).
    reflexivity.
Qed.

Lemma C5_probe_witness :
  let t := insert_keys (mk_tree Nil 0 dict_ptr_cmp) [2; 1; 3]%Z in
  pr_tree_probe t 3%Z 9%Z true = (0%Z, 3%Z, t) /\
  pr_tree_probe t 1%Z 9%Z false = (0%Z, 1%Z, t) /\
  (fst (fst (pr_tree_probe t 4%Z 9%Z true)) = 1%Z /\
   snd (fst (pr_tree_probe t 4%Z 9%Z true)) = 9%Z /\
   pr_tree_search (snd (pr_tree_probe t 4%Z 9%Z true)) 4%Z = 9%Z) /\
  pr_tree_probe t 4%Z 9%Z false = ((-1)%Z, 9%Z, t).
Proof.
  intros t.
  destruct (C5_probe t (reachable_insert_keys _ _ (reach_new _)) strict_total_dict_ptr_cmp)
    as (P & N & F).
  assert (Ha : ~ In 4%Z (keys (root t))) by (vm_compute; intuition discriminate).
  refine (conj (P 3%Z 3%Z 9%Z true _) (conj (P 1%Z 1%Z 9%Z false _)
            (conj (N 4%Z 9%Z Ha) (F 4%Z 9%Z Ha)))).
  - vm_compute; right; right; left; reflexivity.
  - vm_compute; left; reflexivity.
Defined.

(** Claim C6: for every reachable tree whose comparator is a strict total
    order, pr_tree_walk (with a visitor that never stops it) visits every
    node and yields the stored keys in strictly ascending comparator order,
    and a cursor set by pr_itor_first and stepped by pr_itor_next until it is
    unbound yields exactly the same key sequence (for any step bound no
    smaller than the number of nodes, so the cursor ran out, not the bound). *)
Theorem C6_walk_and_cursor_order {K : Type} (t : pr_tree K) :
  reachable t -> strict_total (key_cmp t) ->
  fst (pr_tree_walk t (fun _ _ => true)) = node_count (root t) /\
  map fst (snd (pr_tree_walk t (fun _ _ => true))) = keys (root t) /\
  ascending (key_cmp t) (keys (root t)) /\
  (forall fuel, node_count (root t) <= fuel ->
     itor_keys fuel (snd (pr_itor_first (mk_itor t None))) =
     map fst (snd (pr_tree_walk t (fun _ _ => true)))).
Proof.
  intros Ht Hc; rewrite walk_inorder; simpl.
  split; [reflexivity|]; split; [reflexivity|]; split.
  - exact (reachable_sorted t Ht Hc).
  - intros fuel Hf; apply itor_keys_first; exact Hf.
Qed.

Lemma C6_walk_and_cursor_order_witness :
  let t := insert_keys (mk_tree Nil 0 dict_ptr_cmp) [3; 1; 2]%Z in
  map fst (snd (pr_tree_walk t (fun _ _ => true))) = [1; 2; 3]%Z /\
  itor_keys 3 (snd (pr_itor_first (mk_itor t None))) = [1; 2; 3]%Z.
Proof.
  intros t.
  assert (R : reachable t) by apply reachable_insert_keys, reach_new.
  destruct (C6_walk_and_cursor_order t R strict_total_dict_ptr_cmp)
    as (_ & H1 & _ & H2).
  assert (E : map fst (snd (pr_tree_walk t (fun _ _ => true))) = [1; 2; 3]%Z)
    by (vm_compute; reflexivity).
  split; [exact E|].
  rewrite (H2 3); [exact E|vm_compute; lia].
Defined.

(** Claim C7: pr_tree_remove always terminates: its loop, modelled with
    [node_count] as the bound on its iterations, never runs out of that bound
    ([remove_loop ... <> None]), because each iteration of the two-child case
    (the optional corrective rotation of the heavier child, then the rotation
    of the target node toward the lighter side) leaves the target node, still
    holding the key, at the root of a subtree with strictly fewer nodes. *)
Theorem C7_remove_terminates {K : Type} :
  (forall (t : pr_tree K) key,
     remove_loop (key_cmp t) (node_count (root t)) key (root t) <> None) /\
  (forall (l r : pr_node K) k d w, l <> Nil ->
     exists a ok od ow x1 xw x2,
       rot_right (Node (if WEIGHT (llink_of l) <? WEIGHT (rlink_of l)
                        then rot_left l else l) k d w r)
         = Node a ok od ow (Node x1 k d xw x2) /\
       node_count (Node x1 k d xw x2) < node_count (Node l k d w r)) /\
  (forall (l r : pr_node K) k d w, r <> Nil ->
     exists b ok od ow x1 xw x2,
       rot_left (Node l k d w (if WEIGHT (rlink_of r) <? WEIGHT (llink_of r)
                               then rot_right r else r))
         = Node (Node x1 k d xw x2) ok od ow b /\
       node_count (Node x1 k d xw x2) < node_count (Node l k d w r)).
Proof.
  split; [|split].
  - intros t key; apply remove_loop_fuel; lia.
  - intros l r k d w Hl.
    destruct (remove_step_left l r k d w Hl) as (a & ok & od & ow & x1 & xw & x2 & H1 & _ & H3).
    exists a, ok, od, ow, x1, xw, x2; auto.
  - intros l r k d w Hr.
    destruct (remove_step_right l r k d w Hr) as (x1 & xw & x2 & ok & od & ow & b & H1 & _ & H3).
    exists b, ok, od, ow, x1, xw, x2; auto.
Qed.

Lemma C7_remove_terminates_witness :
  let l := Node Nil 1%Z 1%Z 2 Nil in
  let r := Node Nil 3%Z 3%Z 2 Nil in
  remove_loop dict_ptr_cmp 3 2%Z (Node l 2%Z 2%Z 4 r) <> None /\
  exists b ok od ow x1 xw x2,
    rot_left (Node l 2%Z 2%Z 4 (if WEIGHT (rlink_of r) <? WEIGHT (llink_of r)
                                then rot_right r else r))
      = Node (Node x1 2%Z 2%Z xw x2) ok od ow b /\
    node_count (Node x1 2%Z 2%Z xw x2) < node_count (Node l 2%Z 2%Z 4 r).
Proof.
  intros l r.
  destruct (@C7_remove_terminates ptr) as (H1 & _ & H3).
  split.
  - exact (H1 (mk_tree (Node l 2%Z 2%Z 4 r) 3 dict_ptr_cmp) 2%Z).
  - apply H3; discriminate.
Defined.

(** Claim C8: a new cursor (allocation succeeding) on an empty tree is
    unbound, and on a non-empty tree it is bound to the first pair of the
    in-order sequence, the minimum key; pr_itor_next (resp. pr_itor_prev) on an
    unbound cursor is pr_itor_first (resp. pr_itor_last), which leaves it
    unbound on an empty tree and binds it to the first (resp. last) pair
    otherwise; on a bound cursor it moves to the in-order successor (resp.
    predecessor) and returns 1, or, when there is none, unbinds the cursor
    and returns 0. *)
Theorem C8_cursor_moves {K : Type} (t : pr_tree K) :
  (root t = Nil -> pr_itor_new t true = Some (mk_itor t None)) /\
  (root t <> Nil -> exists p e post,
     pr_itor_new t true = Some (mk_itor t (Some p)) /\ pos_at (root t) p [] e post) /\
  pr_itor_next (mk_itor t None) = pr_itor_first (mk_itor t None) /\
  pr_itor_prev (mk_itor t None) = pr_itor_last (mk_itor t None) /\
  (root t = Nil ->
     pr_itor_next (mk_itor t None) = (0%Z, mk_itor t None) /\
     pr_itor_prev (mk_itor t None) = (0%Z, mk_itor t None)) /\
  (root t <> Nil ->
     (exists p e post, pr_itor_next (mk_itor t None) = (1%Z, mk_itor t (Some p)) /\
        pos_at (root t) p [] e post) /\
     (exists p pre e, pr_itor_prev (mk_itor t None) = (1%Z, mk_itor t (Some p)) /\
        pos_at (root t) p pre e [])) /\
  (forall p pre e post, pos_at (root t) p pre e post ->
     (post = [] -> pr_itor_next (mk_itor t (Some p)) = (0%Z, mk_itor t None)) /\
     (forall e' post', post = e' :: post' -> exists p',
        pr_itor_next (mk_itor t (Some p)) = (1%Z, mk_itor t (Some p')) /\
        pos_at (root t) p' (pre ++ [e]) e' post') /\
     (pre = [] -> pr_itor_prev (mk_itor t (Some p)) = (0%Z, mk_itor t None)) /\
     (forall pre' e', pre = pre' ++ [e'] -> exists p',
        pr_itor_prev (mk_itor t (Some p)) = (1%Z, mk_itor t (Some p')) /\
        pos_at (root t) p' pre' e' (e :: post))).
Proof.
  assert (First : root t <> Nil -> exists p e post,
     pr_itor_first (mk_itor t None) = (1%Z, mk_itor t (Some p)) /\
     pos_at (root t) p [] e post).
  { intros Hn; destruct (node_min_spec (root t) [] Hn) as (e & post & P & _).
    exists (node_min (root t) []), e, post; split; [|exact P].
    unfold pr_itor_first; simpl; destruct (root t); [congruence|reflexivity]. }
  assert (Last : root t <> Nil -> exists p pre e,
     pr_itor_last (mk_itor t None) = (1%Z, mk_itor t (Some p)) /\
     pos_at (root t) p pre e []).
  { intros Hn; destruct (node_max_spec (root t) [] Hn) as (pre & e & P & _).
    exists (node_max (root t) []), pre, e; split; [|exact P].
    unfold pr_itor_last; simpl; destruct (root t); [congruence|reflexivity]. }
  split.
  { intros Hn; unfold pr_itor_new, pr_itor_first; simpl; rewrite Hn; reflexivity. }
  split.
  { intros Hn; destruct (First Hn) as (p & e & post & E & P).
    exists p, e, post; split; [|exact P].
    unfold pr_itor_new; rewrite E; reflexivity. }
  split; [reflexivity|]; split; [reflexivity|].
  split.
  { intros Hn; unfold pr_itor_next, pr_itor_prev, pr_itor_first, pr_itor_last; simpl.
    rewrite Hn; split; reflexivity. }
  split; [intros Hn; split; [apply First|apply Last]; exact Hn|].
  intros p pre e post P.
  destruct (node_next_spec _ p pre e post P) as [N1 N2].
  destruct (node_prev_spec _ p pre e post P) as [V1 V2].
  split; [|split; [|split]].
  - intros ->; unfold pr_itor_next; simpl.
    destruct (node_next p) as [p'|] eqn:E; [|reflexivity].
    destruct (N2 p' eq_refl) as (e' & post' & _ & Q); discriminate.
  - intros e' post' ->; unfold pr_itor_next; simpl.
    destruct (node_next p) as [p'|] eqn:E.
    + destruct (N2 p' eq_refl) as (e'' & post'' & P' & Q).
      inversion Q; subst e'' post''.
      exists p'; split; [reflexivity|exact P'].
    + discriminate (N1 eq_refl).
  - intros ->; unfold pr_itor_prev; simpl.
    destruct (node_prev p) as [p'|] eqn:E; [|reflexivity].
    destruct (V2 p' eq_refl) as (pre'' & e'' & _ & Q).
    destruct pre''; discriminate.
  - intros pre' e' ->; unfold pr_itor_prev; simpl.
    destruct (node_prev p) as [p'|] eqn:E.
    + destruct (V2 p' eq_refl) as (pre'' & e'' & P' & Q).
      apply app_inj_tail in Q as [-> ->].
      exists p'; split; [reflexivity|exact P'].
    + exfalso; apply (app_cons_not_nil pre' [] e'); symmetry; exact (V1 eq_refl).
Qed.

Lemma C8_cursor_moves_witness :
  let t := insert_keys (mk_tree Nil 0 dict_ptr_cmp) [2; 1; 3]%Z in
  exists p e post,
    pr_itor_new t true = Some (mk_itor t (Some p)) /\ pos_at (root t) p [] e post.
Proof.
  intros t.
  destruct (C8_cursor_moves t) as (_ & H & _).
  apply H; vm_compute; discriminate.
Defined.

(** Claim C9: pr_tree_new fails only when its allocation fails, whatever the
    comparator argument; given a null comparator ([None]) it creates an empty
    tree whose comparator is [dict_ptr_cmp], the comparison of the key
    pointers as addresses, and in every tree reachable with that comparator
    the in-order keys are strictly ascending as addresses. *)
Theorem C9_null_comparator :
  (forall cmp, exists t, pr_tree_new cmp true = Some t /\ root t = Nil /\ count t = 0) /\
  (forall cmp al, pr_tree_new cmp al = None <-> al = false) /\
  (forall t, pr_tree_new None true = Some t ->
     reachable t /\ key_cmp t = dict_ptr_cmp) /\
  (forall t : pr_tree ptr, reachable t -> key_cmp t = dict_ptr_cmp ->
     StronglySorted Z.lt (keys (root t))).
Proof.
  split; [|split; [|split]].
  - intros cmp; eexists; split; [reflexivity|split; reflexivity].
  - intros cmp [|]; simpl; split; congruence.
  - intros t H; simpl in H; inversion H; subst t; split; [apply reach_new|reflexivity].
  - intros t Ht Hk.
    apply ascending_dict_ptr_cmp.
    pose proof (reachable_sorted t Ht) as S; rewrite Hk in S.
    exact (S strict_total_dict_ptr_cmp).
Qed.

Lemma C9_null_comparator_witness :
  reachable (mk_tree Nil 0 dict_ptr_cmp) /\
  StronglySorted Z.lt (keys (root (insert_keys (mk_tree Nil 0 dict_ptr_cmp) [9; 4; 6]%Z))).
Proof.
  destruct C9_null_comparator as (_ & _ & H3 & H4).
  split; [exact (proj1 (H3 _ eq_refl))|].
  apply H4; [apply reachable_insert_keys, reach_new|reflexivity].
Defined.

(** Claim C10: the absent marker is NULL: in a reachable tree with a strict
    total order, pr_tree_search returns NULL for an absent key and the stored
    datum itself for a present one, so a key stored with a NULL datum is
    searched exactly like an absent key; pr_tree_probe tells them apart (0
    versus 1); an unbound cursor reads NULL as key ([None]) and as datum, and
    a bound one reads its node's pair. *)
Theorem C10_null_marker {K : Type} (t : pr_tree K) :
  reachable t -> strict_total (key_cmp t) ->
  (forall key, ~ In key (keys (root t)) -> pr_tree_search t key = NULL) /\
  (forall key d, In (key, d) (inorder (root t)) -> pr_tree_search t key = d) /\
  (forall key key', In (key, NULL) (inorder (root t)) -> ~ In key' (keys (root t)) ->
     pr_tree_search t key = pr_tree_search t key') /\
  (forall key key' slot, In (key, NULL) (inorder (root t)) -> ~ In key' (keys (root t)) ->
     fst (fst (pr_tree_probe t key slot true)) = 0%Z /\
     fst (fst (pr_tree_probe t key' slot true)) = 1%Z) /\
  (pr_itor_key (mk_itor t None) = None /\ pr_itor_data (mk_itor t None) = NULL) /\
  (forall p pre e post, pos_at (root t) p pre e post ->
     pr_itor_key (mk_itor t (Some p)) = Some (fst e) /\
     pr_itor_data (mk_itor t (Some p)) = snd e).
Proof.
  intros Ht Hc.
  pose proof (reachable_sorted t Ht Hc) as Hs.
  assert (Miss : forall key, ~ In key (keys (root t)) -> pr_tree_search t key = NULL)
    by (intros key Ha; apply (search_absent _ Hc); assumption).
  assert (Hit : forall key d, In (key, d) (inorder (root t)) -> pr_tree_search t key = d)
    by (intros key d Hin; apply (search_in _ Hc); assumption).
  split; [exact Miss|]; split; [exact Hit|].
  split; [intros key key' H1 H2; rewrite (Hit _ _ H1), (Miss _ H2); reflexivity|].
  split.
  { intros key key' slot H1 H2; split.
    - unfold pr_tree_probe.
      rewrite (probe_present _ Hc key slot true (root t) Hs); [reflexivity|].
      apply (in_keys _ (key, NULL)); exact H1.
    - destruct (proj1 (probe_absent (key_cmp t) key' slot true (root t)
                         (absent_not_eq _ Hc key' (root t) H2)) eq_refl) as [n' E].
      rewrite (probe_new_code t key' slot true n' E); reflexivity. }
  split; [split; reflexivity|].
  intros p pre e post (H1 & H2 & _ & _).
  unfold pr_itor_key, pr_itor_data, pos_key, pos_datum; simpl.
  unfold pos_entry in H2; destruct (fst p); [discriminate|].
  inversion H2; subst e; split; reflexivity.
Qed.

Lemma C10_null_marker_witness :
  let t := snd (pr_tree_insert (mk_tree Nil 0 dict_ptr_cmp) 5%Z NULL 0%Z true) in
  pr_tree_search t 5%Z = pr_tree_search t 6%Z.
Proof.
  intros t.
  assert (R : reachable t) by (apply reach_insert, reach_new).
  destruct (C10_null_marker t R strict_total_dict_ptr_cmp) as (_ & _ & H & _).
  apply H; vm_compute; [left; reflexivity|].
  intros [E|[]]; discriminate.
Defined.

(** * The other functions of pr_tree.c *)

Section More.

Context {K : Type}.

Lemma weight_count (n : pr_node K) : weights_ok n -> WEIGHT n = S (node_count n).
Proof. induction n; simpl; intuition lia. Qed.

Lemma reachable_count (t : pr_tree K) : reachable t -> count t = node_count (root t).
Proof.
  intros Ht; induction Ht as [c|t key datum ow al Ht IH|t key slot al Ht IH|t key Ht IH|t Ht IH].
  - reflexivity.
  - pose proof (reachable_weights t Ht) as W.
    destruct (weights_node_insert (key_cmp t) key datum ow al (root t) W) as [W1 W2].
    unfold pr_tree_insert; destruct (node_insert _ _ _ _ _ _) as [|n| |n] eqn:E; auto.
    + destruct (W2 n eq_refl) as [A B]; simpl.
      rewrite (weight_count _ A), (weight_count _ W) in B; lia.
    + destruct (W1 n eq_refl) as [A B].
      rewrite (weight_count _ A), (weight_count _ W) in B.
      destruct (root t); simpl in *; lia.
  - pose proof (reachable_weights t Ht) as W.
    pose proof (weights_node_probe (key_cmp t) key slot al (root t) W) as W1.
    unfold pr_tree_probe; destruct (node_probe _ _ _ _ _) as [| |n] eqn:E; auto.
    destruct (W1 n eq_refl) as [A B].
    rewrite (weight_count _ A), (weight_count _ W) in B.
    destruct (root t); simpl in *; lia.
  - pose proof (reachable_weights t Ht) as W.
    unfold pr_tree_remove; destruct (remove_loop _ _ key (root t)) as [[n|]|] eqn:E; auto.
    destruct (weights_remove_loop _ _ _ _ W n E) as [A B].
    rewrite (weight_count _ A), (weight_count _ W) in B; simpl; lia.
  - reflexivity.
Qed.

Lemma empty_loop_spec fuel (n : pr_node K) ctx :
  n <> Nil -> 2 * node_count n + ctx_steps ctx <= S fuel ->
  empty_loop fuel n ctx = postorder n ++ ctx_dels ctx.
Proof.
  revert n ctx; induction fuel as [|fuel IH]; intros n ctx Hn Hf.
  - destruct n as [|l k d w r]; [congruence|simpl in Hf; lia].
  - destruct n as [|l k d w r]; [congruence|].
    cbn [empty_loop].
    destruct l as [|ll lk ld lw lr].
    + destruct r as [|rl rk rd rw rr].
      * destruct ctx as [|[pk pd pw pr|pl pk pd pw] c]; [reflexivity| |].
        -- cbn [ctx_steps] in Hf; simpl in Hf.
           rewrite IH; [|discriminate|simpl; lia].
           simpl; rewrite <- !app_assoc; reflexivity.
        -- cbn [ctx_steps] in Hf; simpl in Hf.
           rewrite IH; [|discriminate|simpl; lia].
           simpl; rewrite <- !app_assoc; try rewrite app_nil_r; reflexivity.
      * rewrite IH; [|discriminate|simpl in *; lia].
        simpl; rewrite <- !app_assoc; reflexivity.
    + rewrite IH; [|discriminate|simpl in *; lia].
      cbn [postorder ctx_dels]; rewrite <- !app_assoc; reflexivity.
Qed.

Lemma empty_dels_postorder (t : pr_tree K) : pr_tree_empty_dels t = postorder (root t).
Proof.
  unfold pr_tree_empty_dels; destruct (root t) as [|l k d w r] eqn:R; [reflexivity|].
  rewrite empty_loop_spec; [apply app_nil_r|discriminate|simpl; lia].
Qed.

Lemma postorder_perm (n : pr_node K) : Permutation (postorder n) (inorder n).
Proof.
  induction n as [|l IHl k d w r IHr]; simpl; [constructor|].
  apply Permutation_app; [exact IHl|].
  apply (Permutation_trans (Permutation_app_comm _ _)); simpl.
  constructor; exact IHr.
Qed.

Lemma min_loop_keys (n : pr_node K) : min_loop n = hd_error (keys n).
Proof.
  induction n as [|l IHl k d w r IHr]; [reflexivity|].
  rewrite keys_node; simpl.
  destruct l as [|ll lk ld lw lr]; [reflexivity|].
  rewrite IHl, !keys_node; destruct (keys ll); reflexivity.
Qed.

Lemma max_loop_keys (n : pr_node K) : max_loop n = hd_error (rev (keys n)).
Proof.
  induction n as [|l IHl k d w r IHr]; [reflexivity|].
  rewrite keys_node, rev_app_distr; simpl.
  destruct r as [|rl rk rd rw rr]; [reflexivity|].
  rewrite IHr, !keys_node, !rev_app_distr; simpl.
  destruct (rev (keys rr)); reflexivity.
Qed.

Lemma height_lt_count (n : pr_node K) : n <> Nil -> node_height n < node_count n.
Proof.
  induction n as [|l IHl k d w r IHr]; intros Hn; [congruence|].
  cbn [node_height node_count].
  destruct l as [|ll lk ld lw lr]; destruct r as [|rl rk rd rw rr]; simpl; [lia| | |].
  - specialize (IHr ltac:(discriminate)); simpl in IHr; lia.
  - specialize (IHl ltac:(discriminate)); simpl in IHl; lia.
  - specialize (IHl ltac:(discriminate)); specialize (IHr ltac:(discriminate)).
    simpl in IHl, IHr; lia.
Qed.

Lemma mheight_le_height (n : pr_node K) : node_mheight n <= node_height n.
Proof.
  induction n as [|l IHl k d w r IHr]; [reflexivity|]; simpl.
  destruct l, r; simpl in *; lia.
Qed.

Lemma mheight_full (n : pr_node K) :
  n <> Nil -> 2 ^ S (node_mheight n) <= S (node_count n).
Proof.
  induction n as [|l IHl k d w r IHr]; intros Hn; [congruence|].
  cbn [node_mheight node_count].
  destruct l as [|ll lk ld lw lr]; destruct r as [|rl rk rd rw rr];
    try (simpl; lia).
  specialize (IHl ltac:(discriminate)); specialize (IHr ltac:(discriminate)).
  set (L := Node ll lk ld lw lr) in *; set (R := Node rl rk rd rw rr) in *.
  rewrite Nat.pow_succ_r'.
  assert (B1 : 2 ^ Nat.min (S (node_mheight L)) (S (node_mheight R)) <= 2 ^ S (node_mheight L))
    by (apply Nat.pow_le_mono_r; lia).
  assert (B2 : 2 ^ Nat.min (S (node_mheight L)) (S (node_mheight R)) <= 2 ^ S (node_mheight R))
    by (apply Nat.pow_le_mono_r; lia).
  lia.
Qed.

Lemma height_bound (n : pr_node K) : S (node_count n) <= 2 ^ S (node_height n).
Proof.
  induction n as [|l IHl k d w r IHr]; [simpl; lia|].
  cbn [node_height node_count].
  assert (Hl : S (node_count l) <= 2 ^ (match l with Nil => 0 | _ => S (node_height l) end)).
  { destruct l; [simpl; lia|exact IHl]. }
  assert (Hr : S (node_count r) <= 2 ^ (match r with Nil => 0 | _ => S (node_height r) end)).
  { destruct r; [simpl; lia|exact IHr]. }
  rewrite Nat.pow_succ_r'.
  assert (B1 : 2 ^ (match l with Nil => 0 | _ => S (node_height l) end) <=
               2 ^ Nat.max (match l with Nil => 0 | _ => S (node_height l) end)
                           (match r with Nil => 0 | _ => S (node_height r) end))
    by (apply Nat.pow_le_mono_r; lia).
  assert (B2 : 2 ^ (match r with Nil => 0 | _ => S (node_height r) end) <=
               2 ^ Nat.max (match l with Nil => 0 | _ => S (node_height l) end)
                           (match r with Nil => 0 | _ => S (node_height r) end))
    by (apply Nat.pow_le_mono_r; lia).
  lia.
Qed.

End More.

Section Cursor2.

Context {K : Type}.

Lemma next_steps_none (k : nat) : next_steps k (@None (pos K)) = None.
Proof. destruct k; reflexivity. Qed.

Lemma prev_steps_none (k : nat) : prev_steps k (@None (pos K)) = None.
Proof. destruct k; reflexivity. Qed.

Lemma next_steps_spec (rt : pr_node K) k : forall p pre e post,
  pos_at rt p pre e post ->
  (k <= length post -> exists p' pre' e' post', next_steps k (Some p) = Some p' /\
     pos_at rt p' pre' e' post' /\ length pre' = length pre + k) /\
  (length post < k -> next_steps k (Some p) = None).
Proof.
  induction k as [|k IH]; intros p pre e post Hp.
  - split; [intros _; exists p, pre, e, post; split; [reflexivity|split; [exact Hp|lia]]|lia].
  - pose proof (node_next_spec rt p pre e post Hp) as [N1 N2].
    cbn [next_steps].
    destruct post as [|e1 post1].
    + destruct (node_next p) as [p'|] eqn:E.
      * destruct (N2 p' eq_refl) as (e' & post' & _ & Q); discriminate.
      * split; [simpl; lia|intros _; apply next_steps_none].
    + destruct (node_next p) as [p'|] eqn:E; [|discriminate (N1 eq_refl)].
      destruct (N2 p' eq_refl) as (e' & post' & P & Q).
      destruct (IH p' _ _ _ P) as [I1 I2].
      inversion Q; subst e1 post1.
      split.
      * intros Hk; destruct (I1 ltac:(simpl in Hk; lia)) as (p'' & pre'' & e'' & post'' & A & B & C).
        exists p'', pre'', e'', post''; split; [exact A|split; [exact B|]].
        rewrite C, length_app; simpl; lia.
      * intros Hk; apply I2; simpl in Hk; lia.
Qed.

Lemma prev_steps_spec (rt : pr_node K) k : forall p pre e post,
  pos_at rt p pre e post ->
  (k <= length pre -> exists p' pre' e' post', prev_steps k (Some p) = Some p' /\
     pos_at rt p' pre' e' post' /\ length post' = length post + k) /\
  (length pre < k -> prev_steps k (Some p) = None).
Proof.
  induction k as [|k IH]; intros p pre e post Hp.
  - split; [intros _; exists p, pre, e, post; split; [reflexivity|split; [exact Hp|lia]]|lia].
  - pose proof (node_prev_spec rt p pre e post Hp) as [N1 N2].
    cbn [prev_steps].
    destruct pre as [|e1 pre1] using rev_ind.
    + destruct (node_prev p) as [p'|] eqn:E.
      * destruct (N2 p' eq_refl) as (pre' & e' & _ & Q).
        destruct pre'; discriminate.
      * split; [simpl; lia|intros _; apply prev_steps_none].
    + clear IHpre1.
      destruct (node_prev p) as [p'|] eqn:E;
        [|pose proof (N1 eq_refl) as Z; destruct pre1; discriminate].
      destruct (N2 p' eq_refl) as (pre' & e' & P & Q).
      apply app_inj_tail in Q as [-> ->].
      destruct (IH p' _ _ _ P) as [I1 I2].
      rewrite length_app; simpl.
      split.
      * intros Hk; destruct (I1 ltac:(lia)) as (p'' & pre'' & e'' & post'' & A & B & C).
        exists p'', pre'', e'', post''; split; [exact A|split; [exact B|]].
        rewrite C; simpl; lia.
      * intros Hk; apply I2; lia.
Qed.

Lemma search_pos_some (c : K -> K -> comparison) key (n : pr_node K) : forall ctx p,
  search_pos c key n ctx = Some p ->
  exists pre e post, pos_at (plug ctx n) p pre e post /\ c key (fst e) = Eq /\
    snd e = node_search c key n.
Proof.
  induction n as [|l IHl k d w r IHr]; intros ctx p H; [discriminate|].
  simpl in H |- *; destruct (c key k) eqn:E.
  - inversion H; subst p.
    exists (ctx_pre ctx ++ inorder l), (k, d), (inorder r ++ ctx_post ctx).
    unfold pos_at; simpl; auto.
  - exact (IHl _ _ H).
  - exact (IHr _ _ H).
Qed.

Lemma search_pos_absent (c : K -> K -> comparison) key (n : pr_node K) : forall ctx,
  (forall e, In e (inorder n) -> c key (fst e) <> Eq) -> search_pos c key n ctx = None.
Proof.
  induction n as [|l IHl k d w r IHr]; intros ctx Ha; [reflexivity|].
  assert (Hk : c key k <> Eq) by (apply (Ha (k, d)); simpl; apply in_or_app; simpl; auto).
  simpl; destruct (c key k); [congruence| |].
  - apply IHl; intros; apply Ha; simpl; apply in_or_app; auto.
  - apply IHr; intros; apply Ha; simpl; apply in_or_app; simpl; auto.
Qed.

Lemma search_pos_present (c : K -> K -> comparison) (Hc : strict_total c) key
    (n : pr_node K) : forall ctx,
  sorted c n -> In key (keys n) -> search_pos c key n ctx <> None.
Proof.
  induction n as [|l IHl k d w r IHr]; intros ctx Hs Hin; [destruct Hin|].
  apply (sorted_node c Hc) in Hs as (Sl & Sr & Fl & Fr); rewrite Forall_forall in Fl, Fr.
  rewrite keys_node in Hin; apply in_app_or in Hin.
  simpl; destruct (c key k) eqn:E; [discriminate| |].
  - destruct Hin as [Hin|[<-|Hin]].
    + apply IHl; auto.
    + rewrite (c_refl c Hc) in E; discriminate.
    + apply Fr in Hin; pose proof (c_trans c Hc _ _ _ E Hin) as G.
      rewrite (c_refl c Hc) in G; discriminate.
  - destruct Hin as [Hin|[<-|Hin]].
    + apply Fl in Hin; pose proof (c_trans c Hc _ _ _ Hin (c_gt c Hc _ _ E)) as G.
      rewrite (c_refl c Hc) in G; discriminate.
    + rewrite (c_refl c Hc) in E; discriminate.
    + apply IHr; auto.
Qed.

Lemma lookup_mid (c : K -> K -> comparison) key k a b (xs ys : list (K * ptr)) :
  c key k <> Eq -> lookup c key (xs ++ (k, a) :: ys) = lookup c key (xs ++ (k, b) :: ys).
Proof.
  intros H; unfold lookup; induction xs as [|x xs IH]; simpl.
  - destruct (c key k); [congruence|reflexivity|reflexivity].
  - destruct (c key (fst x)); auto.
Qed.

Lemma walk_loop_all (rt : pr_node K) visit fuel : forall p pre e post cnt,
  pos_at rt p pre e post -> length post < fuel ->
  Forall (fun x => visit (fst x) (snd x) = true) (e :: post) ->
  walk_loop fuel visit (Some p) cnt = (cnt + S (length post), e :: post).
Proof.
  induction fuel as [|fuel IH]; intros p pre e post cnt Hp Hf Hv; [lia|].
  pose proof (node_next_spec rt p pre e post Hp) as [N1 N2].
  destruct Hp as (H1 & H2 & H3 & H4).
  destruct p as [[|l k d w r] ctx]; [discriminate|].
  simpl in H2; inversion H2; subst e; clear H2.
  inversion Hv as [|? ? V1 V2]; subst; simpl in V1.
  cbn [walk_loop]; rewrite V1.
  destruct (node_next (Node l k d w r, ctx)) as [p'|] eqn:E.
  - destruct (N2 p' eq_refl) as (e' & post' & P & Q).
    rewrite <- Q in Hf, V2 |- *.
    rewrite (IH p' _ e' post' (S cnt) P); [simpl; f_equal; lia|simpl in Hf; lia|exact V2].
  - rewrite (N1 eq_refl); destruct fuel; simpl; f_equal; lia.
Qed.

Lemma walk_loop_stop (rt : pr_node K) visit fuel : forall p pre e post cnt ys z zs,
  pos_at rt p pre e post -> length post < fuel -> e :: post = ys ++ z :: zs ->
  Forall (fun x => visit (fst x) (snd x) = true) ys -> visit (fst z) (snd z) = false ->
  walk_loop fuel visit (Some p) cnt = (cnt + S (length ys), ys ++ [z]).
Proof.
  induction fuel as [|fuel IH]; intros p pre e post cnt ys z zs Hp Hf Hs Hv Hz; [lia|].
  pose proof (node_next_spec rt p pre e post Hp) as [N1 N2].
  destruct Hp as (H1 & H2 & H3 & H4).
  destruct p as [[|l k d w r] ctx]; [discriminate|].
  simpl in H2; inversion H2; subst e; clear H2.
  cbn [walk_loop].
  destruct ys as [|y ys].
  - simpl in Hs; inversion Hs; subst z zs; simpl in Hz; rewrite Hz.
    simpl; f_equal; lia.
  - simpl in Hs; injection Hs as Ey Ep; subst y.
    inversion Hv as [|? ? V1 V2]; simpl in V1; rewrite V1.
    destruct (node_next (Node l k d w r, ctx)) as [p'|] eqn:E.
    + destruct (N2 p' eq_refl) as (e' & post' & P & Q).
      rewrite (IH p' _ e' post' (S cnt) ys z zs P); [simpl; f_equal; lia| | |exact V2|exact Hz].
      * rewrite <- Q in Hf; simpl in Hf; lia.
      * congruence.
    + pose proof (N1 eq_refl) as Z; rewrite Z in Ep; destruct ys; simpl in Ep; discriminate Ep.
Qed.

End Cursor2.

Section PathLen.

Context {K : Type}.

Lemma pathlen_succ (n : pr_node K) : forall L,
  pathlen_nat n (S L) = pathlen_nat n L + (node_count n - 1).
Proof.
  induction n as [|l IHl k d w r IHr]; intros L; [reflexivity|].
  cbn [pathlen_nat node_count].
  assert (El : match l with Nil => 0 | _ => S L + pathlen_nat l (S (S L)) end =
               match l with Nil => 0 | _ => L + pathlen_nat l (S L) end + node_count l).
  { destruct l as [|ll lk ld lw lr]; [reflexivity|].
    rewrite (IHl (S L)); cbn [node_count]; lia. }
  assert (Er : match r with Nil => 0 | _ => S L + pathlen_nat r (S (S L)) end =
               match r with Nil => 0 | _ => L + pathlen_nat r (S L) end + node_count r).
  { destruct r as [|rl rk rd rw rr]; [reflexivity|].
    rewrite (IHr (S L)); cbn [node_count]; lia. }
  rewrite El, Er; lia.
Qed.

Lemma pathlen_child (n : pr_node K) :
  match n with Nil => 0 | _ => 1 + pathlen_nat n 2 end = pathlen_nat n 1 + node_count n.
Proof.
  destruct n as [|l k d w r]; [reflexivity|].
  rewrite (pathlen_succ (Node l k d w r) 1); cbn [node_count]; lia.
Qed.

Lemma pathlen_node (l r : pr_node K) k d w :
  pathlen_nat (Node l k d w r) 1 =
  pathlen_nat l 1 + node_count l + pathlen_nat r 1 + node_count r.
Proof.
  change (pathlen_nat (Node l k d w r) 1) with
    (match l with Nil => 0 | _ => 1 + pathlen_nat l 2 end +
     match r with Nil => 0 | _ => 1 + pathlen_nat r 2 end).
  rewrite !pathlen_child; lia.
Qed.

Lemma count_fixup_fuel f (n : pr_node K) : node_count (fixup_fuel f n) = node_count n.
Proof. rewrite <- !length_inorder, inorder_fixup_fuel; reflexivity. Qed.

Lemma pathlen_fixup_fuel f : forall n : pr_node K,
  weights_ok n ->
  fixup_fuel f n = n \/ pathlen_nat (fixup_fuel f n) 1 < pathlen_nat n 1.
Proof.
  induction f as [|f IH]; intros n Hn.
  - destruct n; left; reflexivity.
  - assert (IHle : forall x : pr_node K, weights_ok x ->
                   pathlen_nat (fixup_fuel f x) 1 <= pathlen_nat x 1).
    { intros x Hx; destruct (IH x Hx) as [->|H]; lia. }
    assert (IHopt : forall x : pr_node K, weights_ok x ->
      pathlen_nat (match x with Nil => Nil | _ => fixup_fuel f x end) 1 <= pathlen_nat x 1 /\
      node_count (match x with Nil => Nil | _ => fixup_fuel f x end) = node_count x).
    { intros x Hx; destruct x; [split; reflexivity|].
      rewrite count_fixup_fuel; split; [apply IHle; exact Hx|reflexivity]. }
    destruct n as [|l k d w r]; [left; reflexivity|].
    destruct Hn as (Hw & Hl & Hr).
    pose proof (weight_pos l Hl) as Pl; pose proof (weight_pos r Hr) as Pr.
    cbn [fixup_fuel].
    destruct (WEIGHT l <? WEIGHT r) eqn:E1.
    + destruct (WEIGHT l <? WEIGHT (rlink_of r)) eqn:E2.
      * (* LL *)
        apply Nat.ltb_lt in E2.
        destruct r as [|C dk dd dw E]; [simpl in E2; lia|].
        destruct Hr as (Hdw & HC & HE).
        cbn [rot_left rlink_of] in *.
        right; rewrite !pathlen_node, count_fixup_fuel.
        pose proof (IHle (Node l k d (WEIGHT l + WEIGHT C) C)) as B.
        rewrite pathlen_node in B; specialize (B ltac:(simpl; auto)).
        rewrite (weight_count _ Hl), (weight_count _ HE) in E2; cbn [node_count]; lia.
      * destruct (WEIGHT l <? WEIGHT (llink_of r)) eqn:E3; [|left; reflexivity].
        (* RL *)
        apply Nat.ltb_lt in E3.
        destruct r as [|C0 dk dd dw E]; [simpl in E3; lia|].
        destruct C0 as [|C1 ck cd cw C2]; [simpl in E3; lia|].
        destruct Hr as (Hdw & (Hcw & HC1 & HC2) & HE).
        cbn [rot_left rot_right llink_of] in *.
        right.
        destruct (IHopt E HE) as [Q1 Q2].
        rewrite !pathlen_node, count_fixup_fuel.
        cbn [node_count]; rewrite Q2.
        pose proof (IHle (Node l k d (WEIGHT l + WEIGHT C1) C1)) as B.
        rewrite pathlen_node in B; specialize (B ltac:(simpl; auto)).
        assert (W3 : WEIGHT l < WEIGHT (Node C1 ck cd cw C2)) by exact E3.
        rewrite (weight_count _ Hl), (weight_count (Node C1 ck cd cw C2))
          in W3 by (simpl; auto).
        cbn [node_count] in W3 |- *; lia.
    + destruct (WEIGHT r <? WEIGHT l) eqn:E1'; [|left; reflexivity].
      destruct (WEIGHT r <? WEIGHT (llink_of l)) eqn:E2.
      * (* RR *)
        apply Nat.ltb_lt in E2.
        destruct l as [|A bk bd bw C]; [simpl in E2; lia|].
        destruct Hl as (Hbw & HA & HC).
        cbn [rot_right llink_of] in *.
        right; rewrite !pathlen_node, count_fixup_fuel.
        pose proof (IHle (Node C k d (WEIGHT C + WEIGHT r) r)) as B.
        rewrite pathlen_node in B; specialize (B ltac:(simpl; auto)).
        rewrite (weight_count _ Hr), (weight_count _ HA) in E2; cbn [node_count]; lia.
      * destruct (WEIGHT r <? WEIGHT (rlink_of l)) eqn:E3; [|left; reflexivity].
        (* LR *)
        apply Nat.ltb_lt in E3.
        destruct l as [|A bk bd bw C0]; [simpl in E3; lia|].
        destruct C0 as [|C1 ck cd cw C2]; [simpl in E3; lia|].
        destruct Hl as (Hbw & HA & (Hcw & HC1 & HC2)).
        cbn [rot_left rot_right rlink_of] in *.
        right.
        destruct (IHopt A HA) as [Q1 Q2].
        rewrite !pathlen_node, count_fixup_fuel.
        cbn [node_count]; rewrite Q2.
        pose proof (IHle (Node C2 k d (WEIGHT C2 + WEIGHT r) r)) as B.
        rewrite pathlen_node in B; specialize (B ltac:(simpl; auto)).
        assert (W3 : WEIGHT r < WEIGHT (Node C1 ck cd cw C2)) by exact E3.
        rewrite (weight_count _ Hr), (weight_count (Node C1 ck cd cw C2))
          in W3 by (simpl; auto).
        cbn [node_count] in W3 |- *; lia.
Qed.

Lemma u32_add a b :
  u32 (N.of_nat a mod 4294967296 + N.of_nat b mod 4294967296) =
  (N.of_nat (a + b) mod 4294967296)%N.
Proof.
  unfold u32; rewrite Nat2N.inj_add, (N.Div0.add_mod (N.of_nat a)); reflexivity.
Qed.

Lemma u32_mod x : u32 (x mod 4294967296) = (x mod 4294967296)%N.
Proof. unfold u32; apply N.Div0.mod_mod. Qed.

Lemma u32_succ L : u32 (N.of_nat L mod 4294967296 + 1) = (N.of_nat (S L) mod 4294967296)%N.
Proof.
  replace (S L) with (L + 1) by lia; rewrite <- u32_add; reflexivity.
Qed.

(** The [unsigned] sum is the unbounded one reduced modulo 2^32. *)
Lemma node_pathlen_nat (n : pr_node K) : forall L,
  node_pathlen n (N.of_nat L mod 4294967296) = (N.of_nat (pathlen_nat n L) mod 4294967296)%N.
Proof.
  induction n as [|l IHl k d w r IHr]; intros L; [reflexivity|].
  cbn [node_pathlen pathlen_nat].
  destruct l as [|l1 k1 d1 w1 r1]; destruct r as [|l2 k2 d2 w2 r2];
    rewrite ?u32_succ, ?IHl, ?IHr, ?u32_add, ?N.add_0_l, ?u32_mod, ?u32_add;
    try reflexivity; f_equal; f_equal; lia.
Qed.

Lemma pathlen_square (n : pr_node K) : pathlen_nat n 1 <= node_count n * node_count n.
Proof.
  induction n as [|l IHl k d w r IHr]; [reflexivity|].
  rewrite pathlen_node; cbn [node_count]; nia.
Qed.

End PathLen.

Section Splits.

Context {K : Type}.
Variable c : K -> K -> comparison.
Hypothesis Hc : strict_total c.

Lemma split_unique (xs ys xs' ys' : list (K * ptr)) e e' :
  StronglySorted (fun a b => c a b = Lt) (map fst (xs ++ e :: ys)) ->
  xs ++ e :: ys = xs' ++ e' :: ys' -> c (fst e) (fst e') = Eq ->
  xs = xs' /\ e = e' /\ ys = ys'.
Proof.
  revert xs'; induction xs as [|a xs IH]; intros xs' S E Q.
  - destruct xs' as [|x xs']; simpl in E.
    + inversion E; auto.
    + inversion E; subst x ys.
      simpl in S; inversion S as [|? ? _ F]; subst.
      rewrite Forall_forall in F.
      assert (L : c (fst e) (fst e') = Lt)
        by (apply F; rewrite map_app; apply in_or_app; simpl; auto).
      congruence.
  - destruct xs' as [|x xs']; simpl in E.
    + inversion E; subst e'.
      simpl in S; inversion S as [|? ? _ F]; subst.
      rewrite Forall_forall in F.
      assert (L : c (fst a) (fst e) = Lt)
        by (apply F; rewrite map_app; apply in_or_app; simpl; auto).
      apply (c_eq c Hc) in Q; rewrite Q, (c_refl c Hc) in L; discriminate.
    + inversion E; subst x.
      simpl in S; inversion S; subst.
      destruct (IH xs' ltac:(assumption) ltac:(assumption) Q) as (-> & -> & ->); auto.
Qed.

Lemma gap_unique key (xs ys xs' ys' : list (K * ptr)) :
  xs ++ ys = xs' ++ ys' ->
  Forall (fun e => c (fst e) key = Lt) xs -> Forall (fun e => c key (fst e) = Lt) ys ->
  Forall (fun e => c (fst e) key = Lt) xs' -> Forall (fun e => c key (fst e) = Lt) ys' ->
  xs = xs' /\ ys = ys'.
Proof.
  revert xs'; induction xs as [|a xs IH]; intros xs' E F1 F2 F3 F4.
  - destruct xs' as [|x xs']; [simpl in E; auto|].
    simpl in E; subst ys.
    inversion F2 as [|? ? G _]; inversion F3 as [|? ? G' _]; subst.
    pose proof (c_trans c Hc _ _ _ G G') as Z; rewrite (c_refl c Hc) in Z; discriminate.
  - destruct xs' as [|x xs'].
    + simpl in E; subst ys'.
      inversion F1 as [|? ? G _]; inversion F4 as [|? ? G' _]; subst.
      pose proof (c_trans c Hc _ _ _ G' G) as Z; rewrite (c_refl c Hc) in Z; discriminate.
    + simpl in E; inversion E; subst x.
      inversion F1; inversion F3; subst.
      destruct (IH xs' ltac:(assumption) ltac:(assumption) F2 ltac:(assumption) F4)
        as [-> ->]; auto.
Qed.

End Splits.

(** * Properties of the other functions *)

Section Extra.

Context {K : Type}.

(** pr_tree_count, pr_tree_destroy and pr_tree_empty report the number of
    nodes: in every reachable tree the [count] field equals the number of
    nodes, which is what pr_tree_count returns and what pr_tree_destroy and
    pr_tree_empty return as the number of freed nodes. *)
Theorem pr_tree_count_nodes (t : pr_tree K) :
  reachable t ->
  pr_tree_count t = node_count (root t) /\
  pr_tree_destroy t = node_count (root t) /\
  fst (pr_tree_empty t) = node_count (root t).
Proof.
  intros Ht; pose proof (reachable_count t Ht) as H.
  unfold pr_tree_count, pr_tree_destroy, pr_tree_empty; simpl.
  split; [exact H|split; [|exact H]].
  destruct (root t); [reflexivity|exact H].
Qed.

(** The loop of pr_tree_empty hands every pair of the tree to [del_func]
    exactly once, in post-order (both subtrees of a node before the node):
    the sequence of deleted pairs is the post-order of the tree and a
    permutation of its in-order sequence. *)
Theorem pr_tree_empty_postorder (t : pr_tree K) :
  pr_tree_empty_dels t = postorder (root t) /\
  Permutation (pr_tree_empty_dels t) (inorder (root t)).
Proof.
  rewrite empty_dels_postorder; split; [reflexivity|apply postorder_perm].
Qed.

Lemma min_max_hd (t : pr_tree K) :
  pr_tree_min t = hd_error (keys (root t)) /\
  pr_tree_max t = hd_error (rev (keys (root t))).
Proof.
  unfold pr_tree_min, pr_tree_max.
  destruct (root t) as [|l k d w r]; [split; reflexivity|].
  split; [apply min_loop_keys|apply max_loop_keys].
Qed.

(** pr_tree_min follows the left links from the root and pr_tree_max the
    right links: they return the first and the last key of the in-order
    sequence of any tree, and NULL ([None]) for an empty tree. *)
Theorem pr_tree_min_max_inorder (t : pr_tree K) :
  pr_tree_min t = hd_error (keys (root t)) /\
  pr_tree_max t = hd_error (rev (keys (root t))).
Proof.
  unfold pr_tree_min, pr_tree_max.
  destruct (root t) as [|l k d w r]; [split; reflexivity|].
  split; [apply min_loop_keys|apply max_loop_keys].
Qed.

(** In a reachable tree whose comparator is a strict total order,
    pr_tree_min returns NULL exactly when the tree is empty, and otherwise a
    key of the tree smaller than every other key; pr_tree_max likewise
    returns a key greater than every other key. *)
Theorem pr_tree_min_max_order (t : pr_tree K) :
  reachable t -> strict_total (key_cmp t) ->
  (pr_tree_min t = None <-> root t = Nil) /\
  (pr_tree_max t = None <-> root t = Nil) /\
  (forall m, pr_tree_min t = Some m ->
     In m (keys (root t)) /\
     forall k, In k (keys (root t)) -> k <> m -> key_cmp t m k = Lt) /\
  (forall m, pr_tree_max t = Some m ->
     In m (keys (root t)) /\
     forall k, In k (keys (root t)) -> k <> m -> key_cmp t k m = Lt).
Proof.
  intros Ht Hc.
  pose proof (reachable_sorted t Ht Hc) as Hs; unfold sorted, ascending in Hs.
  destruct (min_max_hd t) as [Mn Mx].
  assert (NE : keys (root t) = [] <-> root t = Nil).
  { split; [|intros ->; reflexivity].
    destruct (root t) as [|l k d w r]; [auto|].
    rewrite keys_node; destruct (keys l); discriminate. }
  split; [|split; [|split]].
  - rewrite Mn, <- NE; destruct (keys (root t)); simpl; split; congruence.
  - rewrite Mx, <- NE; destruct (keys (root t)) as [|x xs] eqn:E; simpl; [split; auto|].
    destruct (rev xs ++ [x]) eqn:R; [destruct (rev xs); discriminate|].
    split; discriminate.
  - intros m H; rewrite Mn in H.
    destruct (keys (root t)) as [|x xs]; [discriminate|].
    simpl in H; inversion H; subst x.
    split; [left; reflexivity|].
    inversion Hs as [|? ? _ F]; subst; rewrite Forall_forall in F.
    intros k [<-|Hk] Hne; [congruence|apply F; exact Hk].
  - intros m H; rewrite Mx in H.
    destruct (rev (keys (root t))) as [|x xs] eqn:R; [discriminate|].
    simpl in H; inversion H; subst x.
    assert (E : keys (root t) = rev xs ++ [m])
      by (rewrite <- (rev_involutive (keys (root t))), R; reflexivity).
    rewrite E in Hs |- *.
    apply (SSorted_app (key_cmp t)) in Hs as (_ & _ & S3).
    split; [apply in_or_app; right; left; reflexivity|].
    intros k Hk Hne; apply in_app_or in Hk as [Hk|[<-|[]]]; [|congruence].
    apply S3; simpl; auto.
Qed.

(** The height statistics of a non-empty reachable tree: pr_tree_mheight is
    at most pr_tree_height, the height is below the node count, every level
    above the minimum leaf depth is full, [2^(mheight+1) <= count + 1], and
    the count is bounded by the height, [count + 1 <= 2^(height+1)]. *)
Theorem pr_tree_height_bounds (t : pr_tree K) :
  reachable t -> 0 < pr_tree_count t ->
  pr_tree_mheight t <= pr_tree_height t /\
  pr_tree_height t < pr_tree_count t /\
  2 ^ S (pr_tree_mheight t) <= S (pr_tree_count t) /\
  S (pr_tree_count t) <= 2 ^ S (pr_tree_height t).
Proof.
  intros Ht Hp.
  unfold pr_tree_count in *; rewrite (reachable_count t Ht) in *.
  unfold pr_tree_mheight, pr_tree_height.
  destruct (root t) as [|l k d w r]; [simpl in Hp; lia|].
  split; [apply mheight_le_height|].
  split; [apply height_lt_count; discriminate|].
  split; [apply mheight_full; discriminate|apply height_bound].
Qed.

(** fixup only rotates to shorten paths: on a subtree whose weights are
    consistent and which has fewer than 2^16 nodes (so that its total path
    length, at most the square of the node count, fits in [unsigned]), it
    either leaves the subtree as it is or returns one for which
    [node_pathlen] at level 1, the quantity pr_tree_pathlen reports for a
    root, is strictly smaller. *)
Theorem fixup_pathlen (n : pr_node K) :
  weights_ok n -> (N.of_nat (node_count n) < 65536)%N ->
  fixup n = n \/ (node_pathlen (fixup n) 1 < node_pathlen n 1)%N.
Proof.
  intros H Hn.
  assert (E : forall x : pr_node K, node_count x = node_count n ->
            node_pathlen x 1 = N.of_nat (pathlen_nat x 1)).
  { intros x Ex.
    transitivity (N.of_nat (pathlen_nat x 1) mod 4294967296)%N;
      [exact (node_pathlen_nat x 1)|apply N.mod_small].
    pose proof (pathlen_square x) as B; rewrite Ex in B; nia. }
  destruct (pathlen_fixup_fuel (node_count n) n H) as [A|A]; [left; exact A|right].
  unfold fixup; rewrite !E by (reflexivity || apply count_fixup_fuel); lia.
Qed.

(** pr_itor_nextn on a cursor at index i of the in-order sequence (i = the
    length of [pre]): for [k] not beyond the last pair it returns 1 and
    leaves the cursor at index i + k; past the last pair it returns 0 and
    leaves the cursor unbound. *)
Theorem pr_itor_nextn_bound (t : pr_tree K) p pre e post k :
  pos_at (root t) p pre e post ->
  (k <= length post -> exists p' pre' e' post',
     pr_itor_nextn (mk_itor t (Some p)) k = (1%Z, mk_itor t (Some p')) /\
     pos_at (root t) p' pre' e' post' /\ length pre' = length pre + k) /\
  (length post < k -> pr_itor_nextn (mk_itor t (Some p)) k = (0%Z, mk_itor t None)).
Proof.
  intros Hp; destruct (next_steps_spec (root t) k p pre e post Hp) as [N1 N2].
  destruct k as [|k].
  - split; [|lia]. intros _; exists p, pre, e, post; split; [reflexivity|split; [exact Hp|lia]].
  - split.
    + intros Hk; destruct (N1 Hk) as (p' & pre' & e' & post' & A & B & C).
      exists p', pre', e', post'; split; [|split; assumption].
      cbv beta iota zeta delta [pr_itor_nextn inode itree]; rewrite A; reflexivity.
    + intros Hk; cbv beta iota zeta delta [pr_itor_nextn inode itree]; rewrite (N2 Hk); reflexivity.
Qed.

(** pr_itor_prevn on a cursor at index i: for [k <= i] it returns 1 and
    leaves the cursor at index i - k (the number of pairs after it grows by
    k); for [k > i] it returns 0 and leaves the cursor unbound. *)
Theorem pr_itor_prevn_bound (t : pr_tree K) p pre e post k :
  pos_at (root t) p pre e post ->
  (k <= length pre -> exists p' pre' e' post',
     pr_itor_prevn (mk_itor t (Some p)) k = (1%Z, mk_itor t (Some p')) /\
     pos_at (root t) p' pre' e' post' /\ length post' = length post + k) /\
  (length pre < k -> pr_itor_prevn (mk_itor t (Some p)) k = (0%Z, mk_itor t None)).
Proof.
  intros Hp; destruct (prev_steps_spec (root t) k p pre e post Hp) as [N1 N2].
  destruct k as [|k].
  - split; [|lia]. intros _; exists p, pre, e, post; split; [reflexivity|split; [exact Hp|lia]].
  - split.
    + intros Hk; destruct (N1 Hk) as (p' & pre' & e' & post' & A & B & C).
      exists p', pre', e', post'; split; [|split; assumption].
      cbv beta iota zeta delta [pr_itor_prevn inode itree]; rewrite A; reflexivity.
    + intros Hk; cbv beta iota zeta delta [pr_itor_prevn inode itree]; rewrite (N2 Hk); reflexivity.
Qed.

(** pr_itor_nextn and pr_itor_prevn on an unbound cursor with a count of
    k + 1: the first step binds the cursor to the first (last) pair, the
    other k move it on; the cursor ends at index k from the start (from the
    end) when the tree has more than k nodes, and unbound with code 0
    otherwise (which includes the empty tree). *)
Theorem pr_itor_nextn_prevn_unbound (t : pr_tree K) k :
  (k < node_count (root t) -> exists p pre e post,
     pr_itor_nextn (mk_itor t None) (S k) = (1%Z, mk_itor t (Some p)) /\
     pos_at (root t) p pre e post /\ length pre = k) /\
  (node_count (root t) <= k ->
     pr_itor_nextn (mk_itor t None) (S k) = (0%Z, mk_itor t None)) /\
  (k < node_count (root t) -> exists p pre e post,
     pr_itor_prevn (mk_itor t None) (S k) = (1%Z, mk_itor t (Some p)) /\
     pos_at (root t) p pre e post /\ length post = k) /\
  (node_count (root t) <= k ->
     pr_itor_prevn (mk_itor t None) (S k) = (0%Z, mk_itor t None)).
Proof.
  cbv beta iota zeta delta [pr_itor_nextn pr_itor_prevn pr_itor_first pr_itor_last inode
                              itree snd].
  destruct (root t) as [|l kk d w r] eqn:R; cbv beta iota.
  - simpl; repeat split; try lia; intros _; rewrite next_steps_none || rewrite prev_steps_none;
      reflexivity.
  - destruct (node_min_spec (Node l kk d w r) []) as (e & post & P & Q); [discriminate|].
    destruct (node_max_spec (Node l kk d w r) []) as (pre' & e' & P' & Q'); [discriminate|].
    cbn [ctx_post ctx_pre plug app] in *; rewrite app_nil_r in Q.
    pose proof (f_equal (@length _) Q) as L; rewrite length_inorder in L; simpl in L.
    pose proof (f_equal (@length _) Q') as L'; rewrite length_app, length_inorder in L';
      simpl in L'.
    destruct (next_steps_spec _ k _ _ _ _ P) as [N1 N2].
    destruct (prev_steps_spec _ k _ _ _ _ P') as [M1 M2].
    cbn [node_count] in *; split; [|split; [|split]].
    + intros Hk; assert (Hk' : k <= length post) by lia.
      destruct (N1 Hk') as (p1 & pre1 & e1 & post1 & A & B & C).
      exists p1, pre1, e1, post1; rewrite A; simpl in *; auto.
    + intros Hk; assert (Hk' : length post < k) by lia.
      rewrite (N2 Hk'); reflexivity.
    + intros Hk; assert (Hk' : k <= length pre') by lia.
      destruct (M1 Hk') as (p1 & pre1 & e1 & post1 & A & B & C).
      exists p1, pre1, e1, post1; rewrite A; simpl in *; auto.
    + intros Hk; assert (Hk' : length pre' < k) by lia.
      rewrite (M2 Hk'); reflexivity.
Qed.

End Extra.

Section Frames.

Context {K : Type}.

Lemma absent_keys (c : K -> K -> comparison) (Hc : strict_total c) key (n : pr_node K) :
  (forall e, In e (inorder n) -> c key (fst e) <> Eq) -> ~ In key (keys n).
Proof.
  intros H Hin; unfold keys in Hin; apply in_map_iff in Hin as (e & E & He).
  apply (H e He); rewrite E; apply (c_refl c Hc).
Qed.

Lemma mid_bounds (c : K -> K -> comparison) (xs ys : list (K * ptr)) e :
  StronglySorted (fun a b => c a b = Lt) (map fst (xs ++ e :: ys)) ->
  Forall (fun x => c (fst x) (fst e) = Lt) xs /\ Forall (fun y => c (fst e) (fst y) = Lt) ys.
Proof.
  rewrite map_app; simpl; intros Hs; apply (SSorted_app c) in Hs as (_ & S2 & S3).
  inversion S2 as [|? ? _ F]; subst.
  split; rewrite Forall_forall in *.
  - intros x Hx; apply S3; [apply in_map; exact Hx|left; reflexivity].
  - intros y Hy; apply F, in_map; exact Hy.
Qed.

Lemma insert_frame (t : pr_tree K) key datum ow :
  reachable t -> strict_total (key_cmp t) -> ~ In key (keys (root t)) ->
  exists xs ys, inorder (root t) = xs ++ ys /\
    Forall (fun e => key_cmp t (fst e) key = Lt) xs /\
    Forall (fun e => key_cmp t key (fst e) = Lt) ys /\
    fst (pr_tree_insert t key datum ow true) = 0%Z /\
    inorder (root (snd (pr_tree_insert t key datum ow true))) = xs ++ (key, datum) :: ys /\
    pr_tree_count (snd (pr_tree_insert t key datum ow true)) = S (pr_tree_count t).
Proof.
  intros Ht Hc Ha.
  pose proof (reachable_sorted t Ht Hc) as Hs.
  pose proof (reachable_count t Ht) as Hn.
  destruct (insert_absent (key_cmp t) key datum ow true (root t)
              (absent_not_eq _ Hc key _ Ha)) as [A _].
  destruct (A eq_refl) as [n' E].
  destruct (insert_new_inorder _ Hc _ _ _ _ _ _ Hs E) as (xs & ys & H1 & H2 & H3 & H4).
  exists xs, ys; rewrite (insert_new_code t key datum ow true n' E).
  unfold pr_tree_count; simpl; repeat split; auto.
  destruct (root t); simpl in *; lia.
Qed.

Lemma probe_frame (t : pr_tree K) key slot :
  reachable t -> strict_total (key_cmp t) -> ~ In key (keys (root t)) ->
  exists xs ys, inorder (root t) = xs ++ ys /\
    Forall (fun e => key_cmp t (fst e) key = Lt) xs /\
    Forall (fun e => key_cmp t key (fst e) = Lt) ys /\
    fst (fst (pr_tree_probe t key slot true)) = 1%Z /\
    inorder (root (snd (pr_tree_probe t key slot true))) = xs ++ (key, slot) :: ys /\
    pr_tree_count (snd (pr_tree_probe t key slot true)) = S (pr_tree_count t).
Proof.
  intros Ht Hc Ha.
  pose proof (reachable_sorted t Ht Hc) as Hs.
  pose proof (reachable_count t Ht) as Hn.
  destruct (probe_absent (key_cmp t) key slot true (root t)
              (absent_not_eq _ Hc key _ Ha)) as [A _].
  destruct (A eq_refl) as [n' E].
  destruct (probe_new_inorder _ Hc _ _ _ _ _ Hs E) as (xs & ys & H1 & H2 & H3 & H4).
  exists xs, ys; rewrite (probe_new_code t key slot true n' E).
  unfold pr_tree_count; simpl; repeat split; auto.
  destruct (root t); simpl in *; lia.
Qed.

Lemma remove_frame (t : pr_tree K) key :
  reachable t -> strict_total (key_cmp t) -> In key (keys (root t)) ->
  exists xs e ys, inorder (root t) = xs ++ e :: ys /\ fst e = key /\
    fst (pr_tree_remove t key) = 0%Z /\
    inorder (root (snd (pr_tree_remove t key))) = xs ++ ys /\
    pr_tree_count (snd (pr_tree_remove t key)) = pr_tree_count t - 1.
Proof.
  intros Ht Hc Hin.
  pose proof (reachable_sorted t Ht Hc) as Hs.
  pose proof (remove_present _ Hc (node_count (root t)) key (root t) Hs Hin) as P1.
  pose proof (remove_loop_fuel (key_cmp t) (node_count (root t)) key (root t) (le_n _)) as P2.
  unfold pr_tree_remove.
  destruct (remove_loop (key_cmp t) (node_count (root t)) key (root t)) as [[n'|]|] eqn:E;
    [|congruence|congruence].
  destruct (remove_some_inorder _ _ _ _ _ E) as (xs & e & ys & H1 & H2 & H3).
  exists xs, e, ys; unfold pr_tree_count; simpl; repeat split; auto.
  apply (c_eq _ Hc) in H3; auto.
Qed.

End Frames.

Section Extra2.

Context {K : Type}.

(** pr_itor_search, from any cursor position, in a reachable tree whose
    comparator is a strict total order: for a present key it returns 1 with
    the cursor on the pair holding that key and its datum; for an absent key
    it returns 0 with the cursor unbound. *)
Theorem pr_itor_search_result (t : pr_tree K) o key :
  reachable t -> strict_total (key_cmp t) ->
  (forall d, In (key, d) (inorder (root t)) -> exists p pre post,
     pr_itor_search (mk_itor t o) key = (1%Z, mk_itor t (Some p)) /\
     pos_at (root t) p pre (key, d) post) /\
  (~ In key (keys (root t)) -> pr_itor_search (mk_itor t o) key = (0%Z, mk_itor t None)).
Proof.
  intros Ht Hc.
  pose proof (reachable_sorted t Ht Hc) as Hs.
  split.
  - intros d Hin.
    pose proof (in_keys (root t) (key, d) Hin) as Hk; simpl in Hk.
    destruct (search_pos (key_cmp t) key (root t) []) as [p|] eqn:S;
      [|exfalso; exact (search_pos_present _ Hc key (root t) [] Hs Hk S)].
    destruct (search_pos_some _ _ _ _ _ S) as (pre & e & post' & P' & Q' & D').
    destruct e as [k0' d0']; simpl in Q', D'.
    apply (c_eq _ Hc) in Q'; subst k0'.
    rewrite (search_in _ Hc key d (root t) Hs Hin) in D'; subst d0'.
    exists p, pre, post'; split; [|exact P'].
    unfold pr_itor_search; simpl; rewrite S; reflexivity.
  - intros Ha; unfold pr_itor_search; simpl.
    rewrite search_pos_absent; [reflexivity|].
    apply (absent_not_eq _ Hc); exact Ha.
Qed.

(** pr_itor_set_data on a bound cursor returns 0 and the old datum of the
    cursor's pair, replaces that datum in the tree in place (the in-order
    sequence changes at the cursor's position only; the cursor stays on the
    pair; count and comparator are kept), so that in a reachable tree with a
    strict total order a search for the pair's key returns the new datum and
    a search for any other key returns what it returned before. *)
Theorem pr_itor_set_data_update (t : pr_tree K) p pre e post datum old :
  reachable t -> strict_total (key_cmp t) -> pos_at (root t) p pre e post ->
  exists t' p',
    pr_itor_set_data (mk_itor t (Some p)) datum old = (0%Z, snd e, mk_itor t' (Some p')) /\
    pos_at (root t') p' pre (fst e, datum) post /\
    count t' = count t /\ key_cmp t' = key_cmp t /\
    pr_tree_search t' (fst e) = datum /\
    (forall key, key <> fst e -> pr_tree_search t' key = pr_tree_search t key).
Proof.
  intros Ht Hc Hp.
  pose proof (reachable_sorted t Ht Hc) as Hs.
  pose proof (pos_at_inorder _ _ _ _ _ Hp) as I.
  destruct Hp as (H1 & H2 & H3 & H4).
  destruct p as [[|l k d w r] ctx]; [discriminate|].
  simpl in H2; inversion H2; subst e; clear H2.
  cbn [fst snd llink_of rlink_of] in *.
  exists (mk_tree (plug ctx (Node l k datum w r)) (count t) (key_cmp t)),
         (Node l k datum w r, ctx).
  assert (P' : pos_at (plug ctx (Node l k datum w r)) (Node l k datum w r, ctx)
                 pre (k, datum) post) by (unfold pos_at; simpl; auto).
  pose proof (pos_at_inorder _ _ _ _ _ P') as I'.
  assert (S' : sorted (key_cmp t) (plug ctx (Node l k datum w r))).
  { unfold sorted, ascending, keys in *; rewrite I'; rewrite I in Hs.
    rewrite !map_app in *; exact Hs. }
  split; [reflexivity|split; [exact P'|split; [reflexivity|split; [reflexivity|]]]].
  unfold pr_tree_search; cbn [root key_cmp fst].
  rewrite (search_lookup _ Hc _ _ S').
  split.
  - rewrite I'; apply (lookup_in _ Hc).
    + rewrite <- I'; exact S'.
    + apply in_or_app; right; left; reflexivity.
  - intros key Hne; rewrite (search_lookup _ Hc _ _ S'), (search_lookup _ Hc _ _ Hs), I, I'.
    apply lookup_mid; intros E; apply (c_eq _ Hc) in E; contradiction.
Qed.

(** pr_tree_walk with a visitor: when the visitor accepts every pair it
    visits the whole in-order sequence and returns the node count; when it
    first rejects the pair [e] after accepting the pairs [pre] before it,
    the walk stops there, having visited [pre] and [e] in order, and returns
    [length pre + 1] (the rejected pair is counted). *)
Theorem pr_tree_walk_visit (t : pr_tree K) visit :
  (Forall (fun x => visit (fst x) (snd x) = true) (inorder (root t)) ->
     pr_tree_walk t visit = (node_count (root t), inorder (root t))) /\
  (forall pre e post, inorder (root t) = pre ++ e :: post ->
     Forall (fun x => visit (fst x) (snd x) = true) pre ->
     visit (fst e) (snd e) = false ->
     pr_tree_walk t visit = (S (length pre), pre ++ [e])).
Proof.
  unfold pr_tree_walk; destruct (root t) as [|l k d w r] eqn:R.
  - split; [reflexivity|]. intros pre e post H; destruct pre; discriminate.
  - destruct (node_min_spec (Node l k d w r) []) as (e0 & post0 & P & Q); [discriminate|].
    cbn [ctx_post plug] in Q, P; rewrite app_nil_r in Q.
    pose proof (f_equal (@length _) Q) as L; rewrite length_inorder in L; simpl in L.
    split.
    + intros F.
      rewrite (walk_loop_all _ visit _ _ _ e0 post0 0 P); [| |rewrite Q; exact F].
      * rewrite <- Q; f_equal; simpl; lia.
      * simpl; lia.
    + intros pre e post H F V.
      rewrite (walk_loop_stop _ visit _ _ _ e0 post0 0 pre e post P);
        [reflexivity|simpl; lia|congruence|exact F|exact V].
Qed.

(** Inserting an absent key (allocation succeeding), with pr_tree_insert or
    with pr_tree_probe, adds exactly one pair to the in-order sequence, at
    its ordered place: the old sequence splits as [xs ++ ys] with every key
    of [xs] below the new key and every key of [ys] above it, and the new
    sequence is [xs ++ (key, datum) :: ys]; the count grows by one. *)
Theorem pr_tree_insert_probe_frame (t : pr_tree K) key datum ow :
  reachable t -> strict_total (key_cmp t) -> ~ In key (keys (root t)) ->
  (exists xs ys, inorder (root t) = xs ++ ys /\
     Forall (fun e => key_cmp t (fst e) key = Lt) xs /\
     Forall (fun e => key_cmp t key (fst e) = Lt) ys /\
     fst (pr_tree_insert t key datum ow true) = 0%Z /\
     inorder (root (snd (pr_tree_insert t key datum ow true))) = xs ++ (key, datum) :: ys /\
     pr_tree_count (snd (pr_tree_insert t key datum ow true)) = S (pr_tree_count t)) /\
  (exists xs ys, inorder (root t) = xs ++ ys /\
     Forall (fun e => key_cmp t (fst e) key = Lt) xs /\
     Forall (fun e => key_cmp t key (fst e) = Lt) ys /\
     fst (fst (pr_tree_probe t key datum true)) = 1%Z /\
     inorder (root (snd (pr_tree_probe t key datum true))) = xs ++ (key, datum) :: ys /\
     pr_tree_count (snd (pr_tree_probe t key datum true)) = S (pr_tree_count t)).
Proof.
  intros Ht Hc Ha; split.
  - exact (insert_frame t key datum ow Ht Hc Ha).
  - exact (probe_frame t key datum Ht Hc Ha).
Qed.

(** pr_tree_insert with a nonzero [overwrite] on a present key replaces the
    datum of that key's pair in place: the in-order sequence changes at that
    pair only, and the count is unchanged. *)
Theorem pr_tree_insert_replace_frame (t : pr_tree K) key datum ow al :
  reachable t -> strict_total (key_cmp t) -> In key (keys (root t)) -> ow <> 0%Z ->
  exists xs e ys, inorder (root t) = xs ++ e :: ys /\ fst e = key /\
    fst (pr_tree_insert t key datum ow al) = 0%Z /\
    inorder (root (snd (pr_tree_insert t key datum ow al))) = xs ++ (key, datum) :: ys /\
    pr_tree_count (snd (pr_tree_insert t key datum ow al)) = pr_tree_count t.
Proof.
  intros Ht Hc Hin Ho.
  pose proof (reachable_sorted t Ht Hc) as Hs.
  destruct (insert_present _ Hc key datum ow al (root t) Hs Hin) as [_ A].
  destruct (A Ho) as [n' E].
  destruct (insert_replaced_inorder _ _ _ _ _ _ _ E) as (xs & e & ys & H1 & H2 & H3).
  apply (c_eq _ Hc) in H3.
  exists xs, e, ys; unfold pr_tree_insert; rewrite E; simpl; auto.
Qed.

(** pr_tree_remove of a present key takes exactly that key's pair out of
    the in-order sequence, keeps every other pair in order, returns 0 and
    decreases the count by one. *)
Theorem pr_tree_remove_frame (t : pr_tree K) key :
  reachable t -> strict_total (key_cmp t) -> In key (keys (root t)) ->
  exists xs e ys, inorder (root t) = xs ++ e :: ys /\ fst e = key /\
    fst (pr_tree_remove t key) = 0%Z /\
    inorder (root (snd (pr_tree_remove t key))) = xs ++ ys /\
    pr_tree_count (snd (pr_tree_remove t key)) = pr_tree_count t - 1.
Proof. exact (remove_frame t key). Qed.

(** Inserting an absent key and then removing it gives back the original
    in-order sequence and count; both calls return 0. *)
Theorem pr_tree_insert_remove_roundtrip (t : pr_tree K) key datum ow :
  reachable t -> strict_total (key_cmp t) -> ~ In key (keys (root t)) ->
  fst (pr_tree_insert t key datum ow true) = 0%Z /\
  fst (pr_tree_remove (snd (pr_tree_insert t key datum ow true)) key) = 0%Z /\
  inorder (root (snd (pr_tree_remove (snd (pr_tree_insert t key datum ow true)) key))) =
    inorder (root t) /\
  pr_tree_count (snd (pr_tree_remove (snd (pr_tree_insert t key datum ow true)) key)) =
    pr_tree_count t.
Proof.
  intros Ht Hc Ha.
  destruct (insert_frame t key datum ow Ht Hc Ha) as (xs & ys & A & _ & _ & B & C & D).
  set (t1 := snd (pr_tree_insert t key datum ow true)) in *.
  assert (R1 : reachable t1) by (apply reach_insert; exact Ht).
  assert (K1 : key_cmp t1 = key_cmp t) by apply key_cmp_insert.
  assert (Hc1 : strict_total (key_cmp t1)) by (rewrite K1; exact Hc).
  pose proof (reachable_sorted t1 R1 Hc1) as S1; rewrite K1 in S1.
  assert (In1 : In key (keys (root t1))).
  { unfold keys; rewrite C, map_app; apply in_or_app; right; left; reflexivity. }
  destruct (remove_frame t1 key R1 Hc1 In1) as (xs' & e & ys' & E1 & E2 & E3 & E4 & E5).
  unfold sorted, ascending, keys in S1; rewrite C in S1.
  destruct (split_unique _ Hc xs ys xs' ys' (key, datum) e S1 (eq_trans (eq_sym C) E1))
    as (-> & <- & ->); [simpl; rewrite E2; apply (c_refl _ Hc)|].
  repeat split; auto.
  - rewrite E4, A; reflexivity.
  - rewrite E5, D; lia.
Qed.

(** Removing a present pair and then inserting the same key and datum back
    gives back the original in-order sequence and count; both calls
    return 0. *)
Theorem pr_tree_remove_insert_roundtrip (t : pr_tree K) key d ow :
  reachable t -> strict_total (key_cmp t) -> In (key, d) (inorder (root t)) ->
  fst (pr_tree_remove t key) = 0%Z /\
  fst (pr_tree_insert (snd (pr_tree_remove t key)) key d ow true) = 0%Z /\
  inorder (root (snd (pr_tree_insert (snd (pr_tree_remove t key)) key d ow true))) =
    inorder (root t) /\
  pr_tree_count (snd (pr_tree_insert (snd (pr_tree_remove t key)) key d ow true)) =
    pr_tree_count t.
Proof.
  intros Ht Hc Hin.
  pose proof (reachable_sorted t Ht Hc) as Hs.
  pose proof (reachable_count t Ht) as Hn.
  pose proof (in_keys (root t) (key, d) Hin) as Hk; simpl in Hk.
  destruct (remove_frame t key Ht Hc Hk) as (xs & e & ys & A & B & C & D & E).
  assert (Se : StronglySorted (fun a b => key_cmp t a b = Lt) (map fst (xs ++ e :: ys)))
    by (unfold sorted, ascending, keys in Hs; rewrite A in Hs; exact Hs).
  assert (Ee : e = (key, d)).
  { rewrite A in Hin; apply in_split in Hin as (xs0 & ys0 & H0).
    destruct (split_unique _ Hc xs ys xs0 ys0 e (key, d) Se H0) as (_ & <- & _);
      [simpl; rewrite B; apply (c_refl _ Hc)|reflexivity]. }
  subst e.
  set (t1 := snd (pr_tree_remove t key)) in *.
  assert (R1 : reachable t1) by (apply reach_remove; exact Ht).
  assert (K1 : key_cmp t1 = key_cmp t) by apply key_cmp_remove.
  assert (Hc1 : strict_total (key_cmp t1)) by (rewrite K1; exact Hc).
  assert (Ha1 : ~ In key (keys (root t1))).
  { apply (absent_keys _ Hc1); rewrite K1, D.
    apply (mid_absent _ Hc xs ys (key, d)); [exact Se|apply (c_refl _ Hc)]. }
  destruct (insert_frame t1 key d ow R1 Hc1 Ha1) as (xs' & ys' & A' & F1 & F2 & B' & C' & D').
  rewrite K1 in F1, F2.
  destruct (mid_bounds _ xs ys (key, d) Se) as [G1 G2]; simpl in G1, G2.
  destruct (gap_unique _ Hc key xs ys xs' ys' (eq_trans (eq_sym D) A') G1 G2 F1 F2)
    as [<- <-].
  repeat split; auto.
  - rewrite C', A; reflexivity.
  - rewrite D', E; unfold pr_tree_count; rewrite Hn, <- length_inorder, A, length_app.
    simpl; lia.
Qed.

End Extra2.

Lemma pr_tree_count_nodes_witness :
  let t := insert_keys (mk_tree Nil 0 dict_ptr_cmp) [2; 1; 3]%Z in
  reachable t /\ pr_tree_count t = 3 /\ pr_tree_destroy t = 3 /\ fst (pr_tree_empty t) = 3.
Proof.
  intros t.
  assert (R : reachable t) by (apply reachable_insert_keys, reach_new).
  destruct (pr_tree_count_nodes t R) as (A & B & C).
  split; [exact R|]. rewrite A, B, C; split; [|split]; vm_compute; reflexivity.
Defined.

Lemma pr_tree_min_max_inorder_witness :
  let t := insert_keys (mk_tree Nil 0 dict_ptr_cmp) [2; 1; 3]%Z in
  pr_tree_min t = Some 1%Z /\ pr_tree_max t = Some 3%Z /\
  pr_tree_min (mk_tree Nil 0 dict_ptr_cmp) = None.
Proof.
  intros t.
  destruct (pr_tree_min_max_inorder t) as [A B].
  destruct (pr_tree_min_max_inorder (mk_tree Nil 0 dict_ptr_cmp)) as [C _].
  rewrite A, B, C; vm_compute; split; [reflexivity|split; reflexivity].
Defined.

Lemma pr_tree_min_max_order_witness :
  let t := insert_keys (mk_tree Nil 0 dict_ptr_cmp) [2; 1; 3]%Z in
  pr_tree_min t = Some 1%Z /\
  (forall k, In k (keys (root t)) -> k <> 1%Z -> key_cmp t 1%Z k = Lt).
Proof.
  intros t.
  assert (R : reachable t) by (apply reachable_insert_keys, reach_new).
  destruct (pr_tree_min_max_order t R strict_total_dict_ptr_cmp) as (_ & _ & M & _).
  assert (Hm : pr_tree_min t = Some 1%Z) by (vm_compute; reflexivity).
  split; [exact Hm|exact (proj2 (M _ Hm))].
Defined.

Lemma pr_tree_height_bounds_witness :
  let t := insert_keys (mk_tree Nil 0 dict_ptr_cmp) [2; 1; 3]%Z in
  0 < pr_tree_count t /\
  pr_tree_mheight t <= pr_tree_height t /\
  pr_tree_height t < pr_tree_count t /\
  2 ^ S (pr_tree_mheight t) <= S (pr_tree_count t) /\
  S (pr_tree_count t) <= 2 ^ S (pr_tree_height t).
Proof.
  intros t.
  assert (R : reachable t) by (apply reachable_insert_keys, reach_new).
  assert (P : 0 < pr_tree_count t) by (vm_compute; lia).
  split; [exact P|exact (pr_tree_height_bounds t R P)].
Defined.

Lemma fixup_pathlen_witness :
  let n := Node Nil 1%Z 1%Z 4 (Node Nil 2%Z 2%Z 3 (Node Nil 3%Z 3%Z 2 Nil)) in
  weights_ok n /\ (N.of_nat (node_count n) < 65536)%N /\
  node_pathlen n 1 = 3%N /\ node_pathlen (fixup n) 1 = 2%N /\
  (fixup n = n \/ (node_pathlen (fixup n) 1 < node_pathlen n 1)%N).
Proof.
  intros n.
  assert (W : weights_ok n) by (simpl; repeat split).
  assert (C : (N.of_nat (node_count n) < 65536)%N) by (vm_compute; reflexivity).
  split; [exact W|split; [exact C|split; [vm_compute; reflexivity|split]]].
  - vm_compute; reflexivity.
  - exact (fixup_pathlen n W C).
Defined.

Lemma pr_itor_nextn_bound_witness :
  let t := insert_keys (mk_tree Nil 0 dict_ptr_cmp) [2; 1; 3]%Z in
  let p := node_min (root t) [] in
  pos_at (root t) p [] (1, 1)%Z [(2, 2); (3, 3)]%Z /\
  exists p' pre' e' post',
    pr_itor_nextn (mk_itor t (Some p)) 2 = (1%Z, mk_itor t (Some p')) /\
    pos_at (root t) p' pre' e' post' /\ length pre' = 2.
Proof.
  intros t p.
  assert (P : pos_at (root t) p [] (1, 1)%Z [(2, 2); (3, 3)]%Z)
    by (vm_compute; repeat split).
  destruct (pr_itor_nextn_bound t p _ _ _ 2 P) as [A _].
  split; [exact P|apply A; simpl; lia].
Defined.

Lemma pr_itor_prevn_bound_witness :
  let t := insert_keys (mk_tree Nil 0 dict_ptr_cmp) [2; 1; 3]%Z in
  let p := node_max (root t) [] in
  pos_at (root t) p [(1, 1); (2, 2)]%Z (3, 3)%Z [] /\
  pr_itor_prevn (mk_itor t (Some p)) 3 = (0%Z, mk_itor t None).
Proof.
  intros t p.
  assert (P : pos_at (root t) p [(1, 1); (2, 2)]%Z (3, 3)%Z [])
    by (vm_compute; repeat split).
  destruct (pr_itor_prevn_bound t p _ _ _ 3 P) as [_ B].
  split; [exact P|apply B; simpl; lia].
Defined.

Lemma pr_itor_nextn_prevn_unbound_witness :
  let t := insert_keys (mk_tree Nil 0 dict_ptr_cmp) [2; 1; 3]%Z in
  (exists p pre e post,
     pr_itor_nextn (mk_itor t None) 2 = (1%Z, mk_itor t (Some p)) /\
     pos_at (root t) p pre e post /\ length pre = 1) /\
  pr_itor_prevn (mk_itor t None) 4 = (0%Z, mk_itor t None).
Proof.
  intros t.
  destruct (pr_itor_nextn_prevn_unbound t 1) as (A & _ & _ & _).
  destruct (pr_itor_nextn_prevn_unbound t 3) as (_ & _ & _ & B).
  split; [apply A; vm_compute; lia|apply B; vm_compute; lia].
Defined.

Lemma pr_itor_search_result_witness :
  let t := insert_keys (mk_tree Nil 0 dict_ptr_cmp) [2; 1; 3]%Z in
  (exists p pre post,
     pr_itor_search (mk_itor t None) 2%Z = (1%Z, mk_itor t (Some p)) /\
     pos_at (root t) p pre (2, 2)%Z post) /\
  pr_itor_search (mk_itor t None) 5%Z = (0%Z, mk_itor t None).
Proof.
  intros t.
  assert (R : reachable t) by (apply reachable_insert_keys, reach_new).
  destruct (pr_itor_search_result t None 2%Z R strict_total_dict_ptr_cmp) as [A _].
  destruct (pr_itor_search_result t None 5%Z R strict_total_dict_ptr_cmp) as [_ B].
  split.
  - apply A; vm_compute; right; left; reflexivity.
  - apply B; vm_compute; intuition discriminate.
Defined.

Lemma pr_itor_set_data_update_witness :
  let t := insert_keys (mk_tree Nil 0 dict_ptr_cmp) [2; 1; 3]%Z in
  let p := node_min (root t) [] in
  pos_at (root t) p [] (1, 1)%Z [(2, 2); (3, 3)]%Z /\
  exists t' p',
    pr_itor_set_data (mk_itor t (Some p)) 9%Z 0%Z = (0%Z, 1%Z, mk_itor t' (Some p')) /\
    pr_tree_search t' 1%Z = 9%Z /\ pr_tree_search t' 3%Z = pr_tree_search t 3%Z.
Proof.
  intros t p.
  assert (R : reachable t) by (apply reachable_insert_keys, reach_new).
  assert (P : pos_at (root t) p [] (1, 1)%Z [(2, 2); (3, 3)]%Z)
    by (vm_compute; repeat split).
  destruct (pr_itor_set_data_update t p _ _ _ 9%Z 0%Z R strict_total_dict_ptr_cmp P)
    as (t' & p' & A & _ & _ & _ & B & C).
  split; [exact P|].
  exists t', p'; split; [exact A|split; [exact B|apply C; discriminate]].
Defined.

Lemma pr_tree_walk_visit_witness :
  let t := insert_keys (mk_tree Nil 0 dict_ptr_cmp) [2; 1; 3]%Z in
  inorder (root t) = [(1, 1)]%Z ++ (2, 2)%Z :: [(3, 3)]%Z /\
  pr_tree_walk t (fun k _ => Z.ltb k 2) = (2, [(1, 1); (2, 2)]%Z).
Proof.
  intros t.
  destruct (pr_tree_walk_visit t (fun k _ => Z.ltb k 2)) as [_ B].
  assert (I : inorder (root t) = [(1, 1)]%Z ++ (2, 2)%Z :: [(3, 3)]%Z)
    by (vm_compute; reflexivity).
  split; [exact I|].
  exact (B _ _ _ I ltac:(repeat constructor) eq_refl).
Defined.

Lemma pr_tree_insert_probe_frame_witness :
  let t := insert_keys (mk_tree Nil 0 dict_ptr_cmp) [2; 1; 3]%Z in
  ~ In 5%Z (keys (root t)) /\
  (exists xs ys, inorder (root t) = xs ++ ys /\
     Forall (fun e => dict_ptr_cmp (fst e) 5%Z = Lt) xs /\
     Forall (fun e => dict_ptr_cmp 5%Z (fst e) = Lt) ys /\
     inorder (root (snd (pr_tree_insert t 5%Z 7%Z 0%Z true))) = xs ++ (5, 7)%Z :: ys) /\
  (exists xs ys, inorder (root t) = xs ++ ys /\
     Forall (fun e => dict_ptr_cmp (fst e) 5%Z = Lt) xs /\
     Forall (fun e => dict_ptr_cmp 5%Z (fst e) = Lt) ys /\
     inorder (root (snd (pr_tree_probe t 5%Z 7%Z true))) = xs ++ (5, 7)%Z :: ys).
Proof.
  intros t.
  assert (R : reachable t) by (apply reachable_insert_keys, reach_new).
  assert (Ha : ~ In 5%Z (keys (root t))) by (vm_compute; intuition discriminate).
  destruct (pr_tree_insert_probe_frame t 5%Z 7%Z 0%Z R strict_total_dict_ptr_cmp Ha)
    as [(xs & ys & A & B & C & _ & D & _) (xs' & ys' & A' & B' & C' & _ & D' & _)].
  split; [exact Ha|split].
  - exists xs, ys; auto.
  - exists xs', ys'; auto.
Defined.

Lemma pr_tree_insert_replace_frame_witness :
  let t := insert_keys (mk_tree Nil 0 dict_ptr_cmp) [2; 1; 3]%Z in
  In 2%Z (keys (root t)) /\
  exists xs e ys, inorder (root t) = xs ++ e :: ys /\ fst e = 2%Z /\
    inorder (root (snd (pr_tree_insert t 2%Z 7%Z 1%Z true))) = xs ++ (2, 7)%Z :: ys.
Proof.
  intros t.
  assert (R : reachable t) by (apply reachable_insert_keys, reach_new).
  assert (Hin : In 2%Z (keys (root t))) by (vm_compute; right; left; reflexivity).
  destruct (pr_tree_insert_replace_frame t 2%Z 7%Z 1%Z true R strict_total_dict_ptr_cmp
              Hin ltac:(discriminate)) as (xs & e & ys & A & B & _ & C & _).
  split; [exact Hin|exists xs, e, ys; auto].
Defined.

Lemma pr_tree_remove_frame_witness :
  let t := insert_keys (mk_tree Nil 0 dict_ptr_cmp) [2; 1; 3]%Z in
  In 2%Z (keys (root t)) /\
  exists xs e ys, inorder (root t) = xs ++ e :: ys /\ fst e = 2%Z /\
    inorder (root (snd (pr_tree_remove t 2%Z))) = xs ++ ys.
Proof.
  intros t.
  assert (R : reachable t) by (apply reachable_insert_keys, reach_new).
  assert (Hin : In 2%Z (keys (root t))) by (vm_compute; right; left; reflexivity).
  destruct (pr_tree_remove_frame t 2%Z R strict_total_dict_ptr_cmp Hin)
    as (xs & e & ys & A & B & _ & C & _).
  split; [exact Hin|exists xs, e, ys; auto].
Defined.

Lemma pr_tree_insert_remove_roundtrip_witness :
  let t := insert_keys (mk_tree Nil 0 dict_ptr_cmp) [2; 1; 3]%Z in
  ~ In 5%Z (keys (root t)) /\
  inorder (root (snd (pr_tree_remove (snd (pr_tree_insert t 5%Z 7%Z 0%Z true)) 5%Z))) =
    inorder (root t).
Proof.
  intros t.
  assert (R : reachable t) by (apply reachable_insert_keys, reach_new).
  assert (Ha : ~ In 5%Z (keys (root t))) by (vm_compute; intuition discriminate).
  destruct (pr_tree_insert_remove_roundtrip t 5%Z 7%Z 0%Z R strict_total_dict_ptr_cmp Ha)
    as (_ & _ & A & _).
  split; [exact Ha|exact A].
Defined.

Lemma pr_tree_remove_insert_roundtrip_witness :
  let t := insert_keys (mk_tree Nil 0 dict_ptr_cmp) [2; 1; 3]%Z in
  In (2, 2)%Z (inorder (root t)) /\
  inorder (root (snd (pr_tree_insert (snd (pr_tree_remove t 2%Z)) 2%Z 2%Z 0%Z true))) =
    inorder (root t).
Proof.
  intros t.
  assert (R : reachable t) by (apply reachable_insert_keys, reach_new).
  assert (Hin : In (2, 2)%Z (inorder (root t))) by (vm_compute; right; left; reflexivity).
  destruct (pr_tree_remove_insert_roundtrip t 2%Z 2%Z 0%Z R strict_total_dict_ptr_cmp Hin)
    as (_ & _ & A & _).
  split; [exact Hin|exact A].
Defined.
